(** * telkraft/codex: the xAPI statement normaliser and the question router

    The first part embeds the helper functions of
    [rag-stack/api/xAPI-n8n/xAPI-n8n-normalize.js] ([normalizeFull],
    [toNumber], [getVerb]) over a model of the JavaScript built-ins they
    call.  The second part models the rule-based question router, whose
    Python sources are not part of this tree, from its specification and
    README. *)

From Stdlib Require Import List NArith ZArith Bool Lia String Ascii.
From Stdlib Require Import QArith Qround Lqa Permutation.
From Stdlib Require DecimalN.
Close Scope Q_scope.
Import ListNotations.

(** ** The JavaScript built-ins used by the script *)

Module JS.

Local Open Scope N_scope.

(** A JavaScript string is a sequence of UTF-16 code units.  The regular
    expressions of the script carry no [u] flag, so they work code unit by
    code unit. *)
Definition jsstring := list N.

(** An ASCII literal as a JavaScript string. *)
Fixpoint js (s : string) : jsstring :=
  match s with
  | EmptyString => []
  | String c t => N_of_ascii c :: js t
  end.

Fixpoint str_eqb (a b : jsstring) : bool :=
  match a, b with
  | [], [] => true
  | x :: a', y :: b' => (x =? y) && str_eqb a' b'
  | _, _ => false
  end.

Definition in_range (lo hi c : N) : bool := (lo <=? c) && (c <=? hi).

(** [WhiteSpace] and [LineTerminator] of ECMA-262: what [trim], the regular
    expression class [\s] and [StrWhiteSpaceChar] all accept. *)
Definition is_space (c : N) : bool :=
  in_range 9 13 c || (c =? 32) || (c =? 160) || (c =? 5760) ||
  in_range 8192 8202 c || (c =? 8232) || (c =? 8233) || (c =? 8239) ||
  (c =? 8287) || (c =? 12288) || (c =? 65279).

Fixpoint dropWhile (p : N -> bool) (s : jsstring) : jsstring :=
  match s with
  | [] => []
  | c :: t => if p c then dropWhile p t else s
  end.

(** [String.prototype.trim]. *)
Definition trimStart (s : jsstring) : jsstring := dropWhile is_space s.
Definition trimEnd (s : jsstring) : jsstring := rev (dropWhile is_space (rev s)).
Definition trim (s : jsstring) : jsstring := trimEnd (trimStart s).

(** [String.prototype.toLowerCase] on one code unit.  The table covers
    Basic Latin, Latin-1 Supplement and Latin Extended-A (where the Turkish
    letters live) and the two letterlike symbols with a Latin lower case.
    U+0130 (capital I with dot above) lowers to TWO code units, [i] followed
    by the combining dot above U+0307.  Code units outside the table are
    left as they are: their lower-case forms contain no code unit among
    [a-z], [0-9], space and the six letters ı ş ğ ü ö ç, which is all the
    callers below observe. *)
Definition lower_unit (c : N) : list N :=
  if in_range 65 90 c then [c + 32]
  else if in_range 192 222 c && negb (c =? 215) then [c + 32]
  else if c =? 304 then [105; 775]
  else if (in_range 256 303 c || in_range 306 311 c || in_range 330 375 c)
          && N.even c then [c + 1]
  else if (in_range 313 328 c || in_range 377 382 c) && N.odd c then [c + 1]
  else if c =? 376 then [255]
  else if c =? 8490 then [107]
  else if c =? 8491 then [229]
  else [c].

Definition toLowerCase (s : jsstring) : jsstring := flat_map lower_unit s.

(** [s.replace(/x/g, y)] for a pattern that is a single code unit. *)
Definition replaceUnit (x y c : N) : N := if c =? x then y else c.

Definition replaceAllUnit (x y : N) (s : jsstring) : jsstring :=
  map (replaceUnit x y) s.

(** [s.replace(/[^...]/g, " ")] for a negated class: every code unit outside
    the class becomes a space. *)
Definition replaceOutside (cls : N -> bool) (s : jsstring) : jsstring :=
  map (fun c => if cls c then c else 32) s.

(** [s.replace(/\s+/g, " ")]: each maximal run of white space becomes one
    space.  [in_run] tells whether the previous code unit was white space. *)
Fixpoint collapseFrom (in_run : bool) (s : jsstring) : jsstring :=
  match s with
  | [] => []
  | c :: t =>
      if is_space c
      then (if in_run then collapseFrom true t else 32 :: collapseFrom true t)
      else c :: collapseFrom false t
  end.

Definition collapseSpaces (s : jsstring) : jsstring := collapseFrom false s.

(** [s.replace(x, y)] with a string pattern of one code unit: only the
    first occurrence is replaced. *)
Fixpoint replaceFirstUnit (x y : N) (s : jsstring) : jsstring :=
  match s with
  | [] => []
  | c :: t => if c =? x then y :: t else c :: replaceFirstUnit x y t
  end.

(** [s.includes(sub)]. *)
Fixpoint startsWith (sub s : jsstring) : bool :=
  match sub, s with
  | [], _ => true
  | _ :: _, [] => false
  | x :: sub', c :: t => (x =? c) && startsWith sub' t
  end.

Fixpoint includes (s sub : jsstring) : bool :=
  startsWith sub s ||
  match s with
  | [] => false
  | _ :: t => includes t sub
  end.

(** Numbers.  A finite number is kept as a signed decimal
    [(-1)^neg * m * 10^e]; zero is [m = 0] and keeps its sign. *)
Inductive jsnum : Type :=
| NaN
| Inf (neg : bool)
| Dec (neg : bool) (m : N) (e : Z).

Definition isNaN (x : jsnum) : bool :=
  match x with NaN => true | _ => false end.

Definition is_digit (c : N) : bool := in_range 48 57 c.

Fixpoint uint_units (d : Decimal.uint) : jsstring :=
  match d with
  | Decimal.Nil => []
  | Decimal.D0 r => 48 :: uint_units r
  | Decimal.D1 r => 49 :: uint_units r
  | Decimal.D2 r => 50 :: uint_units r
  | Decimal.D3 r => 51 :: uint_units r
  | Decimal.D4 r => 52 :: uint_units r
  | Decimal.D5 r => 53 :: uint_units r
  | Decimal.D6 r => 54 :: uint_units r
  | Decimal.D7 r => 55 :: uint_units r
  | Decimal.D8 r => 56 :: uint_units r
  | Decimal.D9 r => 57 :: uint_units r
  end.

Definition digits (n : N) : jsstring := uint_units (N.to_uint n).

Definition zeros (n : Z) : jsstring := repeat 48 (Z.to_nat n).

(** [Number::toString] (radix 10) of ECMA-262, on the digits [ds] of the
    significand without trailing zeros and the exponent [n] of the
    standard. *)
Definition renderDecimal (ds : jsstring) (n : Z) : jsstring :=
  let k := Z.of_nat (List.length ds) in
  if ((k <=? n) && (n <=? 21))%Z then ds ++ zeros (n - k)
  else if ((0 <? n) && (n <=? 21))%Z
       then firstn (Z.to_nat n) ds ++ 46 :: skipn (Z.to_nat n) ds
  else if ((-6 <? n) && (n <=? 0))%Z then 48 :: 46 :: zeros (- n) ++ ds
  else
    let ex := (n - 1)%Z in
    let sign := if (ex <? 0)%Z then 45 else 43 in
    let tail := 101 :: sign :: digits (Z.abs_N ex) in
    match ds with
    | [d] => d :: tail
    | d :: rest => d :: 46 :: rest ++ tail
    | [] => tail
    end.

Definition numberToString (x : jsnum) : jsstring :=
  match x with
  | NaN => js "NaN"
  | Inf false => js "Infinity"
  | Inf true => js "-Infinity"
  | Dec _ 0 _ => js "0"
  | Dec neg m e =>
      let all := digits m in
      let ds := rev (dropWhile (N.eqb 48) (rev all)) in
      let e' := (e + Z.of_nat (List.length all) - Z.of_nat (List.length ds))%Z in
      (if neg then [45] else []) ++
      renderDecimal ds (e' + Z.of_nat (List.length ds))
  end.

(** The values a statement field can hold. *)
Inductive jsval : Type :=
| JUndefined
| JNull
| JBool (b : bool)
| JNum (x : jsnum)
| JStr (s : jsstring).

(** [ToBoolean]. *)
Definition truthy (v : jsval) : bool :=
  match v with
  | JUndefined | JNull => false
  | JBool b => b
  | JNum NaN => false
  | JNum (Dec _ 0 _) => false
  | JNum _ => true
  | JStr [] => false
  | JStr _ => true
  end.

(** [String(v)]. *)
Definition toString (v : jsval) : jsstring :=
  match v with
  | JUndefined => js "undefined"
  | JNull => js "null"
  | JBool true => js "true"
  | JBool false => js "false"
  | JNum x => numberToString x
  | JStr s => s
  end.

(** [a || b]. *)
Definition or_else (a b : jsval) : jsval := if truthy a then a else b.

(** [Number(s)] on a string: [StringToNumber] of ECMA-262.  The result is
    the mathematical value of the literal; the rounding to binary64 that
    follows can turn it into an infinity or a zero but never into [NaN]. *)
Fixpoint span_digits (s : jsstring) : jsstring * jsstring :=
  match s with
  | c :: t =>
      if is_digit c
      then let (d, r) := span_digits t in (c :: d, r)
      else ([], s)
  | [] => ([], [])
  end.

Definition digit_value (c : N) : N := c - 48.

Definition hex_value (c : N) : option N :=
  if is_digit c then Some (c - 48)
  else if in_range 97 102 c then Some (c - 87)
  else if in_range 65 70 c then Some (c - 55)
  else None.

Definition decimal_value (ds : jsstring) : N :=
  fold_left (fun acc c => 10 * acc + digit_value c) ds 0.

(** Digits of a [NonDecimalIntegerLiteral] in base [b]; [None] when a code
    unit is not a digit of that base. *)
Fixpoint radix_value (b : N) (acc : N) (s : jsstring) : option N :=
  match s with
  | [] => Some acc
  | c :: t =>
      match hex_value c with
      | Some d => if d <? b then radix_value b (b * acc + d) t else None
      | None => None
      end
  end.

Definition parseExponent (s : jsstring) : option Z :=
  let body (neg : bool) (r : jsstring) :=
    match span_digits r with
    | (d :: ds, []) =>
        let v := Z.of_N (decimal_value (d :: ds)) in
        Some (if neg then (- v)%Z else v)
    | _ => None
    end in
  match s with
  | 43 :: r => body false r
  | 45 :: r => body true r
  | _ => body false s
  end.

Definition parseUnsignedDecimal (neg : bool) (s : jsstring) : jsnum :=
  if str_eqb s (js "Infinity") then Inf neg
  else
    let (ip, r1) := span_digits s in
    let '(fp, r2) :=
      match r1 with
      | 46 :: r => span_digits r
      | _ => ([], r1)
      end in
    match ip ++ fp with
    | [] => NaN
    | ds =>
        let m := decimal_value ds in
        let scale := (- Z.of_nat (List.length fp))%Z in
        match r2 with
        | [] => Dec neg m scale
        | c :: r3 =>
            if (c =? 101) || (c =? 69)
            then match parseExponent r3 with
                 | Some x => Dec neg m (x + scale)
                 | None => NaN
                 end
            else NaN
        end
    end.

Definition parseRadix (b : N) (s : jsstring) : jsnum :=
  match s with
  | [] => NaN
  | _ => match radix_value b 0 s with
         | Some v => Dec false v 0
         | None => NaN
         end
  end.

Definition parseNumericLiteral (s : jsstring) : jsnum :=
  match s with
  | 48 :: c :: r =>
      if (c =? 120) || (c =? 88) then parseRadix 16 r
      else if (c =? 111) || (c =? 79) then parseRadix 8 r
      else if (c =? 98) || (c =? 66) then parseRadix 2 r
      else parseUnsignedDecimal false s
  | 43 :: r => parseUnsignedDecimal false r
  | 45 :: r => parseUnsignedDecimal true r
  | _ => parseUnsignedDecimal false s
  end.

Definition stringToNumber (s : jsstring) : jsnum :=
  match trim s with
  | [] => Dec false 0 0
  | t => parseNumericLiteral t
  end.

(** [s.split(sep)] with a separator of one code unit: the pieces between
    the separators, empty pieces included; the empty string gives one empty
    piece. *)
Fixpoint splitOn (sep : N) (cur s : jsstring) : list jsstring :=
  match s with
  | [] => [rev cur]
  | c :: t =>
      if c =? sep then rev cur :: splitOn sep [] t
      else splitOn sep (c :: cur) t
  end.

Definition split (s : jsstring) (sep : N) : list jsstring := splitOn sep [] s.

(** [x | 0] on a real number: [ToInt32], truncation toward zero and
    wrap-around to 32 signed bits. *)
Definition truncate (x : Q) : Z :=
  if Qle_bool 0 x then Qfloor x else Qceiling x.

Definition toInt32 (x : Q) : Z :=
  ((truncate x + 2 ^ 31) mod 2 ^ 32 - 2 ^ 31)%Z.

Fixpoint hex_units (d : Hexadecimal.uint) : jsstring :=
  match d with
  | Hexadecimal.Nil => []
  | Hexadecimal.D0 r => 48 :: hex_units r
  | Hexadecimal.D1 r => 49 :: hex_units r
  | Hexadecimal.D2 r => 50 :: hex_units r
  | Hexadecimal.D3 r => 51 :: hex_units r
  | Hexadecimal.D4 r => 52 :: hex_units r
  | Hexadecimal.D5 r => 53 :: hex_units r
  | Hexadecimal.D6 r => 54 :: hex_units r
  | Hexadecimal.D7 r => 55 :: hex_units r
  | Hexadecimal.D8 r => 56 :: hex_units r
  | Hexadecimal.D9 r => 57 :: hex_units r
  | Hexadecimal.Da r => 97 :: hex_units r
  | Hexadecimal.Db r => 98 :: hex_units r
  | Hexadecimal.Dc r => 99 :: hex_units r
  | Hexadecimal.Dd r => 100 :: hex_units r
  | Hexadecimal.De r => 101 :: hex_units r
  | Hexadecimal.Df r => 102 :: hex_units r
  end.

(** [v.toString(16)] on an integer. *)
Definition toString16 (v : Z) : jsstring :=
  if (v <? 0)%Z then 45 :: hex_units (N.to_hex_uint (Z.abs_N v))
  else hex_units (N.to_hex_uint (Z.to_N v)).

(** [s.replace(/[...]/g, f)] with a callback: each code unit of the class
    is replaced, from left to right, by what the callback returns for it.
    The callback reads the random source, so the number of draws made so
    far is threaded through. *)
Fixpoint replaceWith (cls : N -> bool) (f : N -> nat -> jsstring * nat)
    (s : jsstring) (drawn : nat) : jsstring * nat :=
  match s with
  | [] => ([], drawn)
  | c :: t =>
      if cls c
      then let (out, drawn1) := f c drawn in
           let (rest, drawn2) := replaceWith cls f t drawn1 in
           (out ++ rest, drawn2)
      else let (rest, drawn1) := replaceWith cls f t drawn in
           (c :: rest, drawn1)
  end.

End JS.

(** ** The statement builder: [xAPI-n8n-normalize.js] *)

Module XApi.

Import JS.
Local Open Scope string_scope.
Local Open Scope list_scope.
Local Open Scope N_scope.

Notation "x |> f" := (f x) (at level 65, left associativity, only parsing).

Definition BASE_URI : jsstring := js "https://promptever.com".

(** The class [[a-z0-9 ]] of the script's regular expression. *)
Definition plain_unit (c : N) : bool :=
  in_range 97 122 c || in_range 48 57 c || (c =? 32).

(** [normalizeFull]: Turkish letters and format normalisation.  The code
    units are ı 305, İ 304, ş 351, Ş 350, ğ 287, Ğ 286, ü 252, Ü 220,
    ö 246, Ö 214, ç 231, Ç 199. *)
Definition normalizeFull (text : jsval) : jsstring :=
  if negb (truthy text) then []
  else
    toString text
    |> toLowerCase
    |> replaceAllUnit 305 105 |> replaceAllUnit 304 105
    |> replaceAllUnit 351 115 |> replaceAllUnit 350 115
    |> replaceAllUnit 287 103 |> replaceAllUnit 286 103
    |> replaceAllUnit 252 117 |> replaceAllUnit 220 117
    |> replaceAllUnit 246 111 |> replaceAllUnit 214 111
    |> replaceAllUnit 231 99 |> replaceAllUnit 199 99
    |> replaceOutside plain_unit
    |> collapseSpaces
    |> trim.

(** [toNumber]: [None] stands for [undefined]. *)
Definition toNumber (val : jsval) : option jsnum :=
  match val with
  | JNull | JUndefined => None
  | _ =>
      let s := trim (toString val) in
      match s with
      | [] => None
      | _ =>
          let normalized := replaceFirstUnit 44 46 s in
          let n := stringToNumber normalized in
          if isNaN n then None else Some n
      end
  end.

(** An xAPI verb: its IRI and its two display strings.  The Turkish display
    of the fallback verb is the raw field, hence a [jsval]. *)
Record Verb : Type := mkVerb {
  verb_id : jsstring;
  display_tr : jsval;
  display_en : jsstring
}.

Inductive VerbKey : Type :=
| BAKIM | ONARIM | ONARIM_KAZA | KAZA_ONARIM | AKSIYON.

Definition VERB_MAP (k : VerbKey) : Verb :=
  match k with
  | BAKIM =>
      mkVerb (BASE_URI ++ js "/verbs/maintained")
             (JStr (js "Bak" ++ [305] ++ js "m")) (js "Maintained")
  | ONARIM =>
      mkVerb (BASE_URI ++ js "/verbs/repaired")
             (JStr (js "Onar" ++ [305] ++ js "m")) (js "Repaired")
  | ONARIM_KAZA | KAZA_ONARIM =>
      mkVerb (BASE_URI ++ js "/verbs/accident-repaired")
             (JStr (js "Kaza Onar" ++ [305] ++ js "m" ++ [305]))
             (js "Accident Repaired")
  | AKSIYON =>
      mkVerb (BASE_URI ++ js "/verbs/action")
             (JStr (js "Aksiyon")) (js "Action")
  end.

Definition COMPLETED_ID : jsstring :=
  js "http://adlnet.gov/expapi/verbs/completed".

(** [getVerb]: operation type to xAPI verb. *)
Definition getVerb (islemturu : jsval) : Verb :=
  let n := normalizeFull (or_else islemturu (JStr [])) in
  if includes n (js "onarim") && includes n (js "kaza")
  then VERB_MAP ONARIM_KAZA
  else if includes n (js "aksiyon")
  then VERB_MAP AKSIYON
  else if includes n (js "2") && includes n (js "el") && includes n (js "onarim")
  then VERB_MAP ONARIM
  else if includes n (js "onarim")
  then VERB_MAP ONARIM
  else if includes n (js "bakim")
  then VERB_MAP BAKIM
  else
    mkVerb COMPLETED_ID
           (or_else islemturu (JStr (js "Tamamland" ++ [305])))
           (js "Completed").

(** [uuidv4]: [random k] is the value of the [k]-th call of
    [Math.random()]; the result comes with the number of draws made. *)
Definition uuidv4 (random : nat -> Q) (drawn : nat) : jsstring * nat :=
  replaceWith
    (fun c => (c =? 120) || (c =? 121))
    (fun c k =>
       let r := toInt32 (random k * 16)%Q in
       let v := if c =? 120 then r else Z.lor (Z.land r 3) 8 in
       (toString16 v, S k))
    (js "xxxxxxxx-xxxx-4xxx-yxxx-xxxxxxxxxxxx")
    drawn.

(** [cleanString]: plain trim; [JUndefined] for nothing left. *)
Definition cleanString (val : jsval) : jsval :=
  match val with
  | JNull | JUndefined => JUndefined
  | _ =>
      let cleaned := trim (toString val) in
      match cleaned with
      | [] => JUndefined
      | _ => JStr cleaned
      end
  end.

Definition UNKNOWN : jsstring := js "UNKNOWN".

(** [tokens[0] || "UNKNOWN"]. *)
Definition first_or_unknown (tokens : list jsstring) : jsstring :=
  match tokens with
  | [] => UNKNOWN
  | [] :: _ => UNKNOWN
  | t :: _ => t
  end.

(** [extractVehicleId]: vehicle id. *)
Definition extractVehicleId (aracData : jsval) : jsstring :=
  let raw := cleanString aracData in
  if negb (truthy raw) then UNKNOWN
  else
    let tokens := split (normalizeFull raw) 32 in
    first_or_unknown tokens.

(** [extractCustomerId]: customer id. *)
Definition extractCustomerId (musteriData : jsval) : jsstring :=
  let raw := cleanString musteriData in
  if negb (truthy raw) then UNKNOWN
  else
    let tokens := split (normalizeFull raw) 32 in
    first_or_unknown tokens.

(** [detectMaintenancePackage]: the EURO6 maintenance package label;
    [None] stands for [undefined]. *)
Definition detectMaintenancePackage (islemturu : jsval) : option jsstring :=
  let n := normalizeFull (or_else islemturu (JStr [])) in
  if includes n (js "euro6") && includes n (js "bakim")
  then Some (js "euro6_cde_maintenance")
  else None.

(** A row of the sheet, [item.json]: a missing key reads as [JUndefined]. *)
Definition Row : Type := string -> jsval.

(** [...(cond && { [key]: value })] inside an object literal: the entry
    when the condition holds, nothing otherwise. *)
Definition spreadIf (cond : bool) (key : jsstring) (value : jsval)
    : list (jsstring * jsval) :=
  if cond then [(key, value)] else [].

Definition someNumber (x : option jsnum) : bool :=
  match x with Some _ => true | None => false end.

Definition numberValue (x : option jsnum) : jsval :=
  match x with Some n => JNum n | None => JUndefined end.

(** The object [result.extensions] of the statement, as its entries in
    order. *)
Definition resultExtensions (data : Row) : list (jsstring * jsval) :=
  (spreadIf (someNumber (toNumber (data "km")))
     (BASE_URI ++ js "/extensions/odometerReading")
     (numberValue (toNumber (data "km"))) ++
   spreadIf (someNumber (toNumber (data "miktar")))
     (BASE_URI ++ js "/extensions/materialQuantity")
     (numberValue (toNumber (data "miktar"))) ++
   spreadIf (someNumber (toNumber (data "tutar")))
     (BASE_URI ++ js "/extensions/materialCost")
     (numberValue (toNumber (data "tutar"))) ++
   spreadIf (someNumber (toNumber (data "indirimlitutar")))
     (BASE_URI ++ js "/extensions/discountAmount")
     (numberValue (toNumber (data "indirimlitutar"))) ++
   spreadIf (truthy (data "arizakodu"))
     (BASE_URI ++ js "/extensions/faultCode")
     (JStr (normalizeFull (data "arizakodu"))))%list.

(** The Turkish name of the material, [object.definition.name["tr-TR"]]. *)
Definition materialName (data : Row) : jsval :=
  or_else (JStr (normalizeFull (data "malzeme_adi")))
          (JStr (js "bilinmeyen malzeme")).

(** The id of the work order, the parent activity of the context. *)
Definition workorderId (data : Row) : jsstring :=
  BASE_URI ++ js "/activities/workorder/" ++
  toString (or_else (JStr (normalizeFull (data "isemirno")))
                    (JStr (js "unknown"))).

(** The id of the service location, a grouping activity of the context. *)
Definition serviceLocationId (data : Row) : jsstring :=
  BASE_URI ++ js "/activities/service-location/" ++
  toString (or_else (JStr (normalizeFull (data "servis")))
                    (JStr (js "unknown"))).

End XApi.

(** ** The earlier statement builder *)

Module Legacy.

Import JS XApi.
Local Open Scope list_scope.
Local Open Scope N_scope.

(** [vehicleId] of the earlier script:
    [(data.arac || "").trim()] and then [split(" ")[0]], or ["UNKNOWN"].
    Only a string has a [trim] method: on any other truthy cell the call
    throws a TypeError, which [None] stands for. *)
Definition vehicleId (arac : jsval) : option jsstring :=
  match or_else arac (JStr []) with
  | JStr s =>
      let vehicleRaw := trim s in
      Some (if truthy (JStr vehicleRaw)
            then hd [] (split vehicleRaw 32)
            else UNKNOWN)
  | _ => None
  end.

End Legacy.

(** ** The question router, from its specification *)

Module Router.

Import JS XApi.
Local Open Scope string_scope.
Local Open Scope list_scope.
Local Open Scope N_scope.

(** Modelled from the spec: the twelve archetypes of [canonical_questions.py]
    (missing), listed in the fixed priority order of the tie-break rule. *)
Inductive QuestionType : Type :=
| MAINTENANCE_HISTORY | FAULT_ANALYSIS | MATERIAL_USAGE | COST_ANALYSIS
| VEHICLE_BASED | CUSTOMER_BASED | SERVICE_BASED | TIME_SERIES
| SEASONAL | TOP_ENTITIES | DISTRIBUTION | COMPARISON.

Definition PRIORITY : list QuestionType :=
  [MAINTENANCE_HISTORY; FAULT_ANALYSIS; MATERIAL_USAGE; COST_ANALYSIS;
   VEHICLE_BASED; CUSTOMER_BASED; SERVICE_BASED; TIME_SERIES;
   SEASONAL; TOP_ENTITIES; DISTRIBUTION; COMPARISON].

Definition qt_eqb (a b : QuestionType) : bool :=
  match a, b with
  | MAINTENANCE_HISTORY, MAINTENANCE_HISTORY | FAULT_ANALYSIS, FAULT_ANALYSIS
  | MATERIAL_USAGE, MATERIAL_USAGE | COST_ANALYSIS, COST_ANALYSIS
  | VEHICLE_BASED, VEHICLE_BASED | CUSTOMER_BASED, CUSTOMER_BASED
  | SERVICE_BASED, SERVICE_BASED | TIME_SERIES, TIME_SERIES
  | SEASONAL, SEASONAL | TOP_ENTITIES, TOP_ENTITIES
  | DISTRIBUTION, DISTRIBUTION | COMPARISON, COMPARISON => true
  | _, _ => false
  end.

(** Position of an archetype in [PRIORITY]; a smaller rank is preferred. *)
Fixpoint index_of (t : QuestionType) (l : list QuestionType) : nat :=
  match l with
  | [] => O
  | x :: r => if qt_eqb t x then O else S (index_of t r)
  end.

Definition priority_rank (t : QuestionType) : nat := index_of t PRIORITY.

Inductive Season : Type := winter | spring | summer | autumn.

(** Modelled from the spec: the data model of section 3 ([models.py] is
    missing).  Ordered sets are lists. *)
Record NormalizedText : Type := mkNormalizedText {
  raw : jsstring;
  tokens : list jsstring
}.

Record EntityBag : Type := mkEntityBag {
  years : list Z;
  months : list Z;
  seasons : list Season;
  vehicleIds : list jsstring;
  customerIds : list jsstring;
  serviceIds : list jsstring;
  vehicleTypes : list jsstring;
  manufacturers : list jsstring;
  faultCodes : list jsstring;
  materialKeywords : list jsstring;
  hasTopSignal : bool;
  topLimit : option Z;
  comparisonEntities : list jsstring
}.

Inductive EntityValue : Type :=
| VInt (z : Z)
| VStr (s : jsstring)
| VSeason (x : Season)
| VBool (b : bool).

Inductive FilterValue : Type :=
| FEq (v : EntityValue)
| FIn (vs : list EntityValue).

Record CanonicalQuestion : Type := mkCanonicalQuestion {
  qtype : QuestionType;
  triggers : list jsstring;
  requiredDimensions : list string;
  optionalDimensions : list string;
  metrics : list string;
  defaultSort : string;
  defaultFilters : list (string * FilterValue)
}.

Record MatchResult : Type := mkMatchResult {
  primaryQuestion : CanonicalQuestion;
  primaryScore : Q;
  runnerUp : option (CanonicalQuestion * Q)
}.

(** An absolute instant, as a UTC calendar date and time of day. *)
Record Instant : Type := mkInstant {
  i_year : Z; i_month : Z; i_day : Z; i_hour : Z; i_minute : Z
}.

(** Start inclusive, end exclusive. *)
Record TimeRange : Type := mkTimeRange {
  range_start : Instant;
  range_end : Instant
}.

Inductive Direction : Type := Ascending | Descending.

Record Sort : Type := mkSort { sort_key : string; sort_direction : Direction }.

Record QueryPlan : Type := mkQueryPlan {
  groupBy : list string;
  plan_metrics : list string;
  filters : list (string * FilterValue);
  timeRange : option TimeRange;
  sort : Sort;
  limit : option Z
}.

(** The typed outcomes of section 7.  A plan carries the matcher's score as
    its confidence field. *)
Inductive Outcome : Type :=
| Plan (p : QueryPlan) (confidence : Q)
| IncompletePlan (missing : list string)
| EmptyQuestion.

(** The catalogue holds at least one archetype; its iteration order is
    [cat_first :: cat_rest]. *)
Record Catalogue : Type := mkCatalogue {
  cat_first : CanonicalQuestion;
  cat_rest : list CanonicalQuestion
}.

Definition entries (c : Catalogue) : list CanonicalQuestion :=
  cat_first c :: cat_rest c.

(** One override rule of the refiner: a predicate and the archetype it
    forces. *)
Record Rule : Type := mkRule {
  applies : MatchResult -> EntityBag -> bool;
  forced : QuestionType
}.

(** Modelled from the spec: everything the router is handed at start-up.
    The spec names these parts and leaves their contents open: the
    stop-word list, the injectable current year, the extractor's patterns
    and dictionaries, the catalogue, the dimensions of the schema registry,
    which dimensions make an entity mandatory, the ordered refiner rules,
    how months and seasons narrow a one-year range, and the direction of a
    default sort. *)
Record Config : Type := mkConfig {
  stop_words : list jsstring;
  current_year : Z;
  extract : Z -> jsstring -> NormalizedText -> EntityBag;
  catalogue : Catalogue;
  schema_dimensions : list string;
  mandatory : string -> bool;
  rules : list Rule;
  narrow : TimeRange -> list Z -> list Season -> TimeRange;
  default_direction : Direction
}.

(** The same router over a catalogue iterated in another order. *)
Definition with_catalogue (cfg : Config) (c : Catalogue) : Config :=
  mkConfig (stop_words cfg) (current_year cfg) (extract cfg) c
           (schema_dimensions cfg) (mandatory cfg) (rules cfg) (narrow cfg)
           (default_direction cfg).

(** *** Normalizer *)

(** Maximal runs of code units that are not separators. *)
Fixpoint split_runs (sep : N -> bool) (cur s : jsstring) : list jsstring :=
  match s with
  | [] => match cur with [] => [] | _ => [rev cur] end
  | c :: t =>
      if sep c
      then match cur with
           | [] => split_runs sep [] t
           | _ => rev cur :: split_runs sep [] t
           end
      else split_runs sep (c :: cur) t
  end.

Definition words (s : jsstring) : list jsstring := split_runs (N.eqb 32) [] s.

Definition mem_str (w : jsstring) (l : list jsstring) : bool :=
  existsb (str_eqb w) l.

(** Modelled from the spec: [normalize] of [nlp_utils.py] (missing).  The
    folded string is the one [normalizeFull] computes, which the script
    keeps identical to the Python normaliser; the tokens are its words
    without the stop words. *)
Definition normalize (cfg : Config) (text : jsstring) : NormalizedText :=
  let folded := normalizeFull (JStr text) in
  mkNormalizedText folded
    (filter (fun w => negb (mem_str w (stop_words cfg))) (words folded)).

(** *** Intent matcher *)

(** Modelled from the spec: the scoring rule of the matcher.  A trigger is
    hit when all of its words occur among the tokens (co-occurrence, not
    adjacency); the score is the fraction of triggers hit. *)
Definition trigger_hit (toks : list jsstring) (trigger : jsstring) : bool :=
  forallb (fun w => mem_str w toks) (words trigger).

Definition score (nt : NormalizedText) (q : CanonicalQuestion) : Q :=
  let hits := List.length (filter (trigger_hit (tokens nt)) (triggers q)) in
  Qmake (Z.of_nat hits) (Pos.of_nat (List.length (triggers q))).

Definition nonempty {A : Type} (l : list A) : bool :=
  match l with [] => false | _ => true end.

(** Modelled from the spec: the entity type that corresponds to a
    dimension; whether the bag holds an entity for it. *)
Definition entity_present (bag : EntityBag) (dim : string) : bool :=
  if String.eqb dim "vehicleId" then nonempty (vehicleIds bag)
  else if String.eqb dim "customerId" then nonempty (customerIds bag)
  else if String.eqb dim "serviceLocation" then nonempty (serviceIds bag)
  else if String.eqb dim "vehicleType" then nonempty (vehicleTypes bag)
  else if String.eqb dim "manufacturer" then nonempty (manufacturers bag)
  else if String.eqb dim "faultCode" then nonempty (faultCodes bag)
  else if String.eqb dim "materialName" then nonempty (materialKeywords bag)
  else if String.eqb dim "year" then nonempty (years bag)
  else if String.eqb dim "month" then nonempty (months bag)
  else if String.eqb dim "season" then nonempty (seasons bag)
  else false.

(** Modelled from the spec: the failure mode of the synthesizer: the
    required dimensions whose mandatory entity was not extracted. *)
Definition missing_required (cfg : Config) (q : CanonicalQuestion)
    (bag : EntityBag) : list string :=
  filter (fun d => mandatory cfg d && negb (entity_present bag d))
         (requiredDimensions q).

(** Modelled from the spec: the feasibility check of the tie-break rule:
    the required dimensions of an archetype that the extracted entities do
    not satisfy.  An archetype is better satisfied when it leaves fewer of
    its required dimensions without an entity. *)
Definition unsatisfied (q : CanonicalQuestion) (bag : EntityBag) : list string :=
  filter (fun d => negb (entity_present bag d)) (requiredDimensions q).

Definition unsatisfied_count (q : CanonicalQuestion) (bag : EntityBag) : nat :=
  List.length (unsatisfied q bag).

(** Modelled from the spec: the tie-break rule.  [beats a b]: candidate [a]
    ranks strictly before candidate [b]: higher score, then fewer
    unsatisfied required dimensions, then earlier in [PRIORITY]. *)
Definition beats (nt : NormalizedText) (bag : EntityBag)
    (a b : CanonicalQuestion) : bool :=
  match Qcompare (score nt a) (score nt b) with
  | Gt => true
  | Lt => false
  | Eq =>
      match Nat.compare (unsatisfied_count a bag) (unsatisfied_count b bag) with
      | Lt => true
      | Gt => false
      | Eq => Nat.ltb (priority_rank (qtype a)) (priority_rank (qtype b))
      end
  end.

(** Modelled from the spec: one pass over the candidates in iteration
    order, keeping the best so far. *)
Fixpoint best (nt : NormalizedText) (bag : EntityBag)
    (cur : CanonicalQuestion) (l : list CanonicalQuestion) : CanonicalQuestion :=
  match l with
  | [] => cur
  | q :: t => best nt bag (if beats nt bag q cur then q else cur) t
  end.

(** Modelled from the spec: [match] of the intent matcher (the router's
    source is missing). *)
Definition match_intent (cfg : Config) (nt : NormalizedText)
    (bag : EntityBag) : MatchResult :=
  let c := catalogue cfg in
  let p := best nt bag (cat_first c) (cat_rest c) in
  let others := filter (fun q => negb (qt_eqb (qtype q) (qtype p))) (entries c) in
  mkMatchResult p (score nt p)
    match others with
    | [] => None
    | r :: rs => let u := best nt bag r rs in Some (u, score nt u)
    end.

(** *** Intent refiner *)

Definition find_type (c : Catalogue) (t : QuestionType) : option CanonicalQuestion :=
  find (fun q => qt_eqb (qtype q) t) (entries c).

(** Modelled from the spec: [refine]; the first rule that applies wins,
    otherwise the matcher's choice stands. *)
Definition refine (cfg : Config) (m : MatchResult) (bag : EntityBag)
    : CanonicalQuestion :=
  match find (fun r => applies r m bag) (rules cfg) with
  | Some r =>
      match find_type (catalogue cfg) (forced r) with
      | Some q => q
      | None => primaryQuestion m
      end
  | None => primaryQuestion m
  end.

(** *** Query plan synthesizer *)

Definition jan1 (y : Z) : Instant := mkInstant y 1 1 0 0.

(** Modelled from the spec: the time range of a plan.  The closed span of
    the extracted years, from 1 January 00:00 of the least year to
    1 January 00:00 of the year after the greatest; months and seasons
    narrow it only when exactly one year was extracted. *)
Definition time_range (cfg : Config) (bag : EntityBag) : option TimeRange :=
  match years bag with
  | [] => None
  | y :: ys =>
      let span := mkTimeRange (jan1 (fold_left Z.min ys y))
                              (jan1 (fold_left Z.max ys y + 1)) in
      match ys with
      | [] =>
          if nonempty (months bag) || nonempty (seasons bag)
          then Some (narrow cfg span (months bag) (seasons bag))
          else Some span
      | _ :: _ => Some span
      end
  end.

Definition entity_values (bag : EntityBag) (dim : string) : list EntityValue :=
  if String.eqb dim "vehicleId" then map VStr (vehicleIds bag)
  else if String.eqb dim "customerId" then map VStr (customerIds bag)
  else if String.eqb dim "serviceLocation" then map VStr (serviceIds bag)
  else if String.eqb dim "vehicleType" then map VStr (vehicleTypes bag)
  else if String.eqb dim "manufacturer" then map VStr (manufacturers bag)
  else if String.eqb dim "faultCode" then map VStr (faultCodes bag)
  else if String.eqb dim "materialName" then map VStr (materialKeywords bag)
  else if String.eqb dim "year" then map VInt (years bag)
  else if String.eqb dim "month" then map VInt (months bag)
  else if String.eqb dim "season" then map VSeason (seasons bag)
  else [].

(** Modelled from the spec: filter construction.  One filter per schema
    dimension that has an entity: equality for a single value, set
    membership for several. *)
Definition entity_filters (cfg : Config) (bag : EntityBag)
    : list (string * FilterValue) :=
  flat_map (fun d =>
              match entity_values bag d with
              | [] => []
              | [v] => [(d, FEq v)]
              | vs => [(d, FIn vs)]
              end)
           (schema_dimensions cfg).

(** Modelled from the spec: limit and sort.  A top signal limits the
    result to the extracted number or to ten, and sorts descending by the
    first metric, as does a comparison; otherwise the archetype's default
    sort applies and no limit is set. *)
Definition DEFAULT_TOP_LIMIT : Z := 10.

Definition plan_limit (bag : EntityBag) : option Z :=
  if hasTopSignal bag
  then Some (match topLimit bag with Some n => n | None => DEFAULT_TOP_LIMIT end)
  else None.

Definition plan_sort (cfg : Config) (q : CanonicalQuestion) (bag : EntityBag)
    : Sort :=
  if hasTopSignal bag || (2 <=? List.length (comparisonEntities bag))%nat
  then mkSort (hd (defaultSort q) (metrics q)) Descending
  else mkSort (defaultSort q) (default_direction cfg).

Inductive Synthesis : Type :=
| Synthesized (p : QueryPlan)
| Incomplete (missing : list string).

(** Modelled from the spec: [synthesize] of the query plan synthesizer (the
    router's source is missing). *)
Definition synthesize (cfg : Config) (q : CanonicalQuestion) (bag : EntityBag)
    : Synthesis :=
  match missing_required cfg q bag with
  | d :: ds => Incomplete (d :: ds)
  | [] =>
      Synthesized
        (mkQueryPlan
           (requiredDimensions q ++ filter (entity_present bag) (optionalDimensions q))
           (metrics q)
           (defaultFilters q ++ entity_filters cfg bag)
           (time_range cfg bag)
           (plan_sort cfg q bag)
           (plan_limit bag))
  end.

(** *** The pipeline *)

(** Modelled from the spec: [analyze] ([analyze_question] of the missing
    [advanced_intent_router.py]): normalizer, extractor, matcher, refiner,
    synthesizer; a question without tokens stops at [EmptyQuestion]. *)
Definition analyze (cfg : Config) (text : jsstring) : Outcome :=
  let nt := normalize cfg text in
  match tokens nt with
  | [] => EmptyQuestion
  | _ :: _ =>
      let bag := extract cfg (current_year cfg) text nt in
      let m := match_intent cfg nt bag in
      let q := refine cfg m bag in
      match synthesize cfg q bag with
      | Synthesized p => Plan p (primaryScore m)
      | Incomplete missing => IncompletePlan missing
      end
  end.

(** *** The catalogue of the README *)

Definition archetype (t : QuestionType) (trig : list string)
    (req opt mets : list string) (flt : list (string * FilterValue))
    : CanonicalQuestion :=
  mkCanonicalQuestion t (map js trig) req opt mets "count" flt.

Definition MAINTENANCE_HISTORY_QUESTION : CanonicalQuestion :=
  archetype MAINTENANCE_HISTORY
    ["gecmis"; "bakim gecmisi"; "servis gecmisi"; "bakim kaydi"; "son bakim"]
    ["vehicleId"] ["year"; "month"; "verbType"]
    ["count"; "sum_cost"; "avg_km"] [].

Definition COST_ANALYSIS_QUESTION : CanonicalQuestion :=
  archetype COST_ANALYSIS
    ["maliyet"; "harcama"; "tutar"; "para"; "toplam maliyet"; "bakim maliyeti"]
    [] ["vehicleType"; "manufacturer"; "year"; "month"; "serviceLocation"]
    ["count"; "sum_cost"; "avg_cost"] [].

Definition FAULT_ANALYSIS_QUESTION : CanonicalQuestion :=
  archetype FAULT_ANALYSIS
    ["ariza"; "fault"; "hata"; "sorun"; "ariza kodu"; "en sik ariza"]
    ["faultCode"] ["vehicleType"; "manufacturer"; "year"; "month"]
    ["count"; "sum_cost"] [("hasFault", FEq (VBool true))].

Definition CUSTOMER_BASED_QUESTION : CanonicalQuestion :=
  archetype CUSTOMER_BASED
    ["musteri"; "customer"; "firma"; "sirket"; "hangi musteriler"]
    ["customerId"] ["year"; "month"; "serviceLocation"]
    ["count"; "sum_cost"; "avg_cost"] [].

(** The twelve archetypes in the order the README lists them, with their
    trigger words in folded form (the form the tokens have). *)
Definition README_CATALOGUE : Catalogue :=
  mkCatalogue
    (archetype MATERIAL_USAGE
       ["malzeme"; "parca"; "kullanilan"; "malzeme kullanim"; "malzeme dagilim"]
       ["materialName"] ["vehicleType"; "manufacturer"; "year"; "month"]
       ["count"; "sum_quantity"; "sum_cost"] [])
    [COST_ANALYSIS_QUESTION;
     MAINTENANCE_HISTORY_QUESTION;
     FAULT_ANALYSIS_QUESTION;
     archetype VEHICLE_BASED
       ["arac"; "plaka"; "vehicle"; "kamyon"; "otobus"; "hangi araclar"; "arac bazinda"]
       ["vehicleId"] ["vehicleType"; "manufacturer"; "year"]
       ["count"; "sum_cost"; "avg_cost"] [];
     CUSTOMER_BASED_QUESTION;
     archetype SERVICE_BASED
       ["servis"; "lokasyon"; "location"; "sube"; "hangi servisler"]
       ["serviceLocation"] ["year"; "month"; "vehicleType"]
       ["count"; "sum_cost"; "avg_cost"] [];
     archetype TIME_SERIES
       ["trend"; "zaman"; "yillara"; "aylara"; "yillara gore"; "donem"]
       ["year"] ["month"; "vehicleType"; "manufacturer"]
       ["count"; "sum_cost"; "sum_quantity"] [];
     archetype SEASONAL
       ["mevsim"; "sezon"; "kis"; "yaz"; "bahar"; "sonbahar"]
       ["season"] ["year"; "vehicleType"]
       ["count"; "sum_cost"; "avg_cost"] [];
     archetype TOP_ENTITIES
       ["en cok"; "en fazla"; "en sik"; "top"; "ilk"; "en yuksek"]
       [] [] ["count"; "sum_cost"; "sum_quantity"] [];
     archetype DISTRIBUTION
       ["dagilim"; "distribution"; "dagiliyor"; "oran"; "yuzde"]
       [] [] ["count"; "sum_cost"] [];
     archetype COMPARISON
       ["karsilastir"; "compare"; "fark"; "ile"; "ve"; "arasinda"]
       [] [] ["count"; "sum_cost"; "avg_cost"] []].

Definition EMPTY_BAG : EntityBag :=
  mkEntityBag [] [] [] [] [] [] [] [] [] [] false None [].

(** A bag that holds one fault code and nothing else. *)
Definition FAULT_CODE_BAG : EntityBag :=
  mkEntityBag [] [] [] [] [] [] [] [] [js "p0420"] [] false None [].

(** A bag that holds one vehicle identifier and nothing else. *)
Definition VEHICLE_BAG : EntityBag :=
  mkEntityBag [] [] [] [js "70886"] [] [] [] [] [] [] false None [].

(** Narrowing to the span of the named months of the range's year; seasons
    are left alone.  One admissible reading of the narrowing rule, used in
    the examples. *)
Definition narrow_to_months (r : TimeRange) (ms : list Z) (_ : list Season)
    : TimeRange :=
  match ms with
  | [] => r
  | m :: rest =>
      let y := i_year (range_start r) in
      let lo := fold_left Z.min rest m in
      let hi := fold_left Z.max rest m in
      mkTimeRange (mkInstant y lo 1 0 0)
                  (if (hi =? 12)%Z then jan1 (y + 1) else mkInstant y (hi + 1) 1 0 0)
  end.

(** A router over the README catalogue whose extractor finds nothing. *)
Definition README_ROUTER : Config :=
  mkConfig [js "bir"; js "bu"; js "mi"] 2026
           (fun _ _ _ => EMPTY_BAG)
           README_CATALOGUE
           ["vehicleId"; "customerId"; "serviceLocation"; "vehicleType";
            "manufacturer"; "materialName"; "faultCode"; "year"; "month"; "season"]
           (fun d => String.eqb d "vehicleId" || String.eqb d "customerId")
           []
           narrow_to_months
           Descending.

End Router.

(** ** What the specification says of the normaliser *)

Module Spec.

Import JS XApi Router.
Local Open Scope N_scope.

(** Lower case of one character that lowers to one code unit. *)
Definition lower_char (c : N) : N := hd c (lower_unit c).

(** The Turkish letters folded to their base letters:
    ı to i, ş to s, ğ to g, ü to u, ö to o, ç to c. *)
Definition turkish_base (c : N) : N :=
  if c =? 305 then 105
  else if c =? 351 then 115
  else if c =? 287 then 103
  else if c =? 252 then 117
  else if c =? 246 then 111
  else if c =? 231 then 99
  else c.

Definition fold_char (c : N) : N := turkish_base (lower_char c).

Definition alnum (c : N) : bool := in_range 97 122 c || in_range 48 57 c.

(** What separates two words: anything but a lower-case letter or digit. *)
Definition separator (c : N) : bool := negb (alnum c).

(** Words joined by single spaces. *)
Fixpoint unwords (ws : list jsstring) : jsstring :=
  match ws with
  | [] => []
  | w :: rest =>
      match rest with
      | [] => w
      | _ :: _ => w ++ 32 :: unwords rest
      end
  end.

(** The normaliser in the words of the specification: fold and lower each
    character, then keep the runs of letters and digits, one space between
    two runs and none around. *)
Definition normalize_words (s : jsstring) : jsstring :=
  unwords (split_runs separator [] (map fold_char s)).

(** A word: a non-empty run of lower-case letters and digits. *)
Definition word (w : jsstring) : Prop :=
  w <> [] /\ Forall (fun c => alnum c = true) w.

(** The shape of a normalised string. *)
Definition starts_with_space (o : jsstring) : Prop := exists t, o = 32 :: t.
Definition ends_with_space (o : jsstring) : Prop := exists t, o = t ++ [32].
Definition has_double_space (o : jsstring) : Prop :=
  exists a b, o = a ++ 32 :: 32 :: b.

(** The code units a numeric string literal is written with: digits, the
    hexadecimal letters (among them [e], [E], [b], [B]), the signs, the
    period, the radix letters [x X o O] and the letters of [Infinity]. *)
Definition literal_unit (c : N) : bool :=
  is_digit c || in_range 97 102 c || in_range 65 70 c ||
  existsb (N.eqb c) [43; 45; 46; 120; 88; 111; 79; 73; 110; 105; 116; 121].

(** [n] contains [sub] as a substring. *)
Definition contains (n sub : jsstring) : Prop :=
  exists a b, n = a ++ sub ++ b.

Definition normal_form (o : jsstring) : Prop :=
  Forall (fun c => alnum c = true \/ c = 32) o /\
  ~ starts_with_space o /\ ~ ends_with_space o /\ ~ has_double_space o.

(** The composition of the twelve single-letter replacements of
    [normalizeFull], on one code unit. *)
Definition replaced_unit (c : N) : N :=
  c |> replaceUnit 305 105 |> replaceUnit 304 105
    |> replaceUnit 351 115 |> replaceUnit 350 115
    |> replaceUnit 287 103 |> replaceUnit 286 103
    |> replaceUnit 252 117 |> replaceUnit 220 117
    |> replaceUnit 246 111 |> replaceUnit 214 111
    |> replaceUnit 231 99 |> replaceUnit 199 99.

(** A letter or digit of the Basic Latin block, in either case. *)
Definition ascii_alnum (c : N) : bool := alnum c || in_range 65 90 c.

(** Two normalised strings put side by side, with one space between them
    when neither is empty. *)
Definition join_space (a b : jsstring) : jsstring :=
  match a, b with
  | [], _ => b
  | _, [] => a
  | _, _ => a ++ 32 :: b
  end.

(** The textual form of a version 4 UUID: in the template, [x] stands for a
    lower-case hexadecimal digit, [y] for one of 8, 9, a, b, and every
    other unit for itself. *)
Definition lower_hex (c : N) : bool := in_range 48 57 c || in_range 97 102 c.

Definition fits (t c : N) : bool :=
  if t =? 120 then lower_hex c
  else if t =? 121 then (c =? 56) || (c =? 57) || (c =? 97) || (c =? 98)
  else c =? t.

Fixpoint matches_template (t u : jsstring) : bool :=
  match t, u with
  | [], [] => true
  | x :: t', c :: u' => fits x c && matches_template t' u'
  | _, _ => false
  end.

Definition is_uuid_v4 (u : jsstring) : bool :=
  matches_template (js "xxxxxxxx-xxxx-4xxx-yxxx-xxxxxxxxxxxx") u.

(** The words of a text: what [normalizeFull] joins with spaces. *)
Definition word_list (s : jsstring) : list jsstring :=
  split_runs separator [] (map replaced_unit (toLowerCase s)).

(** [m * 10^e] and [m' * 10^e'] are the same number (the equation is
    cleared of negative powers of ten). *)
Definition same_value (m : N) (e : Z) (m' : N) (e' : Z) : Prop :=
  (Z.of_N m * 10 ^ (e - Z.min e e') = Z.of_N m' * 10 ^ (e' - Z.min e e'))%Z.

(** *** Numeric strings *)

(** The grammar [StrNumericLiteral] of ECMA-262, which says what a numeric
    string is: a decimal literal with an optional sign, or an unsigned
    hexadecimal, octal or binary integer literal. *)
Definition decimal_digit (c : N) : Prop := 48 <= c <= 57.

Definition hex_digit (c : N) : Prop :=
  48 <= c <= 57 \/ 97 <= c <= 102 \/ 65 <= c <= 70.

Definition octal_digit (c : N) : Prop := 48 <= c <= 55.

Definition binary_digit (c : N) : Prop := c = 48 \/ c = 49.

(** One digit or more. *)
Definition digits_of (digit : N -> Prop) (d : jsstring) : Prop :=
  d <> [] /\ Forall digit d.

(** An optional part. *)
Definition opt (part : jsstring -> Prop) (s : jsstring) : Prop :=
  s = [] \/ part s.

Inductive signed_integer : jsstring -> Prop :=
| signed_none (d : jsstring) :
    digits_of decimal_digit d -> signed_integer d
| signed_plus (d : jsstring) :
    digits_of decimal_digit d -> signed_integer (43 :: d)
| signed_minus (d : jsstring) :
    digits_of decimal_digit d -> signed_integer (45 :: d).

(** [e] or [E] and a signed integer. *)
Inductive exponent_part : jsstring -> Prop :=
| exponent_lower (s : jsstring) : signed_integer s -> exponent_part (101 :: s)
| exponent_upper (s : jsstring) : signed_integer s -> exponent_part (69 :: s).

Inductive unsigned_decimal : jsstring -> Prop :=
| decimal_infinity : unsigned_decimal (js "Infinity")
| decimal_point (ip fp ex : jsstring) :
    digits_of decimal_digit ip -> opt (digits_of decimal_digit) fp ->
    opt exponent_part ex ->
    unsigned_decimal (ip ++ 46 :: fp ++ ex)
| decimal_fraction (fp ex : jsstring) :
    digits_of decimal_digit fp -> opt exponent_part ex ->
    unsigned_decimal (46 :: fp ++ ex)
| decimal_integer (ip ex : jsstring) :
    digits_of decimal_digit ip -> opt exponent_part ex ->
    unsigned_decimal (ip ++ ex).

Inductive numeric_literal : jsstring -> Prop :=
| literal_unsigned (s : jsstring) :
    unsigned_decimal s -> numeric_literal s
| literal_plus (s : jsstring) :
    unsigned_decimal s -> numeric_literal (43 :: s)
| literal_minus (s : jsstring) :
    unsigned_decimal s -> numeric_literal (45 :: s)
| literal_hex (x : N) (d : jsstring) :
    x = 120 \/ x = 88 -> digits_of hex_digit d ->
    numeric_literal (48 :: x :: d)
| literal_octal (x : N) (d : jsstring) :
    x = 111 \/ x = 79 -> digits_of octal_digit d ->
    numeric_literal (48 :: x :: d)
| literal_binary (x : N) (d : jsstring) :
    x = 98 \/ x = 66 -> digits_of binary_digit d ->
    numeric_literal (48 :: x :: d).

(** What [toNumber] reads in a string: the text without the white space
    around it, its first comma taken for a period. *)
Definition number_text (s : jsstring) : jsstring :=
  replaceFirstUnit 44 46 (trim s).

(** *** The tie-break rule, in the words of the specification *)

(** The fixed priority ordering as section 4.3 lists it. *)
Definition PRIORITY_ORDER : list QuestionType :=
  [MAINTENANCE_HISTORY; FAULT_ANALYSIS; MATERIAL_USAGE; COST_ANALYSIS;
   VEHICLE_BASED; CUSTOMER_BASED; SERVICE_BASED; TIME_SERIES;
   SEASONAL; TOP_ENTITIES; DISTRIBUTION; COMPARISON].

(** [a] appears earlier than [b] in the priority ordering. *)
Definition listed_before (a b : QuestionType) : Prop :=
  exists i j, nth_error PRIORITY_ORDER i = Some a /\
              nth_error PRIORITY_ORDER j = Some b /\ (i < j)%nat.

(** An already-extracted entity satisfies the dimension: the field of the
    bag that corresponds to it is not empty. *)
Definition satisfied (bag : EntityBag) (dim : string) : Prop :=
  (dim = "vehicleId"%string /\ vehicleIds bag <> []) \/
  (dim = "customerId"%string /\ customerIds bag <> []) \/
  (dim = "serviceLocation"%string /\ serviceIds bag <> []) \/
  (dim = "vehicleType"%string /\ vehicleTypes bag <> []) \/
  (dim = "manufacturer"%string /\ manufacturers bag <> []) \/
  (dim = "faultCode"%string /\ faultCodes bag <> []) \/
  (dim = "materialName"%string /\ materialKeywords bag <> []) \/
  (dim = "year"%string /\ years bag <> []) \/
  (dim = "month"%string /\ months bag <> []) \/
  (dim = "season"%string /\ seasons bag <> []).

(** [unsatisfied_in bag dims n]: exactly [n] of the dimensions [dims] are
    not satisfied by the bag. *)
Inductive unsatisfied_in (bag : EntityBag) : list string -> nat -> Prop :=
| unsatisfied_nil : unsatisfied_in bag [] 0
| unsatisfied_skip (d : string) (ds : list string) (n : nat) :
    satisfied bag d -> unsatisfied_in bag ds n ->
    unsatisfied_in bag (d :: ds) n
| unsatisfied_more (d : string) (ds : list string) (n : nat) :
    ~ satisfied bag d -> unsatisfied_in bag ds n ->
    unsatisfied_in bag (d :: ds) (S n).

(** The two tie-breaks: the required dimensions of [a] are better satisfied
    than those of [b] (fewer of them are left without an entity), or they
    are satisfied alike and [a] is listed earlier. *)
Definition preferred (bag : EntityBag) (a b : CanonicalQuestion) : Prop :=
  exists na nb,
    unsatisfied_in bag (requiredDimensions a) na /\
    unsatisfied_in bag (requiredDimensions b) nb /\
    ((na < nb)%nat \/ (na = nb /\ listed_before (qtype a) (qtype b))).

(** [a] ranks before [b]: a higher trigger score, or the same score and
    the tie-breaks in favour of [a]. *)
Definition ranks_before (nt : NormalizedText) (bag : EntityBag)
    (a b : CanonicalQuestion) : Prop :=
  (score nt b < score nt a)%Q \/
  ((score nt b == score nt a)%Q /\ preferred bag a b).

End Spec.

Import JS XApi Router Spec.
Open Scope string_scope.
Open Scope list_scope.
Open Scope N_scope.

(** ** Facts about the built-ins *)

Section Trim.

Lemma dropWhile_app (p : N -> bool) (l m : jsstring) :
  dropWhile p (l ++ m) =
  match dropWhile p l with
  | [] => dropWhile p m
  | r => r ++ m
  end.
Proof.
  induction l as [|c l IH]; simpl; [now destruct (dropWhile p m)|].
  destruct (p c); [exact IH | reflexivity].
Qed.

Lemma trimEnd_cons (c : N) (x : jsstring) :
  trimEnd (c :: x) =
  match trimEnd x with
  | [] => if is_space c then [] else [c]
  | y => c :: y
  end.
Proof.
  unfold trimEnd. simpl rev. rewrite dropWhile_app.
  destruct (dropWhile is_space (rev x)) as [|d r] eqn:E.
  - simpl. now destruct (is_space c).
  - rewrite rev_app_distr.
    remember (rev (d :: r)) as y eqn:E2.
    destruct y; [|reflexivity].
    apply (f_equal (@List.length N)) in E2. rewrite length_rev in E2. discriminate.
Qed.

Lemma trimEnd_cons_unit (c : N) (x : jsstring) :
  is_space c = false -> trimEnd (c :: x) = c :: trimEnd x.
Proof.
  intros H. rewrite trimEnd_cons, H. now destruct (trimEnd x).
Qed.

Lemma collapseFrom_true_head (s : jsstring) :
  trimStart (collapseFrom true s) = collapseFrom true s.
Proof.
  unfold trimStart.
  induction s as [|c s IH]; simpl; [reflexivity|].
  destruct (is_space c) eqn:E; [exact IH|].
  simpl. now rewrite E.
Qed.

End Trim.

(** ** Collapsing and trimming keeps the words *)

Section Words.

Variable sep : N -> bool.

Lemma split_runs_nonempty (s cur : jsstring) :
  Forall (fun w => w <> []) (split_runs sep cur s).
Proof.
  revert cur. induction s as [|c s IH]; intros cur; simpl.
  - destruct cur as [|d cur]; constructor; [|constructor].
    intros E. apply (f_equal (@List.length N)) in E.
    rewrite length_rev in E. discriminate.
  - destruct (sep c); [|apply IH].
    destruct cur as [|d cur]; [apply IH|].
    constructor; [|apply IH].
    intros E. apply (f_equal (@List.length N)) in E.
    rewrite length_rev in E. discriminate.
Qed.

Lemma unwords_nil_inv (ws : list jsstring) :
  Forall (fun w => w <> []) ws -> unwords ws = [] -> ws = [].
Proof.
  intros H E. destruct ws as [|w rest]; [reflexivity|].
  inversion H as [|? ? Hw _]; subst. simpl in E.
  destruct rest; [contradiction|].
  destruct w; [contradiction | discriminate].
Qed.

Lemma unwords_cons (w : jsstring) (rest : list jsstring) :
  Forall (fun w => w <> []) rest ->
  unwords (w :: rest) =
  w ++ match unwords rest with [] => [] | y => 32 :: y end.
Proof.
  intros H. simpl. destruct rest as [|w' rest'].
  - simpl. now rewrite app_nil_r.
  - destruct (unwords (w' :: rest')) eqn:E; [|reflexivity].
    apply unwords_nil_inv in E; [discriminate | exact H].
Qed.

End Words.

Lemma collapse_words (s : jsstring) :
  (forall cur, cur <> [] ->
     unwords (split_runs is_space cur s) =
     rev cur ++ trimEnd (collapseFrom false s)) /\
  trimEnd (collapseFrom true s) = unwords (split_runs is_space [] s).
Proof.
  induction s as [|c s [IHa IHc]]; split.
  - intros cur Hc. simpl. destruct cur; [contradiction|].
    now rewrite app_nil_r.
  - reflexivity.
  - intros cur Hc. simpl. destruct (is_space c) eqn:E.
    + destruct cur as [|d cur]; [contradiction|].
      rewrite unwords_cons by apply split_runs_nonempty.
      rewrite trimEnd_cons, <- IHc.
      simpl is_space. now destruct (trimEnd (collapseFrom true s)).
    + rewrite IHa by discriminate.
      rewrite (trimEnd_cons_unit _ _ E). simpl rev.
      now rewrite <- app_assoc.
  - simpl. destruct (is_space c) eqn:E; [exact IHc|].
    rewrite (trimEnd_cons_unit _ _ E).
    now rewrite IHa by discriminate.
Qed.

(** [trim] after [collapseSpaces] is the words of the string, joined by
    single spaces. *)
Lemma trim_collapse (s : jsstring) :
  trim (collapseSpaces s) = unwords (split_runs is_space [] s).
Proof.
  unfold trim, collapseSpaces.
  destruct s as [|c s]; [reflexivity|].
  simpl. destruct (is_space c) eqn:E.
  - unfold trimStart at 1. simpl.
    fold (trimStart (collapseFrom true s)).
    rewrite collapseFrom_true_head.
    apply (proj2 (collapse_words s)).
  - unfold trimStart. simpl. rewrite E.
    rewrite (trimEnd_cons_unit _ _ E).
    now rewrite (proj1 (collapse_words s)) by discriminate.
Qed.

(** ** Code units, one at a time *)

Ltac cmp_to_prop H :=
  rewrite ?orb_true_iff, ?andb_true_iff, ?orb_false_iff, ?andb_false_iff,
          ?negb_true_iff, ?negb_false_iff,
          ?N.leb_le, ?N.leb_gt, ?N.eqb_eq, ?N.eqb_neq in H.

Ltac decide_cmp :=
  repeat match goal with
  | |- context [N.leb ?a ?b] =>
      first [ replace (N.leb a b) with true by (symmetry; apply N.leb_le; lia)
            | replace (N.leb a b) with false by (symmetry; apply N.leb_gt; lia) ]
  | |- context [N.eqb ?a ?b] =>
      first [ replace (N.eqb a b) with true by (symmetry; apply N.eqb_eq; lia)
            | replace (N.eqb a b) with false by (symmetry; apply N.eqb_neq; lia) ]
  end.

Lemma alnum_cases (c : N) :
  alnum c = true <-> (97 <= c <= 122) \/ (48 <= c <= 57).
Proof.
  unfold alnum, in_range.
  rewrite orb_true_iff, !andb_true_iff, !N.leb_le. tauto.
Qed.

Lemma alnum_not_space (c : N) : alnum c = true -> is_space c = false.
Proof.
  intros H. apply alnum_cases in H.
  unfold is_space, in_range. destruct H; decide_cmp; reflexivity.
Qed.

Lemma plain_unit_alnum (c : N) : plain_unit c = alnum c || (c =? 32).
Proof. reflexivity. Qed.

Lemma alnum_lower (c : N) : alnum c = true -> lower_unit c = [c].
Proof.
  intros H. apply alnum_cases in H.
  unfold lower_unit, in_range. destruct H; decide_cmp; reflexivity.
Qed.

Lemma replaceUnit_other (x y c : N) : c <> x -> replaceUnit x y c = c.
Proof.
  intros H. unfold replaceUnit. now apply N.eqb_neq in H as ->.
Qed.

Ltac skip_replacements :=
  unfold replaced_unit;
  repeat match goal with
  | |- context [replaceUnit ?x ?y ?c] =>
      rewrite (replaceUnit_other x y c) by lia
  end.

Lemma alnum_replaced (c : N) : alnum c = true -> replaced_unit c = c.
Proof.
  intros H. apply alnum_cases in H.
  destruct H; now skip_replacements.
Qed.

Lemma space_lower (c : N) : is_space c = true -> lower_unit c = [c].
Proof.
  unfold is_space, in_range. intros H. cmp_to_prop H.
  unfold lower_unit, in_range.
  repeat (destruct H as [H|H]); decide_cmp; reflexivity.
Qed.

Lemma space_replaced (c : N) :
  is_space c = true -> alnum (replaced_unit c) = false.
Proof.
  unfold is_space, in_range. intros H. cmp_to_prop H.
  repeat (destruct H as [H|H]); skip_replacements;
    unfold alnum, in_range; decide_cmp; reflexivity.
Qed.

(** The unit written by the class replacement is white space exactly when
    the unit read is no letter or digit. *)
Lemma masked_unit (x : N) :
  let m := if plain_unit x then x else 32 in
  is_space m = negb (alnum x) /\ (alnum x = true -> m = x).
Proof.
  simpl. rewrite plain_unit_alnum.
  destruct (alnum x) eqn:A; simpl.
  - split; [now apply alnum_not_space | reflexivity].
  - split; [|discriminate].
    destruct (N.eqb_spec x 32); [subst|]; reflexivity.
Qed.

Lemma split_masked (f : N -> N) (l cur : jsstring) :
  split_runs is_space cur
    (map (fun c => if plain_unit (f c) then f c else 32) l) =
  split_runs separator cur (map f l).
Proof.
  revert cur. induction l as [|c l IH]; intros cur; [reflexivity|].
  simpl. destruct (masked_unit (f c)) as [E1 E2]. simpl in E1, E2.
  rewrite E1. unfold separator at 1. destruct (alnum (f c)) eqn:A; simpl.
  - rewrite (E2 eq_refl). apply IH.
  - destruct cur; now rewrite IH.
Qed.

(** ** [normalizeFull] computes the words of the folded text *)

Lemma normalizeFull_runs (s : jsstring) :
  normalizeFull (JStr s) =
  unwords (split_runs separator []
             (map replaced_unit (toLowerCase s))).
Proof.
  destruct s as [|c s]; [reflexivity|].
  unfold normalizeFull.
  change (negb (truthy (JStr (c :: s)))) with false. cbv iota.
  change (toString (JStr (c :: s))) with (c :: s).
  unfold replaceAllUnit, replaceOutside. rewrite !map_map.
  rewrite trim_collapse. apply (f_equal unwords).
  exact (split_masked replaced_unit (toLowerCase (c :: s)) []).
Qed.

(** ** Lower case, one unit at a time *)

(** Every character but U+0130 lowers to a single code unit. *)
Lemma lower_unit_single (c : N) : c <> 304 -> lower_unit c = [lower_char c].
Proof.
  intros H. unfold lower_char, lower_unit.
  apply N.eqb_neq in H. rewrite H.
  repeat match goal with
         | |- context [if ?b then _ else _] => destruct b
         end; reflexivity.
Qed.

Lemma toLowerCase_map (s : jsstring) :
  ~ In 304 s -> toLowerCase s = map lower_char s.
Proof.
  unfold toLowerCase. induction s as [|c s IH]; intros H; [reflexivity|].
  simpl. rewrite lower_unit_single, IH; [reflexivity | |];
    intros E; apply H; [now right | now left].
Qed.

(** No upper-case Turkish letter survives lowering, so on lowered text the
    twelve replacements of the code amount to the six of the specification. *)
Lemma lowered_no_upper (c : N) :
  c <> 304 ->
  let d := lower_char c in
  d <> 304 /\ d <> 350 /\ d <> 286 /\ d <> 220 /\ d <> 214 /\ d <> 199.
Proof.
  intros H. unfold lower_char, lower_unit, in_range.
  repeat match goal with
         | |- context [if ?b then _ else _] =>
             let E := fresh "E" in destruct b eqn:E
         end; simpl hd;
    repeat split; intros Q;
    repeat match goal with
           | E : _ = true |- _ => cmp_to_prop E
           | E : _ = false |- _ => cmp_to_prop E
           end;
    try lia;
    match goal with
    | Q : c + ?n = ?k |- _ => assert (c = k - n) by lia; subst c
    | Q : c = ?k |- _ => subst c
    | _ => idtac
    end; try lia; try (vm_compute in *; intuition congruence).
Qed.

(** ** The words of a normalised string *)

Lemma split_runs_words (s cur : jsstring) :
  Forall (fun c => alnum c = true) cur ->
  Forall word (split_runs separator cur s).
Proof.
  revert cur. induction s as [|c s IH]; intros cur Hc; simpl.
  - destruct cur as [|d cur]; constructor; [|constructor].
    split; [|now apply Forall_rev].
    intros E. apply (f_equal (@List.length N)) in E.
    rewrite length_rev in E. discriminate.
  - unfold separator at 1. destruct (alnum c) eqn:A; simpl.
    + apply IH. now constructor.
    + destruct cur as [|d cur]; [now apply IH|].
      constructor; [|apply IH; constructor].
      split; [|now apply Forall_rev].
      intros E. apply (f_equal (@List.length N)) in E.
      rewrite length_rev in E. discriminate.
Qed.

Lemma split_runs_app (w t cur : jsstring) :
  Forall (fun c => alnum c = true) w ->
  split_runs separator cur (w ++ t) = split_runs separator (rev w ++ cur) t.
Proof.
  revert cur. induction w as [|c w IH]; intros cur H; [reflexivity|].
  inversion H as [|? ? Hc Hw]; subst. simpl.
  unfold separator at 1. rewrite Hc. simpl.
  rewrite IH by assumption. now rewrite <- app_assoc.
Qed.

Lemma split_unwords (ws : list jsstring) :
  Forall word ws -> split_runs separator [] (unwords ws) = ws.
Proof.
  induction ws as [|w rest IH]; intros H; [reflexivity|].
  inversion H as [|? ? [Hn Hw] Hrest]; subst.
  assert (Hr : rev w <> []).
  { intros E. apply Hn. apply (f_equal (@rev N)) in E.
    now rewrite rev_involutive in E. }
  simpl. destruct rest as [|w' rest'].
  - rewrite <- (app_nil_r w) at 1. rewrite split_runs_app by assumption.
    rewrite app_nil_r. simpl.
    destruct (rev w) eqn:E; [contradiction|].
    now rewrite <- E, rev_involutive.
  - rewrite split_runs_app by assumption. rewrite app_nil_r.
    change (split_runs separator (rev w) (32 :: unwords (w' :: rest')))
      with (match rev w with
            | [] => split_runs separator [] (unwords (w' :: rest'))
            | _ => rev (rev w) :: split_runs separator [] (unwords (w' :: rest'))
            end).
    destruct (rev w) eqn:E; [contradiction|].
    now rewrite <- E, rev_involutive, IH.
Qed.

Lemma unwords_units (ws : list jsstring) :
  Forall word ws ->
  Forall (fun c => alnum c = true \/ c = 32) (unwords ws).
Proof.
  induction ws as [|w rest IH]; intros H; [constructor|].
  inversion H as [|? ? [_ Hw] Hrest]; subst.
  assert (Forall (fun c => alnum c = true \/ c = 32) w)
    by (eapply Forall_impl; [|exact Hw]; now left).
  simpl. destruct rest; [assumption|].
  apply Forall_app. split; [assumption|].
  constructor; [now right | now apply IH].
Qed.

Lemma unwords_head (ws : list jsstring) :
  Forall word ws -> ~ starts_with_space (unwords ws).
Proof.
  intros H [t E]. destruct ws as [|w rest]; [discriminate|].
  inversion H as [|? ? [Hn Hw] _]; subst.
  destruct w as [|c w]; [contradiction|].
  inversion Hw as [|? ? Hc _]; subst.
  assert (c = 32) by (simpl in E; destruct rest; now inversion E).
  subst. discriminate.
Qed.

Lemma word_no_space (w a b : jsstring) :
  Forall (fun c => alnum c = true) w -> w <> a ++ 32 :: b.
Proof.
  intros H E. rewrite Forall_forall in H.
  specialize (H 32). rewrite E in H.
  discriminate H. apply in_elt.
Qed.

Lemma unwords_last (ws : list jsstring) :
  Forall word ws -> ~ ends_with_space (unwords ws).
Proof.
  induction ws as [|w rest IH]; intros H [t E].
  - now destruct t.
  - inversion H as [|? ? [Hn Hw] Hrest]; subst.
    simpl in E. destruct rest as [|w' rest'].
    + now apply (word_no_space w t []) in Hw.
    + destruct (exists_last (l := unwords (w' :: rest'))) as [r [z Ez]].
      { intros E0. apply unwords_nil_inv in E0; [discriminate|].
        eapply Forall_impl; [|exact Hrest]. now intros ? []. }
      rewrite Ez in E.
      change (w ++ 32 :: r ++ [z]) with (w ++ (32 :: r) ++ [z]) in E.
      rewrite app_assoc in E. apply app_inj_tail in E as [_ ->].
      apply (IH Hrest). now exists r.
Qed.

Lemma unwords_single_spaced (ws : list jsstring) :
  Forall word ws -> ~ has_double_space (unwords ws).
Proof.
  induction ws as [|w rest IH]; intros H [a [b E]].
  - now destruct a.
  - inversion H as [|? ? [Hn Hw] Hrest]; subst.
    simpl in E. destruct rest as [|w' rest'].
    + now apply (word_no_space w a (32 :: b)) in Hw.
    + clear Hn H. revert a E.
      induction w as [|c w IHw]; intros a E.
      * destruct a as [|x a]; simpl in E; inversion E as [[E1]].
        -- apply (unwords_head _ Hrest). now exists b.
        -- apply (IH Hrest). now exists a, b.
      * inversion Hw as [|? ? Hc Hw']; subst.
        destruct a as [|x a]; simpl in E; inversion E; subst.
        -- discriminate.
        -- now apply (IHw Hw' a).
Qed.

Lemma unwords_normal_form (ws : list jsstring) :
  Forall word ws -> normal_form (unwords ws).
Proof.
  intros H. repeat split.
  - now apply unwords_units.
  - now apply unwords_head.
  - now apply unwords_last.
  - now apply unwords_single_spaced.
Qed.

Lemma plain_lower (o : jsstring) :
  Forall (fun c => alnum c = true \/ c = 32) o -> toLowerCase o = o.
Proof.
  unfold toLowerCase. induction 1 as [|c o [Hc| ->] _ IH]; simpl.
  - reflexivity.
  - now rewrite alnum_lower, IH.
  - now rewrite IH.
Qed.

Lemma plain_replaced (o : jsstring) :
  Forall (fun c => alnum c = true \/ c = 32) o -> map replaced_unit o = o.
Proof.
  induction 1 as [|c o [Hc| ->] _ IH]; simpl.
  - reflexivity.
  - now rewrite alnum_replaced, IH.
  - now rewrite IH.
Qed.

(** [normalizeFull] goes through [String(text)] unless [text] is falsy. *)
Lemma normalizeFull_toString (v : jsval) :
  normalizeFull v =
  if truthy v then normalizeFull (JStr (toString v)) else [].
Proof.
  destruct (truthy v) eqn:T; unfold normalizeFull; rewrite T; [|reflexivity].
  simpl negb. cbv iota. destruct (toString v) as [|c s] eqn:E; reflexivity.
Qed.

(** Every result of [normalizeFull] is a sequence of words. *)
Lemma normalizeFull_words (v : jsval) :
  exists ws, Forall word ws /\ normalizeFull v = unwords ws.
Proof.
  rewrite normalizeFull_toString. destruct (truthy v).
  - eexists. split; [|apply normalizeFull_runs].
    apply split_runs_words. constructor.
  - exists []. now split.
Qed.

Lemma replaced_turkish (d : N) :
  d <> 304 -> d <> 350 -> d <> 286 -> d <> 220 -> d <> 214 -> d <> 199 ->
  replaced_unit d = turkish_base d.
Proof.
  intros U1 U2 U3 U4 U5 U6. unfold replaced_unit, turkish_base.
  destruct (N.eqb_spec d 305) as [->|L1]; [reflexivity|].
  rewrite (replaceUnit_other 305 105 d L1), (replaceUnit_other 304 105 d U1).
  destruct (N.eqb_spec d 351) as [->|L2]; [reflexivity|].
  rewrite (replaceUnit_other 351 115 d L2), (replaceUnit_other 350 115 d U2).
  destruct (N.eqb_spec d 287) as [->|L3]; [reflexivity|].
  rewrite (replaceUnit_other 287 103 d L3), (replaceUnit_other 286 103 d U3).
  destruct (N.eqb_spec d 252) as [->|L4]; [reflexivity|].
  rewrite (replaceUnit_other 252 117 d L4), (replaceUnit_other 220 117 d U4).
  destruct (N.eqb_spec d 246) as [->|L5]; [reflexivity|].
  rewrite (replaceUnit_other 246 111 d L5), (replaceUnit_other 214 111 d U5).
  destruct (N.eqb_spec d 231) as [->|L6]; [reflexivity|].
  now rewrite (replaceUnit_other 231 99 d L6), (replaceUnit_other 199 99 d U6).
Qed.

(** ** The claims about [normalizeFull] *)

(** C1, as stated, fails: a capital dotted I (U+0130) followed by more text
    does not normalise like a plain [i], because lowering it first leaves a
    combining dot that becomes a space; and a diacritic outside the six
    Turkish letters (here e with acute, U+00E9) is not folded to its base
    letter but dropped as a separator. *)
Lemma normalizeFull_dotted_I_counterexample :
  normalizeFull (JStr (304 :: js "stanbul")) <>
    normalizeFull (JStr (105 :: js "stanbul")) /\
  normalizeFull (JStr (304 :: js "stanbul")) = js "i stanbul" /\
  normalizeFull (JStr (js "caf" ++ [233])) <> js "cafe".
Proof.
  repeat split; vm_compute; congruence.
Qed.

(** C1, amended: on every input string without a capital dotted I,
    [normalizeFull] lowers each character, folds the Turkish letters
    ı ş ğ ü ö ç to i s g u o c, and returns the runs of letters and digits
    of the result, joined by single spaces with none in front or behind;
    every other character, other diacritics included, only separates. *)
Theorem normalizeFull_folds (s : jsstring) :
  ~ In 304 s -> normalizeFull (JStr s) = normalize_words s.
Proof.
  intros H. rewrite normalizeFull_runs, (toLowerCase_map s H).
  unfold normalize_words. do 2 f_equal.
  rewrite map_map. apply map_ext_in. intros c Hc.
  assert (Hn : c <> 304) by (intros ->; contradiction).
  destruct (lowered_no_upper c Hn) as (U1 & U2 & U3 & U4 & U5 & U6).
  now apply replaced_turkish.
Qed.

Lemma normalizeFull_folds_witness :
  let s := js "  " ++ [350] ++ js "OF" ++ [214] ++ js "R, " ++ [199]
           ++ js "a" ++ [287] ++ js "r" ++ [305] ++ js " (2023)! " in
  ~ In 304 s /\ normalizeFull (JStr s) = normalize_words s.
Proof.
  assert (H : ~ In 304 (js "  " ++ [350] ++ js "OF" ++ [214] ++ js "R, "
                        ++ [199] ++ js "a" ++ [287] ++ js "r" ++ [305]
                        ++ js " (2023)! "))
    by (vm_compute; intuition discriminate).
  split; [exact H | exact (normalizeFull_folds _ H)].
Defined.

Example normalizeFull_turkish_sample :
  normalizeFull (JStr (js "  " ++ [350] ++ js "OF" ++ [214] ++ js "R, "
                       ++ [199] ++ js "a" ++ [287] ++ js "r" ++ [305]
                       ++ js " (2023)! "))
  = js "sofor cagri 2023".
Proof. reflexivity. Qed.

(** C2: normalising a normalised text changes nothing. *)
Theorem normalizeFull_idempotent (x : jsval) :
  normalizeFull (JStr (normalizeFull x)) = normalizeFull x.
Proof.
  destruct (normalizeFull_words x) as [ws [Hw ->]].
  rewrite normalizeFull_runs.
  rewrite plain_lower, plain_replaced by now apply unwords_units.
  now rewrite split_unwords.
Qed.

(** C8: whatever its input, [normalizeFull] returns a string of lower-case
    letters, digits and spaces that neither starts nor ends with a space
    and has no two spaces in a row; [null], [undefined] and the empty
    string give the empty string.  The function is total. *)
Theorem normalizeFull_normal_form (text : jsval) :
  normal_form (normalizeFull text) /\
  normalizeFull JNull = [] /\
  normalizeFull JUndefined = [] /\
  normalizeFull (JStr []) = [].
Proof.
  split; [|now repeat split].
  destruct (normalizeFull_words text) as [ws [Hw ->]].
  now apply unwords_normal_form.
Qed.

(** ** [getVerb] *)

Lemma startsWith_spec (sub s : jsstring) :
  startsWith sub s = true <-> exists b, s = sub ++ b.
Proof.
  revert s. induction sub as [|x sub IH]; intros s; simpl.
  - split; [now exists s | reflexivity].
  - destruct s as [|c s].
    + split; [discriminate | now intros [b E]].
    + rewrite andb_true_iff, N.eqb_eq, IH. split.
      * intros [-> [b ->]]. now exists b.
      * intros [b E]. inversion E; subst. split; [reflexivity | now exists b].
Qed.

Lemma includes_spec (n sub : jsstring) :
  includes n sub = true <-> contains n sub.
Proof.
  unfold contains. induction n as [|c n IH].
  - simpl. rewrite orb_false_r, startsWith_spec. split.
    + intros [b E]. now exists [], b.
    + intros [a [b E]]. destruct a; [now exists b|discriminate].
  - simpl. rewrite orb_true_iff, startsWith_spec, IH. split.
    + intros [[b E]|[a [b E]]].
      * now exists [], b.
      * exists (c :: a), b. now rewrite E.
    + intros [a [b E]]. destruct a as [|x a].
      * left. now exists b.
      * right. inversion E; subst. now exists a, b.
Qed.

Lemma includes_false (n sub : jsstring) :
  ~ contains n sub -> includes n sub = false.
Proof.
  intros H. destruct (includes n sub) eqn:E; [|reflexivity].
  now apply includes_spec in E.
Qed.



(** ** [Number] accepts numeric literals only *)

Lemma str_eqb_eq (a b : jsstring) : str_eqb a b = true -> a = b.
Proof.
  revert b. induction a as [|x a IH]; intros [|y b]; simpl; try discriminate.
  - reflexivity.
  - rewrite andb_true_iff, N.eqb_eq. intros [-> H]. now rewrite (IH b H).
Qed.

Lemma digit_literal (c : N) : is_digit c = true -> literal_unit c = true.
Proof. intros H. unfold literal_unit. now rewrite H. Qed.

Lemma span_digits_spec (s d r : jsstring) :
  span_digits s = (d, r) ->
  s = d ++ r /\ Forall (fun c => literal_unit c = true) d.
Proof.
  revert d r. induction s as [|c s IH]; intros d r; simpl.
  - intros E. inversion E. now split.
  - destruct (is_digit c) eqn:D.
    + destruct (span_digits s) as [d' r'] eqn:E'. intros E. inversion E; subst.
      destruct (IH d' r eq_refl) as [-> F]. split; [reflexivity|].
      constructor; [now apply digit_literal | exact F].
    + intros E. inversion E. now split.
Qed.

Lemma parseExponent_units (r : jsstring) (x : Z) :
  parseExponent r = Some x -> Forall (fun c => literal_unit c = true) r.
Proof.
  assert (B : forall t, (exists y,
              match span_digits t with
              | (d :: ds, []) => Some y
              | _ => @None Z
              end <> None) ->
            Forall (fun c => literal_unit c = true) t).
  { intros t [y H]. destruct (span_digits t) as [d rest] eqn:E.
    apply span_digits_spec in E as [-> F].
    destruct d; [contradiction|]. destruct rest; [|contradiction].
    now rewrite app_nil_r. }
  unfold parseExponent. intros H.
  assert (G : forall (neg : bool) t,
            match span_digits t with
            | (d :: ds, []) =>
                Some (if neg then (- Z.of_N (decimal_value (d :: ds)))%Z
                      else Z.of_N (decimal_value (d :: ds)))
            | _ => None
            end = Some x -> Forall (fun c => literal_unit c = true) t).
  { intros neg t E. apply B. exists 0%Z.
    destruct (span_digits t) as [[|d ds] [|u rest]]; congruence. }
  destruct r as [|c r]; [discriminate H|].
  destruct (N.eqb_spec c 43) as [->|N1].
  - constructor; [reflexivity|]. exact (G false r H).
  - destruct (N.eqb_spec c 45) as [->|N2].
    + constructor; [reflexivity|]. exact (G true r H).
    + apply (G false (c :: r)).
      destruct c as [|p]; [exact H|].
      do 6 (destruct p as [p|p|]; try exact H); contradiction.
Qed.

Tactic Notation "by_unit_cases" constr(c) tactic3(tac) :=
  let p := fresh "p" in
  destruct c as [|p]; [tac|];
  do 7 (try (destruct p as [p|p|]; try tac)).

Lemma fraction_eq (r1 : jsstring) :
  match r1 with
  | 46 :: r => span_digits r
  | _ => ([], r1)
  end =
  match r1 with
  | c :: r => if c =? 46 then span_digits r else ([], r1)
  | [] => ([], r1)
  end.
Proof.
  destruct r1 as [|c r]; [reflexivity|].
  by_unit_cases c reflexivity.
Qed.

Lemma parseUnsignedDecimal_units (neg : bool) (s : jsstring) :
  parseUnsignedDecimal neg s <> NaN ->
  Forall (fun c => literal_unit c = true) s.
Proof.
  unfold parseUnsignedDecimal.
  destruct (str_eqb s (js "Infinity")) eqn:EI.
  { intros _. apply str_eqb_eq in EI. subst. repeat constructor. }
  destruct (span_digits s) as [ip r1] eqn:E1.
  apply span_digits_spec in E1 as [-> Fip].
  rewrite fraction_eq.
  assert (K : forall fp r2,
             Forall (fun c => literal_unit c = true) fp ->
             match ip ++ fp with
             | [] => NaN
             | n :: l =>
                 match r2 with
                 | [] => Dec neg (decimal_value (n :: l))
                             (- Z.of_nat (List.length fp))
                 | c :: r3 =>
                     if (c =? 101) || (c =? 69)
                     then match parseExponent r3 with
                          | Some x => Dec neg (decimal_value (n :: l))
                                          (x + - Z.of_nat (List.length fp))
                          | None => NaN
                          end
                     else NaN
                 end
             end <> NaN ->
             Forall (fun c => literal_unit c = true) (fp ++ r2)).
  { intros fp r2 Ffp H. destruct (ip ++ fp); [contradiction|].
    destruct r2 as [|c r3]; [now rewrite app_nil_r|].
    apply Forall_app. split; [exact Ffp|].
    destruct ((c =? 101) || (c =? 69)) eqn:Ee; [|contradiction].
    destruct (parseExponent r3) as [x|] eqn:Ex; [|contradiction].
    constructor; [|now apply parseExponent_units in Ex].
    apply orb_true_iff in Ee as [Ee|Ee]; apply N.eqb_eq in Ee; now subst. }
  destruct r1 as [|c r].
  - intros H. rewrite app_nil_r. exact Fip.
  - destruct (c =? 46) eqn:Ed.
    + apply N.eqb_eq in Ed. subst c.
      destruct (span_digits r) as [fp r2] eqn:E2.
      apply span_digits_spec in E2 as [-> Ffp].
      intros H. apply Forall_app. split; [exact Fip|].
      constructor; [reflexivity|]. now apply K.
    + intros H. apply Forall_app. split; [exact Fip|].
      apply (K [] (c :: r)); [constructor | exact H].
Qed.

Lemma hex_literal (c d : N) : hex_value c = Some d -> literal_unit c = true.
Proof.
  unfold hex_value, literal_unit.
  destruct (is_digit c); [reflexivity|].
  destruct (in_range 97 102 c); [reflexivity|].
  destruct (in_range 65 70 c); [reflexivity | discriminate].
Qed.

Lemma radix_value_units (b acc : N) (s : jsstring) (v : N) :
  radix_value b acc s = Some v -> Forall (fun c => literal_unit c = true) s.
Proof.
  revert acc. induction s as [|c s IH]; intros acc; simpl; [constructor|].
  destruct (hex_value c) as [d|] eqn:E; [|discriminate].
  destruct (d <? b); [|discriminate].
  intros H. constructor; [now apply hex_literal in E | now apply IH in H].
Qed.

Lemma parseRadix_units (b : N) (s : jsstring) :
  parseRadix b s <> NaN -> Forall (fun c => literal_unit c = true) s.
Proof.
  unfold parseRadix. destruct s as [|c s]; [constructor|].
  destruct (radix_value b 0 (c :: s)) eqn:E; [|contradiction].
  intros _. now apply radix_value_units in E.
Qed.

Lemma parseNumericLiteral_eq (s : jsstring) :
  parseNumericLiteral s =
  match s with
  | [] => parseUnsignedDecimal false s
  | c0 :: rest =>
      if c0 =? 48
      then match rest with
           | [] => parseUnsignedDecimal false s
           | c :: r =>
               if (c =? 120) || (c =? 88) then parseRadix 16 r
               else if (c =? 111) || (c =? 79) then parseRadix 8 r
               else if (c =? 98) || (c =? 66) then parseRadix 2 r
               else parseUnsignedDecimal false s
           end
      else if c0 =? 43 then parseUnsignedDecimal false rest
      else if c0 =? 45 then parseUnsignedDecimal true rest
      else parseUnsignedDecimal false s
  end.
Proof.
  destruct s as [|c0 rest]; [reflexivity|].
  by_unit_cases c0 reflexivity; destruct rest; reflexivity.
Qed.

Lemma parseNumericLiteral_units (s : jsstring) :
  parseNumericLiteral s <> NaN ->
  Forall (fun c => literal_unit c = true) s.
Proof.
  rewrite parseNumericLiteral_eq.
  destruct s as [|c0 rest]; [constructor|].
  destruct (N.eqb_spec c0 48) as [->|N0].
  - destruct rest as [|c r]; [apply parseUnsignedDecimal_units|].
    destruct ((c =? 120) || (c =? 88)) eqn:Ex.
    { intros H. apply parseRadix_units in H.
      constructor; [reflexivity|]. constructor; [|exact H].
      apply orb_true_iff in Ex as [E|E]; apply N.eqb_eq in E; now subst. }
    destruct ((c =? 111) || (c =? 79)) eqn:Eo.
    { intros H. apply parseRadix_units in H.
      constructor; [reflexivity|]. constructor; [|exact H].
      apply orb_true_iff in Eo as [E|E]; apply N.eqb_eq in E; now subst. }
    destruct ((c =? 98) || (c =? 66)) eqn:Eb.
    { intros H. apply parseRadix_units in H.
      constructor; [reflexivity|]. constructor; [|exact H].
      apply orb_true_iff in Eb as [E|E]; apply N.eqb_eq in E; now subst. }
    apply parseUnsignedDecimal_units.
  - destruct (N.eqb_spec c0 43) as [->|N1].
    { intros H. constructor; [reflexivity|].
      now apply parseUnsignedDecimal_units in H. }
    destruct (N.eqb_spec c0 45) as [->|N2].
    { intros H. constructor; [reflexivity|].
      now apply parseUnsignedDecimal_units in H. }
    apply parseUnsignedDecimal_units.
Qed.

(** ** What trimming keeps *)

Lemma dropWhile_In (p : N -> bool) (c : N) (s : jsstring) :
  In c s -> p c = false -> In c (dropWhile p s).
Proof.
  intros H Hp. induction s as [|d s IH]; [contradiction|].
  simpl. destruct (p d) eqn:E; [|exact H].
  destruct H as [->|H]; [congruence | now apply IH].
Qed.

Lemma trim_In (c : N) (s : jsstring) :
  In c s -> is_space c = false -> In c (trim s).
Proof.
  intros H Hc. unfold trim, trimEnd, trimStart.
  apply in_rev. rewrite rev_involutive.
  apply dropWhile_In; [|exact Hc].
  apply -> in_rev. now apply dropWhile_In.
Qed.

Lemma dropWhile_count (p : N -> bool) (x : N) (s : jsstring) :
  p x = false ->
  count_occ N.eq_dec (dropWhile p s) x = count_occ N.eq_dec s x.
Proof.
  intros Hp. induction s as [|d s IH]; [reflexivity|].
  simpl dropWhile. destruct (p d) eqn:E; [|reflexivity].
  rewrite IH. rewrite count_occ_cons_neq; [reflexivity | congruence].
Qed.

Lemma trim_count (x : N) (s : jsstring) :
  is_space x = false ->
  count_occ N.eq_dec (trim s) x = count_occ N.eq_dec s x.
Proof.
  intros H. unfold trim, trimEnd, trimStart.
  now rewrite count_occ_rev, dropWhile_count, count_occ_rev, dropWhile_count.
Qed.

Lemma dropWhile_map (p : N -> bool) (f : N -> N) (s : jsstring) :
  (forall c, p (f c) = p c) ->
  dropWhile p (map f s) = map f (dropWhile p s).
Proof.
  intros H. induction s as [|c s IH]; [reflexivity|].
  simpl. rewrite H. now destruct (p c).
Qed.

Lemma trim_map (f : N -> N) (s : jsstring) :
  (forall c, is_space (f c) = is_space c) ->
  trim (map f s) = map f (trim s).
Proof.
  intros H. unfold trim, trimEnd, trimStart.
  now rewrite dropWhile_map, <- map_rev, dropWhile_map, map_rev.
Qed.

(** ** Replacing the first comma *)

Lemma replaceFirstUnit_absent (x y : N) (s : jsstring) :
  ~ In x s -> replaceFirstUnit x y s = s.
Proof.
  induction s as [|c s IH]; intros H; [reflexivity|].
  simpl. destruct (N.eqb_spec c x) as [->|Hc].
  - exfalso. apply H. now left.
  - rewrite IH; [reflexivity|]. intros Q. apply H. now right.
Qed.

Lemma replaceAll_absent (x y : N) (s : jsstring) :
  ~ In x s -> map (replaceUnit x y) s = s.
Proof.
  induction s as [|c s IH]; intros H; [reflexivity|].
  simpl. rewrite replaceUnit_other, IH; [reflexivity| |];
    intros Q; apply H; [now right | now left].
Qed.

Lemma replaceFirstUnit_single (x y : N) (s : jsstring) :
  (count_occ N.eq_dec s x <= 1)%nat ->
  replaceFirstUnit x y s = map (replaceUnit x y) s.
Proof.
  induction s as [|c s IH]; intros H; [reflexivity|].
  simpl. unfold replaceUnit at 1. destruct (N.eqb_spec c x) as [->|Hc].
  - rewrite count_occ_cons_eq in H by reflexivity.
    rewrite replaceAll_absent; [reflexivity|].
    apply (count_occ_not_In N.eq_dec). lia.
  - rewrite count_occ_cons_neq in H by assumption. now rewrite IH.
Qed.

Lemma replaceFirstUnit_count (x y : N) (s : jsstring) :
  x <> y ->
  count_occ N.eq_dec (replaceFirstUnit x y s) x =
  Nat.pred (count_occ N.eq_dec s x).
Proof.
  intros Hxy. induction s as [|c s IH]; [reflexivity|].
  simpl replaceFirstUnit. destruct (N.eqb_spec c x) as [->|Hc].
  - rewrite (count_occ_cons_eq N.eq_dec s (eq_refl x)).
    rewrite count_occ_cons_neq by congruence. reflexivity.
  - now rewrite !count_occ_cons_neq by assumption.
Qed.

(** ** [toNumber] *)

(** A code unit that is neither white space nor part of a numeric literal
    makes [Number] answer [NaN]. *)
Lemma stringToNumber_foreign (c : N) (t : jsstring) :
  In c t -> is_space c = false -> literal_unit c = false ->
  stringToNumber t = NaN.
Proof.
  intros H Hs Hl. unfold stringToNumber.
  pose proof (trim_In c t H Hs) as Hin.
  destruct (trim t) as [|d u] eqn:E; [contradiction|].
  destruct (parseNumericLiteral (d :: u)) eqn:P; [reflexivity| |];
    assert (Q : parseNumericLiteral (d :: u) <> NaN) by congruence;
    apply parseNumericLiteral_units in Q;
    rewrite Forall_forall in Q; apply Q in Hin; congruence.
Qed.

Lemma toNumber_string (s : jsstring) :
  toNumber (JStr s) =
  match trim s with
  | [] => None
  | _ :: _ =>
      let n := stringToNumber (replaceFirstUnit 44 46 (trim s)) in
      if isNaN n then None else Some n
  end.
Proof. reflexivity. Qed.

Lemma toNumber_foreign (c : N) (s : jsstring) :
  In c s -> is_space c = false -> literal_unit c = false -> c <> 44 ->
  toNumber (JStr s) = None.
Proof.
  intros H Hs Hl Hc. rewrite toNumber_string.
  pose proof (trim_In c s H Hs) as Hin.
  destruct (trim s) as [|d u] eqn:E; [reflexivity|].
  cbv zeta. rewrite (stringToNumber_foreign c); [reflexivity| |exact Hs|exact Hl].
  clear E. induction (d :: u) as [|e t IH]; [contradiction|].
  simpl. destruct (N.eqb_spec e 44) as [->|He].
  - destruct Hin as [Q|Q]; [congruence | now right].
  - destruct Hin as [Q|Q]; [now left | right; now apply IH].
Qed.

Lemma toNumber_commas (s : jsstring) :
  (2 <= count_occ N.eq_dec s 44%N)%nat -> toNumber (JStr s) = None.
Proof.
  intros H. rewrite toNumber_string.
  rewrite <- (trim_count 44 s eq_refl) in H.
  destruct (trim s) as [|d u] eqn:E; [reflexivity|].
  cbv zeta. rewrite (stringToNumber_foreign 44); try reflexivity.
  apply (count_occ_In N.eq_dec).
  rewrite replaceFirstUnit_count by discriminate. lia.
Qed.

Lemma toNumber_decimal_comma (a b : jsstring) :
  ~ In 44 a -> ~ In 44 b ->
  toNumber (JStr (a ++ 44 :: b)) = toNumber (JStr (a ++ 46 :: b)).
Proof.
  intros Ha Hb.
  assert (E : a ++ 46 :: b = map (replaceUnit 44 46) (a ++ 44 :: b)).
  { rewrite map_app. simpl. now rewrite !replaceAll_absent. }
  assert (Sp : forall c, is_space (replaceUnit 44 46 c) = is_space c).
  { intros c. unfold replaceUnit. now destruct (N.eqb_spec c 44) as [->|]. }
  assert (C : (count_occ N.eq_dec (trim (a ++ 44%N :: b)) 44%N <= 1)%nat).
  { rewrite trim_count by reflexivity. rewrite count_occ_app.
    rewrite count_occ_cons_eq by reflexivity.
    apply (count_occ_not_In N.eq_dec) in Ha, Hb. lia. }
  rewrite !toNumber_string, E, (trim_map _ _ Sp).
  destruct (trim (a ++ 44 :: b)) as [|d u]; [reflexivity|].
  rewrite (replaceFirstUnit_single 44 46 (d :: u) C).
  rewrite (replaceFirstUnit_absent 44 46 (map _ (d :: u))); [reflexivity|].
  rewrite in_map_iff. intros [c [Q _]]. unfold replaceUnit in Q.
  destruct (N.eqb_spec c 44); congruence.
Qed.

(** ** The ranking of the intent matcher *)

Section Ranking.

Variable nt : NormalizedText.
Variable bag : EntityBag.

(** [beats] is the lexicographic order on score (higher first), unsatisfied
    required dimensions (fewer first) and priority rank (lower first). *)
Lemma beats_spec (a b : CanonicalQuestion) :
  beats nt bag a b = true <->
  (score nt b < score nt a)%Q \/
  ((score nt b == score nt a)%Q /\
   (unsatisfied_count a bag < unsatisfied_count b bag)%nat) \/
  ((score nt b == score nt a)%Q /\
   unsatisfied_count a bag = unsatisfied_count b bag /\
   (priority_rank (qtype a) < priority_rank (qtype b))%nat).
Proof.
  unfold beats.
  destruct (Qcompare_spec (score nt a) (score nt b)) as [E|L|G].
  - destruct (Nat.compare_spec (unsatisfied_count a bag)
                               (unsatisfied_count b bag)) as [E'|L'|G'].
    + rewrite Nat.ltb_lt. split.
      * intros H. right. right. repeat split; [now symmetry|assumption..].
      * intros [H|[[_ H]|[_ [_ H]]]]; [lra | lia | exact H].
    + split; [|reflexivity]. intros _. right. left. split; [now symmetry|assumption].
    + split; [discriminate|]. intros [H|[[_ H]|[_ [H _]]]]; [lra | lia | lia].
  - split; [discriminate|]. intros [H|[[H _]|[H _]]]; lra.
  - split; [|reflexivity]. intros _. now left.
Qed.

Lemma beats_false_spec (a b : CanonicalQuestion) :
  beats nt bag a b = false <->
  (score nt a < score nt b)%Q \/
  ((score nt a == score nt b)%Q /\
   (unsatisfied_count b bag < unsatisfied_count a bag)%nat) \/
  ((score nt a == score nt b)%Q /\
   unsatisfied_count a bag = unsatisfied_count b bag /\
   (priority_rank (qtype b) <= priority_rank (qtype a))%nat).
Proof.
  unfold beats.
  destruct (Qcompare_spec (score nt a) (score nt b)) as [E|L|G].
  - destruct (Nat.compare_spec (unsatisfied_count a bag)
                               (unsatisfied_count b bag)) as [E'|L'|G'].
    + rewrite Nat.ltb_ge. split.
      * intros H. right. right. now repeat split.
      * intros [H|[[_ H]|[_ [_ H]]]]; [lra | lia | exact H].
    + split; [discriminate|]. intros [H|[[_ H]|[_ [H _]]]]; [lra | lia | lia].
    + split; [|reflexivity]. intros _. right. left. now split.
  - split; [|reflexivity]. intros _. now left.
  - split; [discriminate|]. intros [H|[[H _]|[H _]]]; lra.
Qed.

Lemma beats_asym (a b : CanonicalQuestion) :
  beats nt bag a b = true -> beats nt bag b a = false.
Proof.
  rewrite beats_spec, beats_false_spec.
  intros [H|[[H1 H2]|[H1 [H2 H3]]]].
  - now left.
  - right. left. now split.
  - right. right. repeat split; [assumption | now symmetry | lia].
Qed.

(** Not being beaten is transitive. *)
Lemma beats_false_trans (a b c : CanonicalQuestion) :
  beats nt bag a b = false -> beats nt bag b c = false ->
  beats nt bag a c = false.
Proof.
  rewrite !beats_false_spec.
  intros [H|[[H1 H2]|[H1 [H2 H3]]]] [K|[[K1 K2]|[K1 [K2 K3]]]];
    first [ left; lra
          | right; left; split; [lra | lia]
          | right; right; repeat split; [lra | lia | lia] ].
Qed.

Lemma best_in (l : list CanonicalQuestion) (cur : CanonicalQuestion) :
  In (best nt bag cur l) (cur :: l).
Proof.
  revert cur. induction l as [|q l IH]; intros cur; simpl; [now left|].
  destruct (IH (if beats nt bag q cur then q else cur)) as [E|H].
  - destruct (beats nt bag q cur); [right; left | left]; exact E.
  - right. now right.
Qed.

(** Nothing in the list ranks before the candidate [best] returns. *)
Lemma best_unbeaten (l : list CanonicalQuestion) (cur q : CanonicalQuestion) :
  In q (cur :: l) -> beats nt bag q (best nt bag cur l) = false.
Proof.
  revert cur q. induction l as [|x l IH]; intros cur q H; simpl.
  - destruct H as [->|[]]. apply beats_false_spec. right. right.
    split; [reflexivity|]. split; [reflexivity | lia].
  - destruct (beats nt bag x cur) eqn:B.
    + destruct H as [->|[->|H]].
      * apply (beats_false_trans _ x); [now apply beats_asym|].
        apply IH. now left.
      * apply IH. now left.
      * apply IH. now right.
    + destruct H as [->|[->|H]].
      * apply IH. now left.
      * apply (beats_false_trans _ cur); [exact B|].
        apply IH. now left.
      * apply IH. now right.
Qed.

(** The candidate [best] returns has the highest score. *)
Lemma best_score (l : list CanonicalQuestion) (cur q : CanonicalQuestion) :
  In q (cur :: l) -> (score nt q <= score nt (best nt bag cur l))%Q.
Proof.
  intros H. pose proof (best_unbeaten l cur q H) as U.
  apply beats_false_spec in U. destruct U as [U|[[U _]|[U _]]]; lra.
Qed.

End Ranking.

Lemma priority_rank_inj (a b : QuestionType) :
  priority_rank a = priority_rank b -> a = b.
Proof. destruct a, b; try reflexivity; discriminate. Qed.

Lemma qtype_eq_dec (a b : QuestionType) : {a = b} + {a <> b}.
Proof. decide equality. Qed.

Lemma NoDup_map_eq {A B : Type} (f : A -> B) (l : list A) (a b : A) :
  NoDup (map f l) -> In a l -> In b l -> f a = f b -> a = b.
Proof.
  induction l as [|x l IH]; intros N Ha Hb E; [contradiction|].
  simpl in N. inversion N as [|? ? Nx Nl]; subst.
  destruct Ha as [->|Ha], Hb as [->|Hb].
  - reflexivity.
  - exfalso. apply Nx. rewrite E. now apply in_map.
  - exfalso. apply Nx. rewrite <- E. now apply in_map.
  - now apply IH.
Qed.

(** ** The matcher's order and the order of the specification *)

Lemma nonempty_spec {A : Type} (l : list A) : nonempty l = true <-> l <> [].
Proof. destruct l; simpl; split; congruence. Qed.

Ltac pick_dimension :=
  first [ split; [reflexivity | assumption]
        | left; split; [reflexivity | assumption]
        | right; pick_dimension ].

Lemma entity_present_satisfied (bag : EntityBag) (d : string) :
  entity_present bag d = true <-> satisfied bag d.
Proof.
  split.
  - unfold entity_present, satisfied.
    repeat match goal with
           | |- context [String.eqb d ?s] =>
               destruct (String.eqb_spec d s) as [->|_];
               [intros H; apply nonempty_spec in H; pick_dimension|]
           end.
    intros H. discriminate H.
  - unfold satisfied. intros H.
    repeat (destruct H as [[E H]|H];
            [subst d; apply nonempty_spec in H; exact H|]).
    destruct H as [E H]. subst d. apply nonempty_spec in H. exact H.
Qed.

Lemma unsatisfied_in_count (bag : EntityBag) (ds : list string) (n : nat) :
  unsatisfied_in bag ds n <->
  n = List.length (filter (fun d => negb (entity_present bag d)) ds).
Proof.
  split.
  - induction 1 as [|d ds n S _ IH|d ds n S _ IH]; simpl.
    + reflexivity.
    + apply entity_present_satisfied in S. now rewrite S.
    + destruct (entity_present bag d) eqn:E.
      * exfalso. apply S. now apply entity_present_satisfied.
      * simpl. now rewrite IH.
  - intros ->. induction ds as [|d ds IH]; simpl; [constructor|].
    destruct (entity_present bag d) eqn:E; simpl.
    + apply unsatisfied_skip; [now apply entity_present_satisfied | exact IH].
    + apply unsatisfied_more; [|exact IH].
      intros S. apply entity_present_satisfied in S. congruence.
Qed.

Lemma priority_rank_nth (t : QuestionType) :
  nth_error PRIORITY_ORDER (priority_rank t) = Some t.
Proof. destruct t; reflexivity. Qed.

Lemma nth_priority_rank (i : nat) (t : QuestionType) :
  nth_error PRIORITY_ORDER i = Some t -> i = priority_rank t.
Proof.
  intros H.
  do 12 (destruct i as [|i]; [inversion H; reflexivity|]).
  destruct i; discriminate H.
Qed.

Lemma listed_before_rank (a b : QuestionType) :
  listed_before a b <-> (priority_rank a < priority_rank b)%nat.
Proof.
  split.
  - intros [i [j [Hi [Hj L]]]].
    apply nth_priority_rank in Hi, Hj. now subst.
  - intros L. exists (priority_rank a), (priority_rank b).
    now rewrite !priority_rank_nth.
Qed.

Lemma preferred_spec (bag : EntityBag) (a b : CanonicalQuestion) :
  preferred bag a b <->
  (unsatisfied_count a bag < unsatisfied_count b bag)%nat \/
  (unsatisfied_count a bag = unsatisfied_count b bag /\
   (priority_rank (qtype a) < priority_rank (qtype b))%nat).
Proof.
  unfold preferred, unsatisfied_count, unsatisfied. split.
  - intros [na [nb [Ha [Hb H]]]].
    apply unsatisfied_in_count in Ha, Hb. subst na nb.
    now rewrite listed_before_rank in H.
  - intros H. eexists. eexists.
    split; [now apply unsatisfied_in_count|].
    split; [now apply unsatisfied_in_count|].
    now rewrite listed_before_rank.
Qed.

Lemma beats_ranks_before (nt : NormalizedText) (bag : EntityBag)
    (a b : CanonicalQuestion) :
  beats nt bag a b = true <-> ranks_before nt bag a b.
Proof.
  rewrite beats_spec. unfold ranks_before. rewrite preferred_spec. tauto.
Qed.

Section Winner.

Variable nt : NormalizedText.
Variable bag : EntityBag.

(** With one entry per archetype, the candidate [best] returns ranks
    strictly before every other one. *)
Lemma best_strict (l : list CanonicalQuestion) (cur q : CanonicalQuestion) :
  NoDup (map qtype (cur :: l)) ->
  In q (cur :: l) -> q <> best nt bag cur l ->
  beats nt bag (best nt bag cur l) q = true.
Proof.
  intros N Hq Hne.
  pose proof (best_unbeaten nt bag l cur q Hq) as U.
  pose proof (best_in nt bag l cur) as Hp.
  set (p := best nt bag cur l) in *.
  assert (R : priority_rank (qtype q) <> priority_rank (qtype p)).
  { intros E. apply Hne. apply priority_rank_inj in E.
    exact (NoDup_map_eq qtype (cur :: l) q p N Hq Hp E). }
  apply beats_false_spec in U. apply beats_spec.
  destruct U as [H|[[H1 H2]|[H1 [H2 H3]]]].
  - now left.
  - right. left. now split.
  - right. right. repeat split; [assumption | now symmetry | lia].
Qed.

(** An entry that ranks before every other one is the one [best]
    returns. *)
Lemma best_unique (l : list CanonicalQuestion) (cur w : CanonicalQuestion) :
  NoDup (map qtype (cur :: l)) ->
  In w (cur :: l) ->
  (forall q, In q (cur :: l) -> q <> w -> beats nt bag w q = true) ->
  best nt bag cur l = w.
Proof.
  intros N Hw H.
  pose proof (best_in nt bag l cur) as Hp.
  pose proof (best_unbeaten nt bag l cur w Hw) as U.
  set (p := best nt bag cur l) in *.
  destruct (qtype_eq_dec (qtype p) (qtype w)) as [E|E].
  - exact (NoDup_map_eq qtype (cur :: l) p w N Hp Hw E).
  - assert (Hne : p <> w) by (intros Q; apply E; now rewrite Q).
    rewrite (H p Hp Hne) in U. discriminate U.
Qed.

Lemma best_perm (l l' : list CanonicalQuestion) (cur cur' : CanonicalQuestion) :
  NoDup (map qtype (cur :: l)) ->
  Permutation (cur' :: l') (cur :: l) ->
  best nt bag cur' l' = best nt bag cur l.
Proof.
  intros N P.
  set (p := best nt bag cur l).
  set (p' := best nt bag cur' l').
  assert (Hp : In p (cur' :: l')).
  { apply (Permutation_in _ (Permutation_sym P)). apply best_in. }
  assert (Hp' : In p' (cur :: l)).
  { apply (Permutation_in _ P). apply best_in. }
  destruct (qtype_eq_dec (qtype p') (qtype p)) as [E|D].
  - exact (NoDup_map_eq qtype (cur :: l) p' p N Hp' (best_in nt bag l cur) E).
  - assert (Hne : p' <> p) by (intros Q; apply D; now rewrite Q).
    pose proof (best_strict l cur p' N Hp' Hne) as S.
    pose proof (best_unbeaten nt bag l' cur' p Hp) as U.
    fold p in S. fold p' in U. congruence.
Qed.

End Winner.

(** ** The claims about the intent matcher *)

(** C4: ties are resolved the same way whatever the iteration order.  With
    one catalogue entry per archetype, the primary question has the highest
    trigger score; against every other entry with the same score it is
    preferred: fewer of its required dimensions are left without an
    extracted entity, or as many and it comes earlier in the fixed priority
    list.  It is the only entry that ranks before all others, and every
    reordering of the catalogue yields the same primary question. *)
Theorem match_intent_tie_break (cfg : Config) (nt : NormalizedText)
    (bag : EntityBag) :
  NoDup (map qtype (entries (catalogue cfg))) ->
  let p := primaryQuestion (match_intent cfg nt bag) in
  In p (entries (catalogue cfg)) /\
  (forall q, In q (entries (catalogue cfg)) -> (score nt q <= score nt p)%Q) /\
  (forall q, In q (entries (catalogue cfg)) -> q <> p ->
     (score nt q == score nt p)%Q -> preferred bag p q) /\
  (forall w, In w (entries (catalogue cfg)) ->
     (forall q, In q (entries (catalogue cfg)) -> q <> w ->
        ranks_before nt bag w q) ->
     p = w) /\
  (forall c', Permutation (entries c') (entries (catalogue cfg)) ->
     primaryQuestion (match_intent (with_catalogue cfg c') nt bag) = p).
Proof.
  intros N p. unfold match_intent in p. simpl in p.
  split; [apply best_in|]. split; [|split; [|split]].
  - intros q Hq. now apply best_score.
  - intros q Hq Hne E.
    pose proof (best_strict nt bag _ _ q N Hq Hne) as B.
    apply beats_ranks_before in B. destruct B as [B|[_ B]]; [|exact B].
    fold p in B. lra.
  - intros w Hw H. apply (best_unique nt bag _ _ w N Hw).
    intros q Hq Hne. apply beats_ranks_before. now apply H.
  - intros c' P. exact (best_perm nt bag _ _ _ _ N P).
Qed.

Lemma match_intent_tie_break_witness :
  let nt := normalize README_ROUTER (js "ariza maliyet") in
  NoDup (map qtype (entries (catalogue README_ROUTER))) /\
  primaryQuestion (match_intent README_ROUTER nt EMPTY_BAG) =
    COST_ANALYSIS_QUESTION /\
  primaryQuestion (match_intent README_ROUTER nt FAULT_CODE_BAG) =
    FAULT_ANALYSIS_QUESTION /\
  primaryQuestion (match_intent README_ROUTER
                     (normalize README_ROUTER (js "musteri")) EMPTY_BAG) =
    CUSTOMER_BASED_QUESTION /\
  forall c', Permutation (entries c') (entries (catalogue README_ROUTER)) ->
    primaryQuestion (match_intent (with_catalogue README_ROUTER c') nt EMPTY_BAG) =
    primaryQuestion (match_intent README_ROUTER nt EMPTY_BAG).
Proof.
  assert (N : NoDup (map qtype (entries (catalogue README_ROUTER))))
    by (vm_compute; repeat constructor; simpl; intuition discriminate).
  assert (C : forall q, In q (entries (catalogue README_ROUTER)) ->
                q <> COST_ANALYSIS_QUESTION ->
                ranks_before (normalize README_ROUTER (js "ariza maliyet"))
                             EMPTY_BAG COST_ANALYSIS_QUESTION q).
  { intros q Hq Hne. apply beats_ranks_before. simpl in Hq.
    repeat (destruct Hq as [<-|Hq];
            [first [vm_compute; reflexivity | now elim Hne]|]).
    contradiction. }
  assert (F : forall q, In q (entries (catalogue README_ROUTER)) ->
                q <> FAULT_ANALYSIS_QUESTION ->
                ranks_before (normalize README_ROUTER (js "ariza maliyet"))
                             FAULT_CODE_BAG FAULT_ANALYSIS_QUESTION q).
  { intros q Hq Hne. apply beats_ranks_before. simpl in Hq.
    repeat (destruct Hq as [<-|Hq];
            [first [vm_compute; reflexivity | now elim Hne]|]).
    contradiction. }
  assert (M : forall q, In q (entries (catalogue README_ROUTER)) ->
                q <> CUSTOMER_BASED_QUESTION ->
                ranks_before (normalize README_ROUTER (js "musteri"))
                             EMPTY_BAG CUSTOMER_BASED_QUESTION q).
  { intros q Hq Hne. apply beats_ranks_before. simpl in Hq.
    repeat (destruct Hq as [<-|Hq];
            [first [vm_compute; reflexivity | now elim Hne]|]).
    contradiction. }
  split; [exact N|]. split; [|split; [|split]].
  - exact (proj1 (proj2 (proj2 (proj2
             (match_intent_tie_break README_ROUTER
                (normalize README_ROUTER (js "ariza maliyet")) EMPTY_BAG N))))
             COST_ANALYSIS_QUESTION (or_intror (or_introl eq_refl)) C).
  - exact (proj1 (proj2 (proj2 (proj2
             (match_intent_tie_break README_ROUTER
                (normalize README_ROUTER (js "ariza maliyet")) FAULT_CODE_BAG N))))
             FAULT_ANALYSIS_QUESTION
             (or_intror (or_intror (or_intror (or_introl eq_refl)))) F).
  - exact (proj1 (proj2 (proj2 (proj2
             (match_intent_tie_break README_ROUTER
                (normalize README_ROUTER (js "musteri")) EMPTY_BAG N))))
             CUSTOMER_BASED_QUESTION
             (or_intror (or_intror (or_intror (or_intror
                (or_intror (or_introl eq_refl)))))) M).
  - exact (proj2 (proj2 (proj2 (proj2
             (match_intent_tie_break README_ROUTER
                (normalize README_ROUTER (js "ariza maliyet")) EMPTY_BAG N))))).
Defined.

(** A tie on the score between the fault and the cost archetypes.  Without
    a fault code the cost archetype, which requires no dimension, wins
    though the fault archetype is listed earlier; with a fault code both are
    satisfied alike and the fault archetype wins on priority though the
    catalogue lists the cost archetype first. *)
Example tie_fault_and_cost :
  let nt := normalize README_ROUTER (js "ariza maliyet") in
  let m := match_intent README_ROUTER nt EMPTY_BAG in
  let m' := match_intent README_ROUTER nt FAULT_CODE_BAG in
  qtype (primaryQuestion m) = COST_ANALYSIS /\
  (primaryScore m == 1 # 6)%Q /\
  option_map (fun r => qtype (fst r)) (runnerUp m) = Some FAULT_ANALYSIS /\
  qtype (primaryQuestion m') = FAULT_ANALYSIS /\
  option_map (fun r => qtype (fst r)) (runnerUp m') = Some COST_ANALYSIS.
Proof. vm_compute. repeat split. Qed.

(** C6: the matcher always answers.  Its primary question is an entry of
    the catalogue with the highest score, which is the primary score.  When
    every archetype scores zero the primary score is zero and, with one
    entry per archetype, the primary question is the top-ranked candidate
    of the two tie-breaks: it is preferred to every other entry, and it is
    the only such entry. *)
Theorem match_intent_total (cfg : Config) (nt : NormalizedText)
    (bag : EntityBag) :
  let m := match_intent cfg nt bag in
  In (primaryQuestion m) (entries (catalogue cfg)) /\
  (forall q, In q (entries (catalogue cfg)) ->
             (score nt q <= primaryScore m)%Q) /\
  ((forall q, In q (entries (catalogue cfg)) -> (score nt q == 0)%Q) ->
   (primaryScore m == 0)%Q /\
   (NoDup (map qtype (entries (catalogue cfg))) ->
    (forall q, In q (entries (catalogue cfg)) -> q <> primaryQuestion m ->
               preferred bag (primaryQuestion m) q) /\
    (forall w, In w (entries (catalogue cfg)) ->
       (forall q, In q (entries (catalogue cfg)) -> q <> w ->
                  preferred bag w q) ->
       primaryQuestion m = w))).
Proof.
  simpl. split; [apply best_in|]. split; [|intros Z; split; [|intros N; split]].
  - intros q Hq. now apply best_score.
  - apply Z. apply best_in.
  - intros q Hq Hne.
    pose proof (best_strict nt bag _ _ q N Hq Hne) as B.
    apply beats_ranks_before in B. destruct B as [B|[_ B]]; [|exact B].
    rewrite (Z q Hq) in B. rewrite (Z _ (best_in nt bag _ _)) in B. lra.
  - intros w Hw H. apply (best_unique nt bag _ _ w N Hw).
    intros q Hq Hne. apply beats_ranks_before. right.
    split; [|now apply H]. now rewrite (Z q Hq), (Z w Hw).
Qed.

Lemma match_intent_total_witness :
  let nt := normalize README_ROUTER (js "xyz") in
  (forall q, In q (entries (catalogue README_ROUTER)) -> (score nt q == 0)%Q) /\
  NoDup (map qtype (entries (catalogue README_ROUTER))) /\
  (primaryScore (match_intent README_ROUTER nt EMPTY_BAG) == 0)%Q /\
  primaryQuestion (match_intent README_ROUTER nt EMPTY_BAG) =
    COST_ANALYSIS_QUESTION /\
  primaryQuestion (match_intent README_ROUTER nt VEHICLE_BAG) =
    MAINTENANCE_HISTORY_QUESTION.
Proof.
  assert (Z : forall q, In q (entries (catalogue README_ROUTER)) ->
                        (score (normalize README_ROUTER (js "xyz")) q == 0)%Q).
  { intros q Hq. simpl in Hq.
    repeat (destruct Hq as [<-|Hq]; [reflexivity|]). contradiction. }
  assert (N : NoDup (map qtype (entries (catalogue README_ROUTER))))
    by (vm_compute; repeat constructor; simpl; intuition discriminate).
  assert (C : forall q, In q (entries (catalogue README_ROUTER)) ->
                q <> COST_ANALYSIS_QUESTION ->
                preferred EMPTY_BAG COST_ANALYSIS_QUESTION q).
  { intros q Hq Hne. apply preferred_spec. simpl in Hq.
    repeat (destruct Hq as [<-|Hq];
            [first [vm_compute; lia | now elim Hne]|]).
    contradiction. }
  assert (M : forall q, In q (entries (catalogue README_ROUTER)) ->
                q <> MAINTENANCE_HISTORY_QUESTION ->
                preferred VEHICLE_BAG MAINTENANCE_HISTORY_QUESTION q).
  { intros q Hq Hne. apply preferred_spec. simpl in Hq.
    repeat (destruct Hq as [<-|Hq];
            [first [vm_compute; lia | now elim Hne]|]).
    contradiction. }
  split; [exact Z|]. split; [exact N|]. split; [|split].
  - exact (proj1 (proj2 (proj2 (match_intent_total README_ROUTER
             (normalize README_ROUTER (js "xyz")) EMPTY_BAG)) Z)).
  - exact (proj2 (proj2 (proj2 (proj2 (match_intent_total README_ROUTER
             (normalize README_ROUTER (js "xyz")) EMPTY_BAG)) Z) N)
             COST_ANALYSIS_QUESTION (or_intror (or_introl eq_refl)) C).
  - exact (proj2 (proj2 (proj2 (proj2 (match_intent_total README_ROUTER
             (normalize README_ROUTER (js "xyz")) VEHICLE_BAG)) Z) N)
             MAINTENANCE_HISTORY_QUESTION
             (or_intror (or_intror (or_introl eq_refl))) M).
Defined.

Example all_zero_primary :
  let nt := normalize README_ROUTER (js "xyz") in
  let m := match_intent README_ROUTER nt EMPTY_BAG in
  qtype (primaryQuestion m) = COST_ANALYSIS /\ primaryScore m = (0 # 6)%Q.
Proof. vm_compute. now split. Qed.

(** ** Blank questions *)

Lemma blank_lower (s : jsstring) :
  forallb is_space s = true -> toLowerCase s = s.
Proof.
  unfold toLowerCase. induction s as [|c s IH]; [reflexivity|].
  simpl. rewrite andb_true_iff. intros [Hc Hs].
  now rewrite (space_lower c Hc), IH.
Qed.

Lemma blank_runs (s : jsstring) :
  forallb is_space s = true ->
  split_runs separator [] (map replaced_unit s) = [].
Proof.
  induction s as [|c s IH]; [reflexivity|].
  simpl. rewrite andb_true_iff. intros [Hc Hs].
  unfold separator at 1. rewrite (space_replaced c Hc). simpl. now apply IH.
Qed.

Lemma normalizeFull_blank (s : jsstring) :
  forallb is_space s = true -> normalizeFull (JStr s) = [].
Proof.
  intros H. rewrite normalizeFull_runs, (blank_lower s H).
  now rewrite (blank_runs s H).
Qed.

(** C5: an empty or blank question has no tokens and ends in
    [EmptyQuestion]: no plan is synthesized, and the pipeline, a total
    function, cannot fail otherwise. *)
Theorem analyze_blank (cfg : Config) (text : jsstring) :
  forallb is_space text = true ->
  tokens (normalize cfg text) = [] /\ analyze cfg text = EmptyQuestion.
Proof.
  intros H.
  assert (T : tokens (normalize cfg text) = []).
  { unfold normalize. now rewrite (normalizeFull_blank text H). }
  split; [exact T|]. unfold analyze. now rewrite T.
Qed.

Lemma analyze_blank_witness :
  forallb is_space (js "   ") = true /\
  tokens (normalize README_ROUTER (js "   ")) = [] /\
  analyze README_ROUTER (js "   ") = EmptyQuestion.
Proof.
  split; [reflexivity|].
  exact (analyze_blank README_ROUTER (js "   ") eq_refl).
Defined.

Example analyze_empty_string : analyze README_ROUTER [] = EmptyQuestion.
Proof. reflexivity. Qed.

(** ** The time range of a plan *)

Lemma fold_min_spec (ys : list Z) (y : Z) :
  In (fold_left Z.min ys y) (y :: ys) /\
  forall x, In x (y :: ys) -> (fold_left Z.min ys y <= x)%Z.
Proof.
  revert y. induction ys as [|z ys IH]; intros y; simpl.
  - split; [now left|]. intros x [->|[]]. lia.
  - destruct (IH (Z.min y z)) as [Hin Hle]. split.
    + destruct Hin as [E|Hin]; [|now right; right].
      rewrite <- E. destruct (Z.min_spec y z) as [[_ ->]|[_ ->]];
        [now left | now right; left].
    + intros x Hx.
      assert (M : (fold_left Z.min ys (Z.min y z) <= Z.min y z)%Z)
        by (apply Hle; now left).
      destruct Hx as [->|[->|Hx]]; [lia | lia |].
      apply Hle. now right.
Qed.

Lemma fold_max_spec (ys : list Z) (y : Z) :
  In (fold_left Z.max ys y) (y :: ys) /\
  forall x, In x (y :: ys) -> (x <= fold_left Z.max ys y)%Z.
Proof.
  revert y. induction ys as [|z ys IH]; intros y; simpl.
  - split; [now left|]. intros x [->|[]]. lia.
  - destruct (IH (Z.max y z)) as [Hin Hle]. split.
    + destruct Hin as [E|Hin]; [|now right; right].
      rewrite <- E. destruct (Z.max_spec y z) as [[_ ->]|[_ ->]];
        [now right; left | now left].
    + intros x Hx.
      assert (M : (Z.max y z <= fold_left Z.max ys (Z.max y z))%Z)
        by (apply Hle; now left).
      destruct Hx as [->|[->|Hx]]; [lia | lia |].
      apply Hle. now right.
Qed.

(** The question of scenario 2 with a month added: vehicle 70886, year 2023,
    March. *)
Example march_2023_plan :
  synthesize README_ROUTER
    MAINTENANCE_HISTORY_QUESTION
    (mkEntityBag [2023%Z] [3%Z] [] [js "70886"] [] [] [] [] [] [] false None [])
  = Synthesized
      (mkQueryPlan ["vehicleId"; "year"; "month"]
         ["count"; "sum_cost"; "avg_km"]
         [("vehicleId", FEq (VStr (js "70886"))); ("year", FEq (VInt 2023));
          ("month", FEq (VInt 3))]
         (Some (mkTimeRange (mkInstant 2023 3 1 0 0) (mkInstant 2023 4 1 0 0)))
         (mkSort "count" Descending) None).
Proof. reflexivity. Qed.

(** C3, as stated, fails: with exactly one year and a month extracted the
    range is narrowed, so it is not the whole year. *)
Lemma time_range_counterexample :
  let bag := mkEntityBag [2023%Z] [3%Z] [] [js "70886"] [] [] [] [] [] []
                         false None [] in
  let q := MAINTENANCE_HISTORY_QUESTION in
  years bag <> [] /\
  exists p, synthesize README_ROUTER q bag = Synthesized p /\
            timeRange p <> Some (mkTimeRange (jan1 2023) (jan1 2024)).
Proof.
  split; [discriminate|].
  eexists. split; [reflexivity|]. discriminate.
Qed.

(** C3, amended: when years were extracted, a plan is synthesized and the
    range is not narrowed (no month and no season, or more than one year),
    the plan's time range runs from 1 January 00:00 of the least year,
    inclusive, to 1 January 00:00 of the year after the greatest,
    exclusive. *)
Theorem synthesize_time_range (cfg : Config) (q : CanonicalQuestion)
    (bag : EntityBag) :
  years bag <> [] ->
  (months bag = [] /\ seasons bag = []) \/ (2 <= List.length (years bag))%nat ->
  missing_required cfg q bag = [] ->
  exists p lo hi,
    synthesize cfg q bag = Synthesized p /\
    timeRange p = Some (mkTimeRange (jan1 lo) (jan1 (hi + 1))) /\
    In lo (years bag) /\ In hi (years bag) /\
    forall y, In y (years bag) -> (lo <= y <= hi)%Z.
Proof.
  intros Hy Hn Hm. unfold synthesize. rewrite Hm.
  destruct (years bag) as [|y ys] eqn:Ey; [contradiction|].
  destruct (fold_min_spec ys y) as [Il Ll].
  destruct (fold_max_spec ys y) as [Ih Lh].
  eexists. exists (fold_left Z.min ys y), (fold_left Z.max ys y).
  split; [reflexivity|]. split; [|repeat split; auto].
  simpl timeRange. unfold time_range. rewrite Ey.
  destruct ys as [|z ys]; [|reflexivity].
  destruct Hn as [[-> ->]|Hn]; [reflexivity | simpl in Hn; lia].
Qed.

Lemma synthesize_time_range_witness :
  let bag := mkEntityBag [2023%Z] [] [] [js "70886"] [] [] [] [] [] []
                         false None [] in
  let q := MAINTENANCE_HISTORY_QUESTION in
  years bag <> [] /\
  ((months bag = [] /\ seasons bag = []) \/ (2 <= List.length (years bag))%nat) /\
  missing_required README_ROUTER q bag = [] /\
  exists p lo hi,
    synthesize README_ROUTER q bag = Synthesized p /\
    timeRange p = Some (mkTimeRange (jan1 lo) (jan1 (hi + 1))) /\
    In lo (years bag) /\ In hi (years bag) /\
    forall y, In y (years bag) -> (lo <= y <= hi)%Z.
Proof.
  assert (H1 : years (mkEntityBag [2023%Z] [] [] [js "70886"] [] [] [] [] [] []
                                  false None []) <> []) by discriminate.
  split; [exact H1|]. split; [left; now split|]. split; [reflexivity|].
  exact (synthesize_time_range README_ROUTER
           MAINTENANCE_HISTORY_QUESTION
           (mkEntityBag [2023%Z] [] [] [js "70886"] [] [] [] [] [] []
                        false None [])
           H1 (or_introl (conj eq_refl eq_refl)) eq_refl).
Defined.

(** Scenario 2 of the specification: the year 2023 alone gives the range
    from 2023-01-01T00:00Z to 2024-01-01T00:00Z. *)
Example year_2023_range :
  time_range README_ROUTER
    (mkEntityBag [2023%Z] [] [] [js "70886"] [] [] [] [] [] [] false None [])
  = Some (mkTimeRange (mkInstant 2023 1 1 0 0) (mkInstant 2024 1 1 0 0)).
Proof. reflexivity. Qed.

(** Scenario 6 of the specification: the maintenance history archetype
    without a vehicle identifier gives no plan; the outcome names the
    missing dimension. *)
Example maintenance_history_incomplete :
  synthesize README_ROUTER MAINTENANCE_HISTORY_QUESTION EMPTY_BAG =
  Incomplete ["vehicleId"].
Proof. reflexivity. Qed.

(** * Further properties of the statement builder *)

(** ** [trim] *)

Lemma dropWhile_idem (p : N -> bool) (s : jsstring) :
  dropWhile p (dropWhile p s) = dropWhile p s.
Proof.
  induction s as [|c s IH]; [reflexivity|].
  simpl. destruct (p c) eqn:E; [exact IH|]. simpl. now rewrite E.
Qed.

Lemma trimEnd_idem (s : jsstring) : trimEnd (trimEnd s) = trimEnd s.
Proof.
  unfold trimEnd. now rewrite rev_involutive, dropWhile_idem.
Qed.

Lemma trimStart_head (s : jsstring) :
  trimStart s = [] \/
  exists c t, trimStart s = c :: t /\ is_space c = false.
Proof.
  unfold trimStart. induction s as [|c s IH]; [now left|].
  simpl. destruct (is_space c) eqn:E; [exact IH|].
  right. now exists c, s.
Qed.

Lemma trim_idem (s : jsstring) : trim (trim s) = trim s.
Proof.
  unfold trim. destruct (trimStart_head s) as [E|[c [t [E Hc]]]];
    rewrite E; [reflexivity|].
  rewrite (trimEnd_cons_unit c t Hc).
  unfold trimStart at 1. simpl dropWhile. rewrite Hc.
  now rewrite (trimEnd_cons_unit c _ Hc), trimEnd_idem.
Qed.

Lemma trim_head (s : jsstring) :
  trim s = [] \/
  exists c t, trim s = c :: t /\ is_space c = false.
Proof.
  unfold trim. destruct (trimStart_head s) as [E|[c [t [E Hc]]]]; rewrite E.
  - now left.
  - right. exists c, (trimEnd t). split; [|exact Hc].
    now apply trimEnd_cons_unit.
Qed.

(** A string is its trimmed part between two runs of white space. *)
Lemma dropWhile_split (p : N -> bool) (s : jsstring) :
  exists l, s = l ++ dropWhile p s /\ forallb p l = true.
Proof.
  induction s as [|c s [l [E F]]]; [now exists []|].
  simpl. destruct (p c) eqn:Hc.
  - exists (c :: l). simpl. now rewrite Hc, F, <- E.
  - now exists [].
Qed.

Lemma trim_split (s : jsstring) :
  exists l r, s = l ++ trim s ++ r /\
              forallb is_space l = true /\ forallb is_space r = true.
Proof.
  destruct (dropWhile_split is_space s) as [l [El Fl]].
  destruct (dropWhile_split is_space (rev (trimStart s))) as [r [Er Fr]].
  exists l, (rev r). repeat split; [|exact Fl|].
  - unfold trim, trimEnd. rewrite <- rev_app_distr, <- Er, rev_involutive.
    exact El.
  - rewrite forallb_forall in *. intros x Hx. apply Fr. now apply in_rev.
Qed.

Lemma trim_last (s : jsstring) :
  trim s = [] \/
  exists t c, trim s = t ++ [c] /\ is_space c = false.
Proof.
  unfold trim, trimEnd.
  destruct (dropWhile is_space (rev (trimStart s))) as [|c t] eqn:E;
    [now left|].
  right. exists (rev t), c. split; [reflexivity|].
  clear -E. induction (rev (trimStart s)) as [|d u IH]; [discriminate|].
  simpl in E. destruct (is_space d) eqn:D; [now apply IH|].
  now inversion E; subst.
Qed.

(** ** [cleanString] *)

(** X1: [cleanString] gives [undefined] exactly for [null], [undefined] and
    values whose text is blank; any other result is a string that is not
    empty and neither starts nor ends with white space. *)
Theorem cleanString_trimmed (val : jsval) :
  (cleanString val = JUndefined <->
   val = JNull \/ val = JUndefined \/ trim (toString val) = []) /\
  (cleanString val = JUndefined \/
   exists c t d,
     cleanString val = JStr (c :: t) /\ trim (toString val) = c :: t /\
     is_space c = false /\ last (c :: t) d = d /\ is_space d = false) /\
  truthy (cleanString val) = negb (match cleanString val with
                                   | JUndefined => true
                                   | _ => false
                                   end).
Proof.
  assert (K : forall s, match trim s with
                        | [] => JUndefined
                        | _ => JStr (trim s)
                        end = JUndefined \/
                        exists c t d,
                          match trim s with
                          | [] => JUndefined
                          | _ => JStr (trim s)
                          end = JStr (c :: t) /\ trim s = c :: t /\
                          is_space c = false /\ last (c :: t) d = d /\
                          is_space d = false).
  { intros s. pose proof (trim_last s) as L. pose proof (trim_head s) as Hh.
    destruct (trim s) as [|c t] eqn:E; [now left|]. right.
    destruct L as [L|[u [d [L Hd]]]]; [discriminate|].
    destruct Hh as [Hh|[c' [t' [Hh Hc]]]]; [discriminate|].
    inversion Hh; subst c' t'.
    exists c, t, d. repeat split; try assumption.
    - rewrite L. apply last_last. }
  split; [|split].
  - destruct val; simpl; try tauto;
      (split; [intros H; right; right|intros [H|[H|H]]; try discriminate]);
      try (destruct (trim _); [reflexivity|discriminate]);
      try (now rewrite H).
  - destruct val; try (now left); apply K.
  - destruct val; try reflexivity; simpl;
      destruct (trim _); reflexivity.
Qed.

(** X2: cleaning a cleaned value changes nothing. *)
Theorem cleanString_idempotent (val : jsval) :
  cleanString (cleanString val) = cleanString val.
Proof.
  assert (K : forall s, cleanString match trim s with
                                    | [] => JUndefined
                                    | _ => JStr (trim s)
                                    end =
                        match trim s with
                        | [] => JUndefined
                        | _ => JStr (trim s)
                        end).
  { intros s. destruct (trim s) as [|c t] eqn:E; [reflexivity|].
    unfold cleanString. change (toString (JStr (c :: t))) with (c :: t).
    rewrite <- E, trim_idem. now rewrite E. }
  destruct val; try reflexivity; apply K.
Qed.

(** ** The words of a text *)

Lemma normalizeFull_word_list (s : jsstring) :
  normalizeFull (JStr s) = unwords (word_list s).
Proof. apply normalizeFull_runs. Qed.

Lemma word_list_words (s : jsstring) : Forall word (word_list s).
Proof. apply split_runs_words. constructor. Qed.

Lemma split_runs_sep_app (sep : N -> bool) (a b cur : jsstring) (c : N) :
  sep c = true ->
  split_runs sep cur (a ++ c :: b) =
  split_runs sep cur a ++ split_runs sep [] b.
Proof.
  intros Hc. revert cur. induction a as [|x a IH]; intros cur; simpl.
  - rewrite Hc. now destruct cur.
  - destruct (sep x); [|apply IH].
    destruct cur; now rewrite IH.
Qed.

Lemma split_runs_seps_l (sep : N -> bool) (l x : jsstring) :
  forallb sep l = true -> split_runs sep [] (l ++ x) = split_runs sep [] x.
Proof.
  induction l as [|c l IH]; [reflexivity|].
  simpl. rewrite andb_true_iff. intros [-> H]. now apply IH.
Qed.

Lemma split_runs_seps_r (sep : N -> bool) (x r cur : jsstring) :
  forallb sep r = true -> split_runs sep cur (x ++ r) = split_runs sep cur x.
Proof.
  intros H. revert cur. induction x as [|c x IH]; intros cur.
  - simpl. revert cur. induction r as [|d r IHr]; intros cur; [reflexivity|].
    simpl in H. apply andb_true_iff in H as [Hd Hr]. simpl. rewrite Hd.
    destruct cur; rewrite (IHr Hr); reflexivity.
  - simpl. destruct (sep c); [|apply IH].
    destruct cur; now rewrite IH.
Qed.

Lemma folded_app (a b : jsstring) :
  map replaced_unit (toLowerCase (a ++ b)) =
  map replaced_unit (toLowerCase a) ++ map replaced_unit (toLowerCase b).
Proof. unfold toLowerCase. now rewrite flat_map_app, map_app. Qed.

Lemma folded_blank (l : jsstring) :
  forallb is_space l = true ->
  forallb separator (map replaced_unit (toLowerCase l)) = true.
Proof.
  intros H. rewrite (blank_lower l H).
  induction l as [|c l IH]; [reflexivity|].
  simpl in *. apply andb_true_iff in H as [Hc Hl].
  unfold separator at 1. now rewrite (space_replaced c Hc), IH.
Qed.

(** White space around a text does not change its words. *)
Lemma word_list_trim (s : jsstring) : word_list (trim s) = word_list s.
Proof.
  destruct (trim_split s) as [l [r [E [Hl Hr]]]].
  rewrite E at 2. unfold word_list. rewrite !folded_app.
  rewrite split_runs_seps_l by now apply folded_blank.
  now rewrite split_runs_seps_r by now apply folded_blank.
Qed.

(** A space between two texts separates their words. *)
Lemma word_list_space (a b : jsstring) :
  word_list (a ++ 32 :: b) = word_list a ++ word_list b.
Proof.
  unfold word_list.
  change (a ++ 32 :: b) with (a ++ [32] ++ b). rewrite !folded_app.
  change (map replaced_unit (toLowerCase [32])) with [32]. simpl app.
  now apply split_runs_sep_app.
Qed.

(** ** Splitting a normalised string *)

Lemma alnum_not_32 (c : N) : alnum c = true -> (c =? 32) = false.
Proof.
  intros H. apply alnum_cases in H. apply N.eqb_neq. lia.
Qed.

Lemma splitOn_app_word (w t cur : jsstring) :
  Forall (fun c => alnum c = true) w ->
  splitOn 32 cur (w ++ t) = splitOn 32 (rev w ++ cur) t.
Proof.
  revert cur. induction w as [|c w IH]; intros cur H; [reflexivity|].
  inversion H as [|? ? Hc Hw]; subst. simpl.
  rewrite (alnum_not_32 c Hc), IH by assumption. now rewrite <- app_assoc.
Qed.

Lemma splitOn_unwords (ws : list jsstring) :
  Forall word ws -> ws <> [] -> splitOn 32 [] (unwords ws) = ws.
Proof.
  induction ws as [|w rest IH]; intros H Hn; [contradiction|].
  inversion H as [|? ? [_ Hw] Hrest]; subst.
  simpl. destruct rest as [|w' rest'].
  - rewrite <- (app_nil_r w) at 1. rewrite splitOn_app_word by assumption.
    simpl. now rewrite app_nil_r, rev_involutive.
  - rewrite splitOn_app_word by assumption. rewrite app_nil_r.
    change (splitOn 32 (rev w) (32 :: unwords (w' :: rest')))
      with (rev (rev w) :: splitOn 32 [] (unwords (w' :: rest'))).
    rewrite rev_involutive, IH; [reflexivity | assumption | discriminate].
Qed.

(** X3: splitting a non-empty result of [normalizeFull] on spaces gives its
    words, each a non-empty run of lower-case letters and digits, and
    joining them with single spaces gives the string back. *)
Theorem split_normalizeFull (text : jsval) :
  normalizeFull text <> [] ->
  Forall word (split (normalizeFull text) 32) /\
  unwords (split (normalizeFull text) 32) = normalizeFull text.
Proof.
  destruct (normalizeFull_words text) as [ws [Hw E]]. rewrite E.
  intros Hn. unfold split.
  rewrite splitOn_unwords; [now split | assumption |].
  intros ->. now apply Hn.
Qed.

Lemma split_normalizeFull_witness :
  normalizeFull (JStr (js "70886 - MAN Lion")) <> [] /\
  Forall word (split (normalizeFull (JStr (js "70886 - MAN Lion"))) 32) /\
  unwords (split (normalizeFull (JStr (js "70886 - MAN Lion"))) 32) =
  normalizeFull (JStr (js "70886 - MAN Lion")).
Proof.
  assert (H : normalizeFull (JStr (js "70886 - MAN Lion")) <> [])
    by (vm_compute; discriminate).
  split; [exact H|].
  exact (split_normalizeFull (JStr (js "70886 - MAN Lion")) H).
Defined.

(** ** [extractVehicleId] and [extractCustomerId] *)

Lemma first_word (ws : list jsstring) :
  Forall word ws ->
  first_or_unknown (split (unwords ws) 32) =
  match ws with [] => UNKNOWN | w :: _ => w end.
Proof.
  intros H. destruct ws as [|w rest]; [reflexivity|].
  unfold split. rewrite splitOn_unwords; [|assumption|discriminate].
  inversion H as [|? ? [Hn _] _]; subst.
  now destruct w.
Qed.

Lemma word_not_unknown (w : jsstring) : word w -> w <> UNKNOWN.
Proof.
  intros [_ H] ->. inversion H as [|? ? Hc _]. discriminate.
Qed.

(** X4: the vehicle id is either the sentinel [UNKNOWN], exactly when the
    cleaned cell normalises to nothing, or the first word of the normalised
    cell: a non-empty run of lower-case letters and digits, never the
    sentinel. *)
Theorem extractVehicleId_first_word (aracData : jsval) :
  (extractVehicleId aracData = UNKNOWN /\
   normalizeFull (cleanString aracData) = []) \/
  (exists ws,
     Forall word (extractVehicleId aracData :: ws) /\
     normalizeFull (cleanString aracData) =
       unwords (extractVehicleId aracData :: ws) /\
     extractVehicleId aracData <> UNKNOWN).
Proof.
  unfold extractVehicleId.
  destruct (truthy (cleanString aracData)) eqn:T; simpl negb; cbv iota.
  - destruct (normalizeFull_words (cleanString aracData)) as [ws [Hw E]].
    rewrite E, (first_word ws Hw).
    destruct ws as [|w rest]; [now left|]. right.
    exists rest. repeat split; try assumption.
    apply word_not_unknown. now inversion Hw.
  - left. split; [reflexivity|].
    rewrite normalizeFull_toString. now rewrite T.
Qed.

(** X5: the customer id is computed like the vehicle id. *)
Theorem extractCustomerId_first_word (musteriData : jsval) :
  (extractCustomerId musteriData = UNKNOWN /\
   normalizeFull (cleanString musteriData) = []) \/
  (exists ws,
     Forall word (extractCustomerId musteriData :: ws) /\
     normalizeFull (cleanString musteriData) =
       unwords (extractCustomerId musteriData :: ws) /\
     extractCustomerId musteriData <> UNKNOWN).
Proof.
  unfold extractCustomerId.
  destruct (truthy (cleanString musteriData)) eqn:T; simpl negb; cbv iota.
  - destruct (normalizeFull_words (cleanString musteriData)) as [ws [Hw E]].
    rewrite E, (first_word ws Hw).
    destruct ws as [|w rest]; [now left|]. right.
    exists rest. repeat split; try assumption.
    apply word_not_unknown. now inversion Hw.
  - left. split; [reflexivity|].
    rewrite normalizeFull_toString. now rewrite T.
Qed.

Lemma extractVehicleId_string (s : jsstring) :
  extractVehicleId (JStr s) =
  match word_list s with [] => UNKNOWN | w :: _ => w end.
Proof.
  unfold extractVehicleId, cleanString.
  change (toString (JStr s)) with s.
  rewrite <- (word_list_trim s).
  destruct (trim s) as [|c t] eqn:E; [reflexivity|].
  change (negb (truthy (JStr (c :: t)))) with false. cbv iota.
  rewrite normalizeFull_word_list.
  apply first_word, word_list_words.
Qed.

Lemma ascii_alnum_lower (c : N) :
  ascii_alnum c = true ->
  exists d, lower_unit c = [d] /\ alnum d = true.
Proof.
  unfold ascii_alnum. rewrite orb_true_iff. intros [H|H].
  - exists c. split; [now apply alnum_lower | exact H].
  - unfold in_range in H. cmp_to_prop H. exists (c + 32). split.
    + unfold lower_unit, in_range. decide_cmp. reflexivity.
    + apply alnum_cases. lia.
Qed.

Lemma ascii_alnum_lowered (w : jsstring) :
  Forall (fun c => ascii_alnum c = true) w ->
  Forall (fun c => alnum c = true) (toLowerCase w) /\
  List.length (toLowerCase w) = List.length w.
Proof.
  unfold toLowerCase. induction 1 as [|c w Hc _ [IH1 IH2]]; [now split|].
  destruct (ascii_alnum_lower c Hc) as [d [E Hd]].
  simpl. rewrite E. simpl. split; [now constructor | now rewrite IH2].
Qed.

Lemma word_list_ascii (w : jsstring) :
  w <> [] -> Forall (fun c => ascii_alnum c = true) w ->
  word_list w = [toLowerCase w].
Proof.
  intros Hn H. destruct (ascii_alnum_lowered w H) as [Ha Hl].
  unfold word_list. rewrite plain_replaced.
  - rewrite <- (app_nil_r (toLowerCase w)) at 1.
    rewrite split_runs_app by assumption. rewrite app_nil_r. simpl.
    destruct (rev (toLowerCase w)) eqn:E.
    + apply (f_equal (@List.length N)) in E. rewrite length_rev, Hl in E.
      destruct w; [contradiction | discriminate].
    + now rewrite <- E, rev_involutive.
  - eapply Forall_impl; [|exact Ha]. now left.
Qed.

(** X6: when the cell starts with a run of Basic Latin letters and digits
    that ends at a space or at the end of the cell, the vehicle id is that
    run in lower case; what follows the space is ignored. *)
Theorem extractVehicleId_leading_token (w rest : jsstring) :
  w <> [] -> Forall (fun c => ascii_alnum c = true) w ->
  extractVehicleId (JStr (w ++ 32 :: rest)) = toLowerCase w /\
  extractVehicleId (JStr w) = toLowerCase w.
Proof.
  intros Hn H. rewrite !extractVehicleId_string, word_list_space.
  now rewrite (word_list_ascii w Hn H).
Qed.

Lemma extractVehicleId_leading_token_witness :
  js "34ABC123" <> [] /\
  Forall (fun c => ascii_alnum c = true) (js "34ABC123") /\
  extractVehicleId (JStr (js "34ABC123" ++ 32 :: js "- MAN Lion's")) =
    toLowerCase (js "34ABC123") /\
  extractVehicleId (JStr (js "34ABC123")) = toLowerCase (js "34ABC123").
Proof.
  assert (H1 : js "34ABC123" <> []) by discriminate.
  assert (H2 : Forall (fun c => ascii_alnum c = true) (js "34ABC123"))
    by (repeat constructor).
  split; [exact H1|]. split; [exact H2|].
  exact (extractVehicleId_leading_token (js "34ABC123") (js "- MAN Lion's") H1 H2).
Defined.

(** ** [detectMaintenancePackage] *)

Lemma VERB_MAP_not_completed (k : VerbKey) :
  verb_id (VERB_MAP k) <> COMPLETED_ID.
Proof. destruct k; vm_compute; discriminate. Qed.

(** X7: an operation type in which the EURO6 maintenance package is
    detected never gets the fallback verb: its verb is one of the entries of
    [VERB_MAP], the maintenance verb unless "onarim" or "aksiyon" is
    present too. *)
Theorem detectMaintenancePackage_verb (islemturu : jsval) :
  detectMaintenancePackage islemturu <> None ->
  detectMaintenancePackage islemturu = Some (js "euro6_cde_maintenance") /\
  (exists k, getVerb islemturu = VERB_MAP k) /\
  verb_id (getVerb islemturu) <> COMPLETED_ID /\
  (let n := normalizeFull (or_else islemturu (JStr [])) in
   ~ contains n (js "onarim") -> ~ contains n (js "aksiyon") ->
   getVerb islemturu = VERB_MAP BAKIM).
Proof.
  unfold detectMaintenancePackage, getVerb.
  set (n := normalizeFull (or_else islemturu (JStr []))).
  destruct (includes n (js "euro6")) eqn:E6; [|intros H; now contradiction H].
  destruct (includes n (js "bakim")) eqn:Eb; [|intros H; now contradiction H].
  intros _. split; [reflexivity|].
  assert (K : exists k,
             (if includes n (js "onarim") && includes n (js "kaza")
              then VERB_MAP ONARIM_KAZA
              else if includes n (js "aksiyon") then VERB_MAP AKSIYON
              else if includes n (js "2") && includes n (js "el")
                      && includes n (js "onarim")
              then VERB_MAP ONARIM
              else if includes n (js "onarim") then VERB_MAP ONARIM
              else if true then VERB_MAP BAKIM
              else mkVerb COMPLETED_ID
                     (or_else islemturu (JStr (js "Tamamland" ++ [305])))
                     (js "Completed")) = VERB_MAP k).
  { destruct (includes n (js "onarim") && includes n (js "kaza"));
      [now exists ONARIM_KAZA|].
    destruct (includes n (js "aksiyon")); [now exists AKSIYON|].
    destruct (includes n (js "2") && includes n (js "el")
              && includes n (js "onarim")); [now exists ONARIM|].
    destruct (includes n (js "onarim")); [now exists ONARIM|].
    now exists BAKIM. }
  split; [exact K|]. split.
  - destruct K as [k ->]. apply VERB_MAP_not_completed.
  - intros H1 H2. apply includes_false in H1, H2.
    rewrite H1, H2. cbn [andb]. now rewrite andb_false_r.
Qed.

Lemma detectMaintenancePackage_verb_witness :
  detectMaintenancePackage (JStr (js "EURO6 C-D-E BAKIM")) <> None /\
  verb_id (getVerb (JStr (js "EURO6 C-D-E BAKIM"))) <> COMPLETED_ID.
Proof.
  assert (H : detectMaintenancePackage (JStr (js "EURO6 C-D-E BAKIM")) <> None)
    by (vm_compute; discriminate).
  split; [exact H|].
  exact (proj1 (proj2 (proj2
           (detectMaintenancePackage_verb (JStr (js "EURO6 C-D-E BAKIM")) H)))).
Defined.

(** ** [uuidv4] *)

Lemma random_nibble (x : Q) :
  (0 <= x)%Q -> (x < 1)%Q -> (0 <= toInt32 (x * 16) < 16)%Z.
Proof.
  intros H0 H1. unfold toInt32, truncate.
  assert (P0 : (0 <= x * 16)%Q) by lra.
  assert (P1 : (x * 16 < 16)%Q) by lra.
  apply Qle_bool_iff in P0 as B. rewrite B.
  assert (F0 : (0 <= Qfloor (x * 16))%Z).
  { change 0%Z with (Qfloor 0). now apply Qfloor_resp_le. }
  assert (F1 : (Qfloor (x * 16) < 16)%Z).
  { rewrite Zlt_Qlt. eapply Qle_lt_trans; [apply Qfloor_le | exact P1]. }
  rewrite Z.mod_small; lia.
Qed.

Lemma nibble_cases (r : Z) :
  (0 <= r < 16)%Z -> exists n, (n < 16)%nat /\ r = Z.of_nat n.
Proof. intros H. exists (Z.to_nat r). lia. Qed.

Lemma nibble_hex (r : Z) :
  (0 <= r < 16)%Z ->
  exists c, toString16 r = [c] /\ lower_hex c = true.
Proof.
  intros H. destruct (nibble_cases r H) as [n [Hn ->]].
  do 16 (destruct n as [|n]; [eexists; split; reflexivity|]). lia.
Qed.

Lemma nibble_variant (r : Z) :
  (0 <= r < 16)%Z ->
  exists c, toString16 (Z.lor (Z.land r 3) 8) = [c] /\ fits 121 c = true.
Proof.
  intros H. destruct (nibble_cases r H) as [n [Hn ->]].
  do 16 (destruct n as [|n]; [eexists; split; reflexivity|]). lia.
Qed.

Lemma replaceWith_template (cls : N -> bool)
    (f : N -> nat -> jsstring * nat) (t : jsstring) :
  (forall c k, cls c = true ->
     exists d, f c k = ([d], S k) /\ fits c d = true) ->
  (forall c, In c t -> cls c = false -> fits c c = true) ->
  forall drawn,
    matches_template t (fst (replaceWith cls f t drawn)) = true /\
    snd (replaceWith cls f t drawn) =
      (drawn + List.length (filter cls t))%nat.
Proof.
  intros Hf. induction t as [|c t IH]; intros Ht drawn.
  - simpl. split; [reflexivity | lia].
  - assert (Ht' : forall x, In x t -> cls x = false -> fits x x = true)
      by (intros x Hx; apply Ht; now right).
    simpl. destruct (cls c) eqn:E.
    + destruct (Hf c drawn E) as [d [-> Hd]].
      destruct (IH Ht' (S drawn)) as [M Sn].
      destruct (replaceWith cls f t (S drawn)) as [rest n]. simpl in *.
      rewrite Hd, M. split; [reflexivity | lia].
    + destruct (IH Ht' drawn) as [M Sn].
      destruct (replaceWith cls f t drawn) as [rest n]. simpl in *.
      rewrite (Ht c (or_introl eq_refl) E), M. now split.
Qed.

Lemma matches_template_length (t u : jsstring) :
  matches_template t u = true -> List.length u = List.length t.
Proof.
  revert u. induction t as [|x t IH]; intros [|c u]; simpl; try discriminate.
  - reflexivity.
  - rewrite andb_true_iff. intros [_ H]. now rewrite (IH u H).
Qed.

Lemma matches_template_nth (t u : jsstring) :
  matches_template t u = true ->
  forall i x, nth_error t i = Some x ->
  exists c, nth_error u i = Some c /\ fits x c = true.
Proof.
  revert u. induction t as [|y t IH]; intros [|d u] M i x E;
    simpl in M; try discriminate.
  - now destruct i.
  - apply andb_true_iff in M as [F M]. destruct i as [|i].
    + inversion E; subst. now exists d.
    + now apply (IH u M i x).
Qed.

(** X8: whatever [Math.random] returns within its range, [uuidv4] yields
    the text of a version 4 UUID: 36 characters, hyphens after the 8th,
    12th, 16th and 20th digit, lower-case hexadecimal digits elsewhere, the
    version digit 4 and a variant digit among 8, 9, a, b; it draws exactly
    31 random numbers. *)
Theorem uuidv4_well_formed (random : nat -> Q) (drawn : nat) :
  (forall k, (0 <= random k)%Q /\ (random k < 1)%Q) ->
  is_uuid_v4 (fst (uuidv4 random drawn)) = true /\
  List.length (fst (uuidv4 random drawn)) = 36%nat /\
  nth_error (fst (uuidv4 random drawn)) 14 = Some 52 /\
  snd (uuidv4 random drawn) = (drawn + 31)%nat.
Proof.
  intros R. unfold uuidv4, is_uuid_v4.
  match goal with
  | |- context [replaceWith ?cls ?f ?t drawn] =>
      destruct (replaceWith_template cls f t) with (drawn := drawn)
        as [M Sn]
  end.
  - intros c k Hc. destruct (R k) as [R0 R1].
    pose proof (random_nibble (random k) R0 R1) as Hr.
    apply orb_true_iff in Hc as [Hc|Hc]; apply N.eqb_eq in Hc; subst c.
    + destruct (nibble_hex _ Hr) as [d [E Hd]].
      exists d. simpl N.eqb. cbv iota. now rewrite E.
    + destruct (nibble_variant _ Hr) as [d [E Hd]].
      exists d. simpl N.eqb. cbv iota. now rewrite E.
  - intros c Hc E. apply orb_false_iff in E as [E1 E2].
    unfold fits. now rewrite E1, E2, N.eqb_refl.
  - split; [exact M|]. split; [|split; [|exact Sn]].
    + now rewrite (matches_template_length _ _ M).
    + destruct (matches_template_nth _ _ M 14%nat 52 eq_refl) as [c [E F]].
      change (fits 52 c) with (c =? 52) in F. apply N.eqb_eq in F.
      now rewrite E, F.
Qed.

Lemma uuidv4_well_formed_witness :
  (forall k, (0 <= Z.of_nat (k mod 7)%nat # 7)%Q /\
             (Z.of_nat (k mod 7)%nat # 7 < 1)%Q) /\
  is_uuid_v4 (fst (uuidv4 (fun k => (Z.of_nat (k mod 7)%nat # 7)%Q) 0)) = true.
Proof.
  assert (R : forall k, (0 <= Z.of_nat (k mod 7)%nat # 7)%Q /\
                        (Z.of_nat (k mod 7)%nat # 7 < 1)%Q).
  { intros k.
    assert (k mod 7 < 7)%nat by (apply Nat.mod_upper_bound; discriminate).
    unfold Qle, Qlt. cbn [Qnum Qden]. lia. }
  split; [exact R|].
  exact (proj1 (uuidv4_well_formed (fun k => (Z.of_nat (k mod 7)%nat # 7)%Q) 0 R)).
Defined.

Example uuidv4_sample :
  fst (uuidv4 (fun k => (Z.of_nat (k mod 7)%nat # 7)%Q) 0) =
  js "02469bd0-2469-4bd0-a469-bd02469bd024".
Proof. vm_compute. reflexivity. Qed.

(** ** How [normalizeFull] composes *)

Lemma unwords_app (xs ys : list jsstring) :
  Forall word xs -> Forall word ys ->
  unwords (xs ++ ys) = join_space (unwords xs) (unwords ys).
Proof.
  assert (NE : forall l, Forall word l -> Forall (fun w => w <> []) l)
    by (intros l H; eapply Forall_impl; [|exact H]; now intros ? []).
  intros Hx Hy. induction xs as [|w rest IH]; [reflexivity|].
  inversion Hx as [|? ? [Hn Hw] Hrest]; subst.
  change ((w :: rest) ++ ys) with (w :: (rest ++ ys)).
  rewrite !unwords_cons by (try apply NE; try apply Forall_app; auto).
  rewrite (IH Hrest).
  destruct w as [|c w]; [contradiction|].
  destruct (unwords rest) as [|a x], (unwords ys) as [|b y]; simpl;
    rewrite ?app_nil_r, <- ?app_assoc; reflexivity.
Qed.

Lemma word_list_separator (a b : jsstring) (c : N) :
  c <> 304 -> alnum (fold_char c) = false ->
  word_list (a ++ c :: b) = word_list a ++ word_list b.
Proof.
  intros Hc Hs. unfold word_list.
  change (a ++ c :: b) with (a ++ [c] ++ b). rewrite !folded_app.
  assert (E : map replaced_unit (toLowerCase [c]) = [fold_char c]).
  { unfold toLowerCase. simpl. rewrite (lower_unit_single c Hc). simpl.
    destruct (lowered_no_upper c Hc) as (U1 & U2 & U3 & U4 & U5 & U6).
    unfold fold_char. now rewrite replaced_turkish. }
  rewrite E. simpl app. apply split_runs_sep_app.
  unfold separator. now rewrite Hs.
Qed.

(** X9: any character that folds to something other than a letter or a
    digit cuts the text in two: the result for [a], the character and [b]
    in a row is the results for [a] and for [b], with one space between them
    when both are non-empty.  (A capital dotted I is excluded.) *)
Theorem normalizeFull_separator (a b : jsstring) (c : N) :
  c <> 304 -> alnum (fold_char c) = false ->
  normalizeFull (JStr (a ++ c :: b)) =
  join_space (normalizeFull (JStr a)) (normalizeFull (JStr b)).
Proof.
  intros Hc Hs. rewrite !normalizeFull_word_list.
  rewrite (word_list_separator a b c Hc Hs).
  apply unwords_app; apply word_list_words.
Qed.

Lemma normalizeFull_separator_witness :
  47 <> 304 /\ alnum (fold_char 47) = false /\
  normalizeFull (JStr (js "R540" ++ 47 :: js "Istanbul")) =
  join_space (normalizeFull (JStr (js "R540")))
             (normalizeFull (JStr (js "Istanbul"))).
Proof.
  assert (H1 : 47 <> 304) by discriminate.
  assert (H2 : alnum (fold_char 47) = false) by reflexivity.
  split; [exact H1|]. split; [exact H2|].
  exact (normalizeFull_separator (js "R540") (js "Istanbul") 47 H1 H2).
Defined.

(** X10: on a string, cleaning before normalising is redundant: white
    space around the text does not reach the result. *)
Theorem normalizeFull_cleanString (s : jsstring) :
  normalizeFull (cleanString (JStr s)) = normalizeFull (JStr s) /\
  normalizeFull (JStr (trim s)) = normalizeFull (JStr s).
Proof.
  assert (T : normalizeFull (JStr (trim s)) = normalizeFull (JStr s))
    by now rewrite !normalizeFull_word_list, word_list_trim.
  split; [|exact T]. rewrite <- T. unfold cleanString.
  change (toString (JStr s)) with s.
  now destruct (trim s).
Qed.

Lemma lower_unit_idem_small :
  forallb (fun n => let c := N.of_nat n in
                    str_eqb (flat_map lower_unit (lower_unit c)) (lower_unit c))
          (seq 0 (N.to_nat 8492)) = true.
Proof. vm_compute. reflexivity. Qed.

Lemma lower_unit_idem (c : N) :
  flat_map lower_unit (lower_unit c) = lower_unit c.
Proof.
  destruct (N.ltb_spec c 8492) as [L|G].
  - pose proof lower_unit_idem_small as H. rewrite forallb_forall in H.
    specialize (H (N.to_nat c)). rewrite N2Nat.id in H.
    apply str_eqb_eq, H, in_seq. lia.
  - assert (E : lower_unit c = [c])
      by (unfold lower_unit, in_range; decide_cmp; reflexivity).
    rewrite E. simpl. now rewrite E.
Qed.

Lemma toLowerCase_idem (s : jsstring) :
  toLowerCase (toLowerCase s) = toLowerCase s.
Proof.
  unfold toLowerCase. induction s as [|c s IH]; [reflexivity|].
  simpl. now rewrite flat_map_app, lower_unit_idem, IH.
Qed.

(** X11: lower-casing a text beforehand does not change what
    [normalizeFull] makes of it. *)
Theorem normalizeFull_toLowerCase (s : jsstring) :
  normalizeFull (JStr (toLowerCase s)) = normalizeFull (JStr s).
Proof.
  rewrite !normalizeFull_runs. now rewrite toLowerCase_idem.
Qed.

(** ** More on [toNumber] *)

Lemma trim_blank_around (l s r : jsstring) :
  forallb is_space l = true -> forallb is_space r = true ->
  trim (l ++ s ++ r) = trim s.
Proof.
  intros Hl Hr. unfold trim, trimStart.
  assert (L : forall x, dropWhile is_space (l ++ x) = dropWhile is_space x).
  { intros x. induction l as [|c l IH]; [reflexivity|].
    simpl in *. apply andb_true_iff in Hl as [-> Hl]. now apply IH. }
  assert (B : forall b, forallb is_space b = true -> dropWhile is_space b = []).
  { induction b as [|c b IH]; [reflexivity|].
    simpl. rewrite andb_true_iff. intros [-> H]. now apply IH. }
  assert (R : forall x, trimEnd (x ++ r) = trimEnd x).
  { intros x. unfold trimEnd. rewrite rev_app_distr, dropWhile_app.
    rewrite B; [reflexivity|].
    rewrite forallb_forall in *. intros y Hy. apply Hr. now apply in_rev. }
  rewrite L, dropWhile_app.
  destruct (dropWhile is_space s) as [|c t] eqn:E.
  - now rewrite (B r Hr).
  - apply R.
Qed.

(** X12: white space before and after the text of a number is ignored. *)
Theorem toNumber_blank_around (l s r : jsstring) :
  forallb is_space l = true -> forallb is_space r = true ->
  toNumber (JStr (l ++ s ++ r)) = toNumber (JStr s).
Proof.
  intros Hl Hr. rewrite !toNumber_string.
  now rewrite (trim_blank_around l s r Hl Hr).
Qed.

Lemma toNumber_blank_around_witness :
  forallb is_space (js "  ") = true /\ forallb is_space [9; 10] = true /\
  toNumber (JStr (js "  " ++ js "12,5" ++ [9; 10])) = toNumber (JStr (js "12,5")).
Proof.
  split; [reflexivity|]. split; [reflexivity|].
  exact (toNumber_blank_around (js "  ") (js "12,5") [9; 10] eq_refl eq_refl).
Defined.

Lemma span_digits_shape (s d r : jsstring) :
  span_digits s = (d, r) ->
  s = d ++ r /\ Forall (fun c => is_digit c = true) d /\
  match r with [] => True | c :: _ => is_digit c = false end.
Proof.
  revert d r. induction s as [|c s IH]; intros d r; simpl.
  - intros E. inversion E. now repeat split.
  - destruct (is_digit c) eqn:D.
    + destruct (span_digits s) as [d' r'] eqn:E'. intros E. inversion E; subst.
      destruct (IH d' r eq_refl) as (-> & F & G). repeat split; auto.
    + intros E. inversion E; subst. now repeat split.
Qed.

Lemma digits_no_period (d : jsstring) :
  Forall (fun c => is_digit c = true) d -> count_occ N.eq_dec d 46 = 0%nat.
Proof.
  intros H. apply (count_occ_not_In N.eq_dec). intros Q.
  rewrite Forall_forall in H. now apply H in Q.
Qed.

Lemma parseExponent_eq (s : jsstring) :
  parseExponent s =
  let body (neg : bool) (r : jsstring) :=
    match span_digits r with
    | (d :: ds, []) =>
        let v := Z.of_N (decimal_value (d :: ds)) in
        Some (if neg then (- v)%Z else v)
    | _ => None
    end in
  match s with
  | [] => None
  | c :: r =>
      if c =? 43 then body false r
      else if c =? 45 then body true r
      else body false s
  end.
Proof.
  destruct s as [|c r]; [reflexivity|].
  by_unit_cases c reflexivity.
Qed.

Lemma parseExponent_no_period (r : jsstring) (x : Z) :
  parseExponent r = Some x -> count_occ N.eq_dec r 46 = 0%nat.
Proof.
  assert (B : forall neg t,
            match span_digits t with
            | (d :: ds, []) =>
                Some (if neg : bool
                      then (- Z.of_N (decimal_value (d :: ds)))%Z
                      else Z.of_N (decimal_value (d :: ds)))
            | _ => None
            end = Some x -> count_occ N.eq_dec t 46 = 0%nat).
  { intros neg t H. destruct (span_digits t) as [d rest] eqn:E.
    apply span_digits_shape in E as (-> & F & _).
    destruct d; [discriminate|]. destruct rest; [|discriminate].
    rewrite app_nil_r. now apply digits_no_period. }
  rewrite parseExponent_eq. cbv zeta.
  destruct r as [|c r]; [discriminate|].
  destruct (N.eqb_spec c 43) as [->|N1].
  - intros H. rewrite count_occ_cons_neq by discriminate. exact (B false _ H).
  - destruct (N.eqb_spec c 45) as [->|N2].
    + intros H. rewrite count_occ_cons_neq by discriminate.
      exact (B true _ H).
    + exact (B false (c :: r)).
Qed.

Lemma parseUnsignedDecimal_periods (neg : bool) (s : jsstring) :
  parseUnsignedDecimal neg s <> NaN ->
  (count_occ N.eq_dec s 46%N <= 1)%nat.
Proof.
  unfold parseUnsignedDecimal.
  destruct (str_eqb s (js "Infinity")) eqn:EI.
  { intros _. apply str_eqb_eq in EI. subst. vm_compute. lia. }
  destruct (span_digits s) as [ip r1] eqn:E1.
  apply span_digits_shape in E1 as (-> & Fip & _).
  rewrite fraction_eq, count_occ_app, (digits_no_period ip Fip).
  assert (K : forall fp r2,
             match ip ++ fp with
             | [] => NaN
             | n :: l =>
                 match r2 with
                 | [] => Dec neg (decimal_value (n :: l))
                             (- Z.of_nat (List.length fp))
                 | c :: r3 =>
                     if (c =? 101) || (c =? 69)
                     then match parseExponent r3 with
                          | Some x => Dec neg (decimal_value (n :: l))
                                          (x + - Z.of_nat (List.length fp))
                          | None => NaN
                          end
                     else NaN
                 end
             end <> NaN ->
             count_occ N.eq_dec r2 46 = 0%nat).
  { intros fp r2 H. destruct (ip ++ fp); [contradiction|].
    destruct r2 as [|c r3]; [reflexivity|].
    destruct ((c =? 101) || (c =? 69)) eqn:Ee; [|contradiction].
    destruct (parseExponent r3) as [x|] eqn:Ex; [|contradiction].
    rewrite count_occ_cons_neq.
    - now apply parseExponent_no_period in Ex.
    - apply orb_true_iff in Ee as [Ee|Ee]; apply N.eqb_eq in Ee;
        subst; discriminate. }
  destruct r1 as [|c r]; [simpl; lia|].
  destruct (N.eqb_spec c 46) as [->|Hc].
  - destruct (span_digits r) as [fp r2] eqn:E2.
    apply span_digits_shape in E2 as (-> & Ffp & _).
    intros H. apply K in H.
    rewrite count_occ_cons_eq by reflexivity.
    rewrite count_occ_app, (digits_no_period fp Ffp), H. lia.
  - intros H. apply (K [] (c :: r)) in H. rewrite H. lia.
Qed.

Lemma parseRadix_periods (b : N) (s : jsstring) :
  parseRadix b s <> NaN -> count_occ N.eq_dec s 46 = 0%nat.
Proof.
  unfold parseRadix. destruct s as [|c s]; [reflexivity|].
  destruct (radix_value b 0 (c :: s)) eqn:E; [|contradiction].
  intros _. apply (count_occ_not_In N.eq_dec). intros Q.
  revert E. generalize 0. induction (c :: s) as [|d t IH]; [contradiction|].
  intros acc. simpl.
  destruct (hex_value d) as [h|] eqn:Hd; [|discriminate].
  destruct (h <? b); [|discriminate].
  destruct Q as [->|Q]; [discriminate Hd | now apply IH].
Qed.

Lemma parseNumericLiteral_periods (s : jsstring) :
  parseNumericLiteral s <> NaN -> (count_occ N.eq_dec s 46%N <= 1)%nat.
Proof.
  rewrite parseNumericLiteral_eq.
  destruct s as [|c0 rest]; [simpl; lia|].
  destruct (N.eqb_spec c0 48) as [->|N0].
  - destruct rest as [|c r]; [simpl; lia|].
    destruct ((c =? 120) || (c =? 88)) eqn:Ex.
    { intros H. apply parseRadix_periods in H.
      rewrite !count_occ_cons_neq; [lia | | discriminate].
      apply orb_true_iff in Ex as [E|E]; apply N.eqb_eq in E;
        subst; discriminate. }
    destruct ((c =? 111) || (c =? 79)) eqn:Eo.
    { intros H. apply parseRadix_periods in H.
      rewrite !count_occ_cons_neq; [lia | | discriminate].
      apply orb_true_iff in Eo as [E|E]; apply N.eqb_eq in E;
        subst; discriminate. }
    destruct ((c =? 98) || (c =? 66)) eqn:Eb.
    { intros H. apply parseRadix_periods in H.
      rewrite !count_occ_cons_neq; [lia | | discriminate].
      apply orb_true_iff in Eb as [E|E]; apply N.eqb_eq in E;
        subst; discriminate. }
    apply parseUnsignedDecimal_periods.
  - destruct (N.eqb_spec c0 43) as [->|N1].
    { intros H. rewrite count_occ_cons_neq by discriminate.
      now apply parseUnsignedDecimal_periods in H. }
    destruct (N.eqb_spec c0 45) as [->|N2].
    { intros H. rewrite count_occ_cons_neq by discriminate.
      now apply parseUnsignedDecimal_periods in H. }
    apply parseUnsignedDecimal_periods.
Qed.

Lemma replaceFirstUnit_count_to (x y : N) (s : jsstring) :
  x <> y -> In x s ->
  count_occ N.eq_dec (replaceFirstUnit x y s) y =
  S (count_occ N.eq_dec s y).
Proof.
  intros Hxy. induction s as [|c s IH]; [contradiction|].
  intros H. simpl replaceFirstUnit. destruct (N.eqb_spec c x) as [->|Hc].
  - rewrite (count_occ_cons_eq N.eq_dec s (eq_refl y)).
    now rewrite count_occ_cons_neq by assumption.
  - destruct H as [->|H]; [contradiction|].
    destruct (N.eq_dec c y) as [->|Hy].
    + rewrite !(count_occ_cons_eq N.eq_dec _ (eq_refl y)). now rewrite IH.
    + rewrite !count_occ_cons_neq by assumption. now apply IH.
Qed.

(** X13: a text that holds both a comma and a period, such as an amount
    with thousands separators ("1.234,56"), gives [undefined]: once the
    comma is a period, two periods are left. *)
Theorem toNumber_comma_and_period (s : jsstring) :
  In 44 s -> In 46 s -> toNumber (JStr s) = None.
Proof.
  intros Hc Hp. rewrite toNumber_string.
  apply (trim_In 44 s) in Hc; [|reflexivity].
  apply (count_occ_In N.eq_dec) in Hp.
  rewrite <- (trim_count 46 s eq_refl) in Hp.
  destruct (trim s) as [|d u] eqn:E; [reflexivity|]. cbv zeta.
  assert (P : (2 <= count_occ N.eq_dec
                      (trim (replaceFirstUnit 44%N 46%N (d :: u))) 46%N)%nat).
  { rewrite trim_count by reflexivity.
    rewrite replaceFirstUnit_count_to by (discriminate || assumption). lia. }
  unfold stringToNumber.
  destruct (trim (replaceFirstUnit 44 46 (d :: u))) as [|a t] eqn:T;
    [simpl in P; lia|].
  destruct (parseNumericLiteral (a :: t)) eqn:Q; [reflexivity| |];
    assert (Q' : parseNumericLiteral (a :: t) <> NaN) by congruence;
    apply parseNumericLiteral_periods in Q'; lia.
Qed.

Lemma toNumber_comma_and_period_witness :
  In 44 (js "1.234,56") /\ In 46 (js "1.234,56") /\
  toNumber (JStr (js "1.234,56")) = None.
Proof.
  assert (H1 : In 44 (js "1.234,56")) by (vm_compute; tauto).
  assert (H2 : In 46 (js "1.234,56")) by (vm_compute; tauto).
  split; [exact H1|]. split; [exact H2|].
  exact (toNumber_comma_and_period (js "1.234,56") H1 H2).
Defined.

(** ** Numbers written and read back *)

Lemma uint_units_digits (d : Decimal.uint) :
  Forall (fun c => is_digit c = true) (uint_units d).
Proof. induction d; simpl; constructor; auto. Qed.

Lemma of_uint_acc_fold (d : Decimal.uint) (acc : positive) :
  N.pos (Pos.of_uint_acc d acc) =
  fold_left (fun a c => 10 * a + digit_value c) (uint_units d) (N.pos acc).
Proof.
  revert acc.
  induction d; intros acc; cbn [Pos.of_uint_acc uint_units fold_left];
    [reflexivity|..]; rewrite IHd; f_equal; unfold digit_value; lia.
Qed.

Lemma of_uint_fold (d : Decimal.uint) :
  N.of_uint d = decimal_value (uint_units d).
Proof.
  unfold N.of_uint, decimal_value.
  induction d; cbn [Pos.of_uint uint_units fold_left];
    [reflexivity | exact IHd |..]; now rewrite of_uint_acc_fold.
Qed.

Lemma digits_value (n : N) : decimal_value (digits n) = n.
Proof.
  unfold digits. rewrite <- of_uint_fold. apply Stdlib.Numbers.DecimalN.Unsigned.of_to.
Qed.

Lemma digits_digits (n : N) : Forall (fun c => is_digit c = true) (digits n).
Proof. apply uint_units_digits. Qed.

Lemma digits_nonempty (n : N) : digits n <> [].
Proof.
  intros E. pose proof (digits_value n) as V. rewrite E in V.
  subst n. discriminate E.
Qed.

Lemma fold_digits (b : jsstring) (acc : N) :
  fold_left (fun a c => 10 * a + digit_value c) b acc =
  acc * 10 ^ N.of_nat (List.length b) + decimal_value b.
Proof.
  unfold decimal_value. revert acc.
  induction b as [|c b IH]; intros acc.
  - simpl. lia.
  - cbn [fold_left List.length]. rewrite IH, (IH (10 * 0 + digit_value c)).
    rewrite Nat2N.inj_succ, N.pow_succ_r'. lia.
Qed.

Lemma decimal_value_app (a b : jsstring) :
  decimal_value (a ++ b) =
  decimal_value a * 10 ^ N.of_nat (List.length b) + decimal_value b.
Proof.
  unfold decimal_value at 1. rewrite fold_left_app. apply fold_digits.
Qed.

Lemma decimal_value_zeros (t : nat) : decimal_value (repeat 48 t) = 0.
Proof.
  induction t as [|t IH]; [reflexivity|].
  change (repeat 48 (S t)) with ([48] ++ repeat 48 t).
  rewrite decimal_value_app, IH. reflexivity.
Qed.

Lemma zeros_digits (t : nat) : Forall (fun c => is_digit c = true) (repeat 48 t).
Proof. induction t; simpl; constructor; auto. Qed.

Lemma all_zeros (l : jsstring) :
  forallb (N.eqb 48) l = true -> l = repeat 48 (List.length l).
Proof.
  induction l as [|c l IH]; [reflexivity|].
  cbn [forallb List.length repeat].
  rewrite andb_true_iff, N.eqb_eq. intros [<- H]. now rewrite <- IH.
Qed.

(** The digits without their trailing zeros, and how many were cut. *)
Lemma strip_zeros (all : jsstring) :
  let ds := rev (dropWhile (N.eqb 48) (rev all)) in
  exists t, all = ds ++ repeat 48 t /\
            List.length all = (List.length ds + t)%nat.
Proof.
  simpl. destruct (dropWhile_split (N.eqb 48) (rev all)) as [l [E F]].
  exists (List.length l).
  assert (A : all = rev (dropWhile (N.eqb 48) (rev all)) ++ rev l).
  { rewrite <- rev_app_distr, <- E. now rewrite rev_involutive. }
  assert (Z : rev l = repeat 48 (List.length l)).
  { rewrite <- (length_rev l). apply all_zeros.
    rewrite forallb_forall in *. intros x Hx. apply F. now apply in_rev. }
  split.
  - now rewrite <- Z.
  - rewrite A at 1. now rewrite length_app, length_rev, length_rev.
Qed.

Lemma span_digits_app (d r : jsstring) :
  Forall (fun c => is_digit c = true) d ->
  match r with [] => True | c :: _ => is_digit c = false end ->
  span_digits (d ++ r) = (d, r).
Proof.
  intros Hd Hr. induction Hd as [|c d Hc _ IH]; simpl.
  - destruct r as [|c r]; [reflexivity|]. simpl. now rewrite Hr.
  - now rewrite Hc, IH.
Qed.

(** The exponent part that [Number::toString] writes. *)
Lemma parseExponent_written (x : Z) :
  parseExponent ((if (x <? 0)%Z then 45 else 43) :: digits (Z.abs_N x))
  = Some x.
Proof.
  rewrite parseExponent_eq. cbv zeta.
  pose proof (span_digits_app (digits (Z.abs_N x)) [] (digits_digits _) I) as S.
  rewrite app_nil_r in S.
  pose proof (digits_value (Z.abs_N x)) as V.
  pose proof (digits_nonempty (Z.abs_N x)) as Hn.
  destruct (Z.ltb_spec x 0) as [L|G]; simpl N.eqb; cbv iota; rewrite S;
    destruct (digits (Z.abs_N x)) as [|d ds]; try contradiction;
    rewrite V; f_equal; lia.
Qed.

Lemma parseUnsignedDecimal_written (neg : bool) (ip fp : jsstring)
    (dot : bool) (ex : option Z) :
  Forall (fun c => is_digit c = true) ip ->
  Forall (fun c => is_digit c = true) fp ->
  ip <> [] -> (dot = false -> fp = []) ->
  parseUnsignedDecimal neg
    (ip ++ (if dot then 46 :: fp else []) ++
     match ex with
     | None => []
     | Some x => 101 :: (if (x <? 0)%Z then 45 else 43) :: digits (Z.abs_N x)
     end) =
  Dec neg (decimal_value (ip ++ fp))
      (match ex with None => 0 | Some x => x end - Z.of_nat (List.length fp)).
Proof.
  intros Hip Hfp Hn Hd. unfold parseUnsignedDecimal.
  set (et := match ex with
             | None => []
             | Some x => 101 :: (if (x <? 0)%Z then 45 else 43)
                             :: digits (Z.abs_N x)
             end).
  assert (Het : match et with [] => True | c :: _ => is_digit c = false end)
    by (unfold et; now destruct ex).
  assert (EI : str_eqb (ip ++ (if dot then 46 :: fp else []) ++ et)
                       (js "Infinity") = false).
  { destruct ip as [|c ip]; [contradiction|].
    inversion Hip as [|? ? Hc _]; subst. simpl.
    destruct (N.eqb_spec c 73) as [->|]; [discriminate | reflexivity]. }
  rewrite EI.
  rewrite span_digits_app; [|assumption|now destruct dot; [|exact Het]].
  rewrite fraction_eq.
  assert (Tail : forall f r2,
            f = fp -> r2 = et ->
            match ip ++ f with
            | [] => NaN
            | n :: l =>
                match r2 with
                | [] => Dec neg (decimal_value (n :: l))
                            (- Z.of_nat (List.length f))
                | c :: r3 =>
                    if (c =? 101) || (c =? 69)
                    then match parseExponent r3 with
                         | Some x => Dec neg (decimal_value (n :: l))
                                         (x + - Z.of_nat (List.length f))
                         | None => NaN
                         end
                    else NaN
                end
            end =
            Dec neg (decimal_value (ip ++ fp))
                (match ex with None => 0 | Some x => x end
                 - Z.of_nat (List.length fp))).
  { intros f r2 -> ->. destruct (ip ++ fp) as [|n l] eqn:E.
    - destruct ip; [contradiction | discriminate].
    - unfold et. destruct ex as [x|].
      + simpl N.eqb. cbn [orb]. rewrite parseExponent_written.
        f_equal; lia.
      + f_equal; lia. }
  destruct dot.
  - simpl app. cbv beta iota. rewrite N.eqb_refl.
    rewrite (span_digits_app fp et Hfp Het). now apply Tail.
  - rewrite (Hd eq_refl) in *. simpl app. subst et. destruct ex as [x|].
    + exact (Tail [] _ eq_refl eq_refl).
    + exact (Tail [] _ eq_refl eq_refl).
Qed.

Lemma parseNumericLiteral_digit_first (c0 : N) (rest : jsstring) :
  is_digit c0 = true ->
  match rest with
  | [] => True
  | c :: _ => is_digit c = true \/ c = 46 \/ c = 101
  end ->
  parseNumericLiteral (c0 :: rest) = parseUnsignedDecimal false (c0 :: rest).
Proof.
  intros H0 H1. rewrite parseNumericLiteral_eq.
  assert (N43 : (c0 =? 43) = false).
  { unfold is_digit, in_range in H0. cmp_to_prop H0. apply N.eqb_neq. lia. }
  assert (N45 : (c0 =? 45) = false).
  { unfold is_digit, in_range in H0. cmp_to_prop H0. apply N.eqb_neq. lia. }
  rewrite N43, N45. destruct (c0 =? 48); [|reflexivity].
  destruct rest as [|c r]; [reflexivity|].
  assert (R : (c =? 120) || (c =? 88) = false /\
              (c =? 111) || (c =? 79) = false /\
              (c =? 98) || (c =? 66) = false).
  { destruct H1 as [H1|[->| ->]]; [|now repeat split..].
    unfold is_digit, in_range in H1. cmp_to_prop H1.
    repeat split; apply orb_false_iff; split; apply N.eqb_neq; lia. }
  destruct R as (-> & -> & ->). reflexivity.
Qed.

Lemma same_value_shift (s : N) (t : nat) (e : Z) :
  same_value (s * 10 ^ N.of_nat t) e s (e + Z.of_nat t).
Proof.
  unfold same_value. rewrite Z.min_l by lia.
  replace (e - e)%Z with 0%Z by lia.
  replace (e + Z.of_nat t - e)%Z with (Z.of_nat t) by lia.
  rewrite N2Z.inj_mul, N2Z.inj_pow, nat_N_Z.
  change (Z.of_N 10) with 10%Z. rewrite Z.pow_0_r. lia.
Qed.

Lemma same_value_integer (s : N) (t : nat) (e : Z) :
  (0 <= e + Z.of_nat t)%Z ->
  same_value (s * 10 ^ N.of_nat t) e (s * 10 ^ Z.to_N (e + Z.of_nat t)) 0.
Proof.
  intros H. unfold same_value.
  rewrite !N2Z.inj_mul, !N2Z.inj_pow, nat_N_Z, Z2N.id by assumption.
  change (Z.of_N 10) with 10%Z.
  rewrite <- !Z.mul_assoc, <- !Z.pow_add_r by lia.
  do 2 f_equal. lia.
Qed.

Lemma digit_plain (c : N) :
  is_digit c = true -> is_space c = false /\ c <> 44.
Proof.
  unfold is_digit, in_range. intros H. cmp_to_prop H. split; [|lia].
  unfold is_space, in_range. decide_cmp. reflexivity.
Qed.

Lemma digits_plain (d : jsstring) :
  Forall (fun c => is_digit c = true) d ->
  Forall (fun c => is_space c = false /\ c <> 44) d.
Proof. intros H. eapply Forall_impl; [|exact H]. apply digit_plain. Qed.

(** What [Number::toString] writes for a positive number parses back to the
    same value; it starts with a digit and holds neither white space nor a
    comma. *)
Lemma renderDecimal_read (b : bool) (ds : jsstring) (t : nat) (e : Z) :
  ds <> [] -> Forall (fun c => is_digit c = true) ds ->
  let body := renderDecimal ds (e + Z.of_nat t + Z.of_nat (List.length ds)) in
  (exists m' e',
     parseUnsignedDecimal b body = Dec b m' e' /\
     same_value (decimal_value ds * 10 ^ N.of_nat t) e m' e') /\
  (exists c0 rest,
     body = c0 :: rest /\ is_digit c0 = true /\
     match rest with
     | [] => True
     | c :: _ => is_digit c = true \/ c = 46 \/ c = 101
     end) /\
  Forall (fun c => is_space c = false /\ c <> 44) body.
Proof.
  intros Hn Hd. cbv zeta. unfold renderDecimal.
  set (k := Z.of_nat (List.length ds)).
  set (n := (e + Z.of_nat t + k)%Z).
  assert (Hk : (1 <= k)%Z)
    by (unfold k; destruct ds; [contradiction | cbn [List.length]; lia]).
  assert (Hp : Forall (fun c => is_space c = false /\ c <> 44) ds)
    by now apply digits_plain.
  assert (Hhd : exists d0 ds', ds = d0 :: ds' /\ is_digit d0 = true /\
                               Forall (fun c => is_digit c = true) ds').
  { destruct ds as [|d0 ds']; [contradiction|].
    inversion Hd; subst. now exists d0, ds'. }
  destruct ((k <=? n) && (n <=? 21))%Z eqn:C1.
  { (* an integer: the digits and then zeros *)
    apply andb_true_iff in C1 as [C1 _]. apply Z.leb_le in C1.
    unfold zeros. set (z := Z.to_nat (n - k)).
    assert (Hz : Forall (fun c => is_digit c = true) (ds ++ repeat 48 z))
      by (apply Forall_app; split; [assumption | apply zeros_digits]).
    split; [|split].
    - pose proof (parseUnsignedDecimal_written b (ds ++ repeat 48 z) []
                    false None Hz (Forall_nil _)) as P.
      cbv beta iota in P. cbn [app List.length] in P.
      rewrite !app_nil_r in P.
      eexists. eexists. split.
      + apply P; [|reflexivity]. destruct ds; [contradiction | discriminate].
      + rewrite decimal_value_app, decimal_value_zeros, repeat_length, N.add_0_r.
        replace (N.of_nat z) with (Z.to_N (e + Z.of_nat t)) by (unfold z; lia).
        replace (0 - Z.of_nat 0)%Z with 0%Z by reflexivity.
        apply same_value_integer. lia.
    - destruct Hhd as (d0 & ds' & -> & H0 & H').
      exists d0, (ds' ++ repeat 48 z). split; [reflexivity|]. split; [assumption|].
      destruct ds' as [|d1 ds'']; cbn [app].
      + destruct z; cbn [repeat]; [exact I | now left].
      + inversion H'. now left.
    - now apply digits_plain. }
  destruct ((0 <? n) && (n <=? 21))%Z eqn:C2.
  { (* a decimal point inside the digits *)
    apply andb_true_iff in C2 as [C2 C2']. apply Z.ltb_lt in C2.
    apply Z.leb_le in C2'.
    assert (Lt : (n < k)%Z).
    { apply andb_false_iff in C1 as [C1|C1]; apply Z.leb_gt in C1; lia. }
    set (i := Z.to_nat n).
    assert (Hi : (1 <= i < List.length ds)%nat) by (unfold i, k in *; lia).
    pose proof (firstn_skipn i ds) as FS.
    assert (F1 : Forall (fun c => is_digit c = true) (firstn i ds))
      by (rewrite <- FS in Hd; now apply Forall_app in Hd).
    assert (F2 : Forall (fun c => is_digit c = true) (skipn i ds))
      by (rewrite <- FS in Hd; now apply Forall_app in Hd).
    assert (N1 : firstn i ds <> []).
    { intros E. apply (f_equal (@List.length N)) in E.
      rewrite length_firstn in E. cbn [List.length] in E. lia. }
    split; [|split].
    - pose proof (parseUnsignedDecimal_written b (firstn i ds) (skipn i ds)
                    true None F1 F2 N1) as P.
      cbv beta iota in P. rewrite app_nil_r, FS in P.
      eexists. eexists. split; [apply P; discriminate|].
      replace (0 - Z.of_nat (List.length (skipn i ds)))%Z
        with (e + Z.of_nat t)%Z
        by (rewrite length_skipn; unfold i, n, k in *; lia).
      apply same_value_shift.
    - destruct Hhd as (d0 & ds' & E & H0 & H').
      destruct i as [|i]; [lia|]. rewrite E. cbn [firstn skipn app].
      exists d0, (firstn i ds' ++ 46 :: skipn i ds').
      split; [reflexivity|]. split; [assumption|].
      destruct (firstn i ds') as [|x xs] eqn:Ef; cbn [app]; [now right; left|].
      left. assert (In x ds') by (rewrite <- (firstn_skipn i ds'), Ef; now left).
      rewrite Forall_forall in H'. now apply H'.
    - rewrite <- FS in Hp. apply Forall_app in Hp as [Hp1 Hp2].
      apply Forall_app. split; [assumption|].
      constructor; [split; [reflexivity | discriminate] | assumption]. }
  destruct ((-6 <? n) && (n <=? 0))%Z eqn:C3.
  { (* zero, the point, zeros and the digits *)
    apply andb_true_iff in C3 as [C3 C3']. apply Z.ltb_lt in C3.
    apply Z.leb_le in C3'. unfold zeros. set (z := Z.to_nat (- n)).
    assert (Hz : Forall (fun c => is_digit c = true) (repeat 48 z ++ ds))
      by (apply Forall_app; split; [apply zeros_digits | assumption]).
    split; [|split].
    - assert (F48 : Forall (fun c => is_digit c = true) [48])
        by (repeat constructor).
      pose proof (parseUnsignedDecimal_written b [48] (repeat 48 z ++ ds)
                    true None F48 Hz) as P.
      cbv beta iota in P. cbn [app] in P. rewrite app_nil_r in P.
      eexists. eexists. split; [apply P; discriminate|].
      change (48 :: repeat 48 z ++ ds) with (repeat 48 (S z) ++ ds).
      rewrite decimal_value_app, decimal_value_zeros, N.mul_0_l, N.add_0_l.
      replace (0 - Z.of_nat (List.length (repeat 48%N z ++ ds)))%Z
        with (e + Z.of_nat t)%Z
        by (rewrite length_app, repeat_length; unfold z, n, k in *; lia).
      apply same_value_shift.
    - exists 48, (46 :: repeat 48 z ++ ds). split; [reflexivity|].
      split; [reflexivity | now right; left].
    - constructor; [split; [reflexivity | discriminate]|].
      constructor; [split; [reflexivity | discriminate]|].
      apply Forall_app. split; [apply digits_plain, zeros_digits | assumption]. }
  (* exponential notation *)
  set (x := (n - 1)%Z).
  assert (Hx : Forall (fun c => is_space c = false /\ c <> 44)
                 (101 :: (if (x <? 0)%Z then 45 else 43) :: digits (Z.abs_N x))).
  { constructor; [split; [reflexivity | discriminate]|].
    constructor; [destruct (x <? 0)%Z; split; (reflexivity || discriminate)|].
    apply digits_plain, digits_digits. }
  destruct Hhd as (d0 & ds' & E & H0 & H'). subst ds.
  destruct ds' as [|d1 ds''].
  - split; [|split].
    + pose proof (parseUnsignedDecimal_written b [d0] [] false (Some x)
                    Hd (Forall_nil _)) as P.
      cbv beta iota in P. cbn [app List.length] in P.
      eexists. eexists.
      split; [apply P; [discriminate | reflexivity]|].
      replace (x - Z.of_nat 0)%Z with (e + Z.of_nat t)%Z
        by (unfold x, n, k; cbn [List.length]; lia).
      apply same_value_shift.
    + exists d0, (101 :: (if (x <? 0)%Z then 45 else 43) :: digits (Z.abs_N x)).
      split; [reflexivity|]. split; [assumption | now right; right].
    + constructor; [now apply digit_plain | exact Hx].
  - split; [|split].
    + assert (F0 : Forall (fun c => is_digit c = true) [d0])
        by (repeat constructor; assumption).
      pose proof (parseUnsignedDecimal_written b [d0] (d1 :: ds'') true
                    (Some x) F0 H') as P.
      cbv beta iota in P. cbn [app] in P.
      eexists. eexists.
      split; [rewrite <- app_comm_cons; apply P; discriminate|].
      replace (x - Z.of_nat (List.length (d1 :: ds'')))%Z
        with (e + Z.of_nat t)%Z
        by (unfold x, n, k; cbn [List.length]; lia).
      apply same_value_shift.
    + exists d0, (46 :: (d1 :: ds'') ++ 101 :: (if (x <? 0)%Z then 45 else 43)
                       :: digits (Z.abs_N x)).
      split; [reflexivity|]. split; [assumption | now right; left].
    + inversion Hp as [|? ? Hp0 Hp']; subst.
      constructor; [assumption|].
      constructor; [split; [reflexivity | discriminate]|].
      apply Forall_app. split; [assumption | exact Hx].
Qed.

Lemma dropWhile_plain (s : jsstring) :
  Forall (fun c => is_space c = false /\ c <> 44) s ->
  dropWhile is_space s = s.
Proof.
  intros H. destruct H as [|c s [Hc _] _]; [reflexivity|].
  simpl. now rewrite Hc.
Qed.

Lemma trim_plain (s : jsstring) :
  Forall (fun c => is_space c = false /\ c <> 44) s -> trim s = s.
Proof.
  intros H. unfold trim, trimEnd, trimStart.
  rewrite (dropWhile_plain s H), dropWhile_plain by now apply Forall_rev.
  apply rev_involutive.
Qed.

Lemma toNumber_plain (v : jsval) (s : jsstring) :
  toString v = s -> v <> JNull -> v <> JUndefined -> s <> [] ->
  Forall (fun c => is_space c = false /\ c <> 44) s ->
  toNumber v =
  if isNaN (parseNumericLiteral s) then None
  else Some (parseNumericLiteral s).
Proof.
  intros E N1 N2 Hn Hp.
  assert (A : ~ In 44 s).
  { intros Q. rewrite Forall_forall in Hp. now destruct (Hp 44 Q). }
  assert (U : toNumber v =
              match trim s with
              | [] => None
              | _ :: _ =>
                  let n := stringToNumber (replaceFirstUnit 44 46 (trim s)) in
                  if isNaN n then None else Some n
              end).
  { rewrite <- E. destruct v; try reflexivity; contradiction. }
  rewrite U, (trim_plain s Hp).
  destruct s as [|c s']; [contradiction|]. cbv zeta.
  rewrite (replaceFirstUnit_absent 44 46 _ A).
  unfold stringToNumber. now rewrite (trim_plain _ Hp).
Qed.

(** X14: a number passes through [toNumber] unchanged.  A finite number
    other than zero comes back with its sign and its value; an infinity
    comes back as it is; both zeros come back as zero; [NaN] gives
    [undefined]. *)
Theorem toNumber_number (neg : bool) (m : N) (e : Z) :
  (m <> 0 ->
   exists m' e', toNumber (JNum (Dec neg m e)) = Some (Dec neg m' e') /\
                 same_value m e m' e') /\
  toNumber (JNum (Dec neg 0 e)) = Some (Dec false 0 0) /\
  toNumber (JNum (Inf neg)) = Some (Inf neg) /\
  toNumber (JNum NaN) = None.
Proof.
  split; [|split; [reflexivity | split; [now destruct neg | reflexivity]]].
  intros Hm. destruct m as [|p]; [contradiction|].
  set (all := digits (N.pos p)).
  set (ds := rev (dropWhile (N.eqb 48) (rev all))).
  destruct (strip_zeros all) as [t [Eall Elen]]. fold ds in Eall, Elen.
  pose proof (digits_value (N.pos p)) as V. fold all in V.
  pose proof (digits_digits (N.pos p)) as D. fold all in D.
  rewrite Eall in V, D. apply Forall_app in D as [Dds _].
  rewrite decimal_value_app, decimal_value_zeros, repeat_length, N.add_0_r in V.
  assert (Hds : ds <> []).
  { intros Q. rewrite Q in V. discriminate V. }
  destruct (renderDecimal_read neg ds t e Hds Dds)
    as ((m' & e' & P & SV) & (c0 & rest & Eb & H0 & H1) & Plain).
  cbv zeta in P, Eb, Plain.
  assert (S : toString (JNum (Dec neg (N.pos p) e)) =
              (if neg then [45] else []) ++
              renderDecimal ds (e + Z.of_nat t + Z.of_nat (List.length ds))).
  { cbn [toString numberToString]. fold all. fold ds. do 2 f_equal.
    rewrite Elen. lia. }
  exists m', e'. split; [|now rewrite <- V].
  rewrite (toNumber_plain _ _ S); try discriminate.
  - destruct neg.
    + cbn [app]. rewrite parseNumericLiteral_eq.
      change (45 =? 48) with false. change (45 =? 43) with false.
      change (45 =? 45) with true. cbv iota. now rewrite P.
    + cbn [app]. rewrite Eb, (parseNumericLiteral_digit_first c0 rest H0 H1).
      rewrite <- Eb. now rewrite P.
  - rewrite Eb. now destruct neg.
  - destruct neg; cbn [app]; [|assumption].
    constructor; [split; [reflexivity | discriminate] | assumption].
Qed.

Lemma toNumber_number_witness :
  125 <> 0 /\
  exists m' e', toNumber (JNum (Dec true 125 (-1))) = Some (Dec true m' e') /\
                same_value 125 (-1) m' e'.
Proof.
  assert (H : 125 <> 0) by discriminate.
  split; [exact H|].
  exact (proj1 (toNumber_number true 125 (-1)) H).
Defined.

Example toNumber_large_number :
  toNumber (JNum (Dec false 125 30)) = Some (Dec false 125 30) /\
  toNumber (JNum (Dec false 1250 (-2))) = Some (Dec false 125 (-1)) /\
  toNumber (JNum (Dec true 70886 0)) = Some (Dec true 70886 0).
Proof. vm_compute. repeat split. Qed.

(** ** Numeric strings: [Number] against the grammar *)

Lemma is_digit_spec (c : N) : is_digit c = true <-> decimal_digit c.
Proof.
  unfold is_digit, in_range, decimal_digit.
  rewrite andb_true_iff, !N.leb_le. reflexivity.
Qed.

Lemma digits_of_decimal (d : jsstring) :
  digits_of decimal_digit d <->
  d <> [] /\ Forall (fun c => is_digit c = true) d.
Proof.
  unfold digits_of. split; intros [H F]; (split; [exact H|]);
    revert F; apply Forall_impl; intros c; apply is_digit_spec.
Qed.

Lemma span_digits_all (d : jsstring) :
  Forall (fun c => is_digit c = true) d -> span_digits d = (d, []).
Proof.
  intros F. rewrite <- (app_nil_r d) at 1. now apply span_digits_app.
Qed.

Lemma parseExponent_signed (s : jsstring) :
  parseExponent s <> None <-> signed_integer s.
Proof.
  rewrite parseExponent_eq. cbv zeta.
  assert (B : forall (neg : bool) r,
             match span_digits r with
             | (d :: ds, []) =>
                 Some (if neg then (- Z.of_N (decimal_value (d :: ds)))%Z
                       else Z.of_N (decimal_value (d :: ds)))
             | _ => None
             end <> None <-> digits_of decimal_digit r).
  { intros neg r. rewrite digits_of_decimal. split.
    - destruct (span_digits r) as [d rest] eqn:E.
      apply span_digits_shape in E as [-> [F _]].
      destruct d as [|c d]; [congruence|]. destruct rest; [|congruence].
      intros _. rewrite app_nil_r. split; [discriminate | exact F].
    - intros [N F]. rewrite (span_digits_all r F).
      destruct r; [contradiction | discriminate]. }
  split.
  - destruct s as [|c r]; [congruence|].
    destruct (N.eqb_spec c 43) as [->|N1].
    { intros H. apply signed_plus. now apply (B false). }
    destruct (N.eqb_spec c 45) as [->|N2].
    { intros H. apply signed_minus. now apply (B true). }
    intros H. apply signed_none. now apply (B false).
  - intros [d H|d H|d H].
    + destruct d as [|c r]; [now destruct H|].
      assert (D : is_digit c = true).
      { apply is_digit_spec. destruct H as [_ F]. now inversion F. }
      destruct (N.eqb_spec c 43) as [->|N1]; [discriminate D|].
      destruct (N.eqb_spec c 45) as [->|N2]; [discriminate D|].
      now apply (B false).
    + change (43 =? 43) with true. cbv iota. now apply (B false).
    + change (45 =? 43) with false. change (45 =? 45) with true. cbv iota.
      now apply (B true).
Qed.

(** An optional exponent part does not start with a digit. *)
Lemma exponent_head (ex : jsstring) :
  opt exponent_part ex ->
  match ex with [] => True | c :: _ => is_digit c = false end.
Proof. intros [->|[s _|s _]]; [exact I | reflexivity | reflexivity]. Qed.

Lemma period_head (r : jsstring) :
  match 46 :: r with [] => True | c :: _ => is_digit c = false end.
Proof. reflexivity. Qed.

(** What is left after the digits of the significand: nothing or an
    exponent part. *)
Lemma exponent_rest (neg : bool) (m : N) (scale : Z) (r2 : jsstring) :
  match r2 with
  | [] => Dec neg m scale
  | c :: r3 =>
      if (c =? 101) || (c =? 69)
      then match parseExponent r3 with
           | Some x => Dec neg m (x + scale)
           | None => NaN
           end
      else NaN
  end <> NaN <-> opt exponent_part r2.
Proof.
  destruct r2 as [|c r3].
  - split; [now left | discriminate].
  - split.
    + destruct ((c =? 101) || (c =? 69)) eqn:E; [|congruence].
      destruct (parseExponent r3) eqn:P; [|congruence]. intros _. right.
      assert (S : signed_integer r3) by (apply parseExponent_signed; congruence).
      apply orb_true_iff in E as [E|E]; apply N.eqb_eq in E; subst c;
        now constructor.
    + intros [H|H]; [discriminate H|].
      inversion H as [s S|s S]; subst; apply parseExponent_signed in S;
        cbn [orb]; [change (101 =? 101) with true
                   |change (69 =? 101) with false; change (69 =? 69) with true];
        cbn [orb]; destruct (parseExponent r3); congruence.
Qed.

Lemma opt_digits (fp : jsstring) :
  opt (digits_of decimal_digit) fp <->
  Forall (fun c => is_digit c = true) fp.
Proof.
  split.
  - intros [->|H]; [constructor | now apply digits_of_decimal in H].
  - intros F. destruct fp as [|c r]; [now left | right].
    apply digits_of_decimal. split; [discriminate | exact F].
Qed.

Lemma parseUnsignedDecimal_eq (neg : bool) (s : jsstring) :
  parseUnsignedDecimal neg s =
  if str_eqb s (js "Infinity") then Inf neg
  else
    let (ip, r1) := span_digits s in
    let '(fp, r2) :=
      match r1 with
      | c :: r => if c =? 46 then span_digits r else ([], r1)
      | [] => ([], r1)
      end in
    match ip ++ fp with
    | [] => NaN
    | n :: l =>
        match r2 with
        | [] => Dec neg (decimal_value (n :: l)) (- Z.of_nat (List.length fp))
        | c :: r3 =>
            if (c =? 101) || (c =? 69)
            then match parseExponent r3 with
                 | Some x => Dec neg (decimal_value (n :: l))
                                 (x + - Z.of_nat (List.length fp))
                 | None => NaN
                 end
            else NaN
        end
    end.
Proof.
  unfold parseUnsignedDecimal. destruct (str_eqb s (js "Infinity")); [reflexivity|].
  destruct (span_digits s) as [ip r1]. rewrite fraction_eq. reflexivity.
Qed.

Lemma parseUnsignedDecimal_grammar (neg : bool) (s : jsstring) :
  parseUnsignedDecimal neg s <> NaN <-> unsigned_decimal s.
Proof.
  rewrite parseUnsignedDecimal_eq. split.
  - destruct (str_eqb s (js "Infinity")) eqn:EI.
    { intros _. apply str_eqb_eq in EI. subst. constructor. }
    destruct (span_digits s) as [ip r1] eqn:E1.
    apply span_digits_shape in E1 as [-> [Fip _]].
    destruct r1 as [|c r].
    + intros H. apply decimal_integer; [|now left].
      apply digits_of_decimal. split; [|exact Fip].
      intros ->. now apply H.
    + destruct (N.eqb_spec c 46) as [->|Nc].
      * destruct (span_digits r) as [fp r2] eqn:E2.
        apply span_digits_shape in E2 as [-> [Ffp _]].
        intros H. destruct ip as [|i ip'].
        { simpl in H. simpl. destruct fp as [|f fp']; [now elim H|].
          apply exponent_rest in H. apply decimal_fraction; [|exact H].
          apply digits_of_decimal. split; [discriminate | exact Ffp]. }
        simpl app in H. cbv iota in H. apply exponent_rest in H.
        apply decimal_point; [| |exact H].
        { apply digits_of_decimal. split; [discriminate | exact Fip]. }
        now apply opt_digits.
      * intros H. destruct ip as [|i ip']; [now elim H|].
        simpl app in H. cbv iota in H.
        apply decimal_integer;
          [|exact (proj1 (exponent_rest neg _ _ (c :: r)) H)].
        apply digits_of_decimal. split; [discriminate | exact Fip].
  - intros U.
    destruct U as [|ip fp ex Hi Hf He|fp ex Hf He|ip ex Hi He];
      [change (Inf neg <> NaN); discriminate|..];
      (match goal with
       | |- context [str_eqb ?s ?i] => destruct (str_eqb s i)
       end; [discriminate|]).
    + apply digits_of_decimal in Hi as [Ni Fi]. apply opt_digits in Hf.
      rewrite (span_digits_app ip (46 :: fp ++ ex) Fi (period_head (fp ++ ex))).
      change (46 =? 46) with true. cbv iota.
      rewrite (span_digits_app fp ex Hf (exponent_head ex He)).
      destruct (ip ++ fp) as [|n l] eqn:A.
      { apply app_eq_nil in A. now destruct A. }
      now apply exponent_rest.
    + apply digits_of_decimal in Hf as [Nf Ff].
      change (span_digits (46 :: fp ++ ex)) with (@nil N, 46 :: fp ++ ex).
      change (46 =? 46) with true. cbv iota.
      rewrite (span_digits_app fp ex Ff (exponent_head ex He)).
      destruct fp as [|n l]; [contradiction|]. simpl app.
      now apply exponent_rest.
    + apply digits_of_decimal in Hi as [Ni Fi].
      rewrite (span_digits_app ip ex Fi (exponent_head ex He)).
      assert (R : match ex with
                  | c :: r => if c =? 46 then span_digits r else ([], ex)
                  | [] => ([], ex)
                  end = (@nil N, ex)).
      { destruct He as [->|[t _|t _]]; reflexivity. }
      rewrite R. rewrite app_nil_r.
      destruct ip as [|n l]; [contradiction|].
      now apply exponent_rest.
Qed.

(** Digits of the three other bases. *)
Ltac by_ranges :=
  unfold hex_value, is_digit, in_range;
  repeat match goal with
         | |- context [?a <=? ?b] => destruct (N.leb_spec a b)
         end;
  cbn [andb];
  (split;
   [ intros [v [E L]]; try discriminate E; injection E as <-; lia
   | intros K; try (eexists; split; [reflexivity|]); lia ]).

Lemma hex_digit_value (c : N) :
  (exists v, hex_value c = Some v /\ v < 16) <-> hex_digit c.
Proof. unfold hex_digit. by_ranges. Qed.

Lemma octal_digit_value (c : N) :
  (exists v, hex_value c = Some v /\ v < 8) <-> octal_digit c.
Proof. unfold octal_digit. by_ranges. Qed.

Lemma binary_digit_value (c : N) :
  (exists v, hex_value c = Some v /\ v < 2) <-> binary_digit c.
Proof. unfold binary_digit. by_ranges. Qed.

Lemma radix_value_digits (b : N) (s : jsstring) (acc : N) :
  radix_value b acc s <> None <->
  Forall (fun c => exists v, hex_value c = Some v /\ v < b) s.
Proof.
  revert acc. induction s as [|c s IH]; intros acc; simpl.
  - split; [constructor | discriminate].
  - split.
    + destruct (hex_value c) as [d|] eqn:E; [|congruence].
      destruct (N.ltb_spec d b) as [L|L]; [|congruence].
      intros H. constructor; [now exists d | now apply IH in H].
    + intros F. inversion F as [|? ? [v [E L]] F']; subst.
      rewrite E. apply N.ltb_lt in L. rewrite L. now apply IH.
Qed.

Lemma parseRadix_digits (b : N) (digit : N -> Prop) (s : jsstring) :
  (forall c, (exists v, hex_value c = Some v /\ v < b) <-> digit c) ->
  parseRadix b s <> NaN <-> digits_of digit s.
Proof.
  intros D. unfold digits_of.
  assert (F : Forall digit s <->
              Forall (fun c => exists v, hex_value c = Some v /\ v < b) s).
  { split; apply Forall_impl; intros c; apply D. }
  rewrite F, <- (radix_value_digits b s 0). unfold parseRadix.
  destruct s as [|c s]; [tauto|].
  destruct (radix_value b 0 (c :: s)); split; try congruence.
  - intros _. split; discriminate.
  - intros [_ H]. congruence.
Qed.

Lemma parseNumericLiteral_grammar (s : jsstring) :
  parseNumericLiteral s <> NaN <-> numeric_literal s.
Proof.
  split.
  - rewrite parseNumericLiteral_eq.
    assert (U : parseUnsignedDecimal false s <> NaN -> numeric_literal s).
    { intros H. apply literal_unsigned. now apply parseUnsignedDecimal_grammar in H. }
    destruct s as [|c0 rest]; [exact U|].
    destruct (N.eqb_spec c0 48) as [->|N0].
    + destruct rest as [|c r]; [exact U|].
      destruct ((c =? 120) || (c =? 88)) eqn:Ex.
      { intros H. apply literal_hex.
        - apply orb_true_iff in Ex as [E|E]; apply N.eqb_eq in E; auto.
        - now apply (parseRadix_digits 16 hex_digit r hex_digit_value). }
      destruct ((c =? 111) || (c =? 79)) eqn:Eo.
      { intros H. apply literal_octal.
        - apply orb_true_iff in Eo as [E|E]; apply N.eqb_eq in E; auto.
        - now apply (parseRadix_digits 8 octal_digit r octal_digit_value). }
      destruct ((c =? 98) || (c =? 66)) eqn:Eb.
      { intros H. apply literal_binary.
        - apply orb_true_iff in Eb as [E|E]; apply N.eqb_eq in E; auto.
        - now apply (parseRadix_digits 2 binary_digit r binary_digit_value). }
      exact U.
    + destruct (N.eqb_spec c0 43) as [->|N1].
      { intros H. apply literal_plus. now apply parseUnsignedDecimal_grammar in H. }
      destruct (N.eqb_spec c0 45) as [->|N2].
      { intros H. apply literal_minus. now apply parseUnsignedDecimal_grammar in H. }
      exact U.
  - intros [t U|t U|t U|x d X D|x d X D|x d X D].
    + apply (parseUnsignedDecimal_grammar false) in U.
      rewrite parseNumericLiteral_eq.
      destruct t as [|c0 rest]; [exact U|].
      destruct (N.eqb_spec c0 48) as [->|N0].
      * destruct rest as [|c r]; [exact U|].
        destruct ((c =? 120) || (c =? 88)) eqn:Ex.
        { exfalso. apply U.
          apply orb_true_iff in Ex as [E|E]; apply N.eqb_eq in E; now subst. }
        destruct ((c =? 111) || (c =? 79)) eqn:Eo.
        { exfalso. apply U.
          apply orb_true_iff in Eo as [E|E]; apply N.eqb_eq in E; now subst. }
        destruct ((c =? 98) || (c =? 66)) eqn:Eb.
        { exfalso. apply U.
          apply orb_true_iff in Eb as [E|E]; apply N.eqb_eq in E; now subst. }
        exact U.
      * destruct (N.eqb_spec c0 43) as [->|N1]; [now elim U|].
        destruct (N.eqb_spec c0 45) as [->|N2]; [now elim U|].
        exact U.
    + now apply (parseUnsignedDecimal_grammar false) in U.
    + now apply (parseUnsignedDecimal_grammar true) in U.
    + apply (parseRadix_digits 16 hex_digit d hex_digit_value) in D.
      destruct X as [->| ->]; exact D.
    + apply (parseRadix_digits 8 octal_digit d octal_digit_value) in D.
      destruct X as [->| ->]; exact D.
    + apply (parseRadix_digits 2 binary_digit d binary_digit_value) in D.
      destruct X as [->| ->]; exact D.
Qed.

(** ** The text [toNumber] reads *)

(** A text with no white space at either end is its own trim. *)
Lemma trim_keep (s t : jsstring) (c z : N) :
  s = c :: t -> is_space c = false ->
  last s z = z -> is_space z = false ->
  trim s = s.
Proof.
  intros -> Hc Hl Hz. unfold trim, trimStart, trimEnd.
  cbn [dropWhile]. rewrite Hc.
  assert (E : c :: t = removelast (c :: t) ++ [z]).
  { pose proof (app_removelast_last (l := c :: t) z) as A.
    rewrite Hl in A. apply A. discriminate. }
  rewrite E at 1. rewrite rev_app_distr. cbn [rev app dropWhile].
  rewrite Hz. cbn [rev]. rewrite rev_involutive. now symmetry.
Qed.

Lemma replaceFirstUnit_last (x y : N) (s : jsstring) (d : N) :
  s <> [] ->
  last (replaceFirstUnit x y s) d = last s d \/
  last (replaceFirstUnit x y s) d = y.
Proof.
  induction s as [|c s IH]; [contradiction|]. intros _.
  cbn [replaceFirstUnit]. destruct (c =? x).
  - destruct s as [|e s]; [now right | now left].
  - destruct s as [|e s]; [now left|].
    destruct (IH ltac:(discriminate)) as [H|H].
    + left. cbn [replaceFirstUnit] in *.
      destruct (e =? x); exact H.
    + right. cbn [replaceFirstUnit] in *.
      destruct (e =? x); exact H.
Qed.

Lemma number_text_trimmed (s : jsstring) :
  trim (number_text s) = number_text s.
Proof.
  unfold number_text.
  destruct (trim_head s) as [E|[c [t [E Hc]]]]; [now rewrite E|].
  destruct (trim_last s) as [E'|[t' [z [E' Hz]]]]; [congruence|].
  assert (Hl : last (trim s) z = z) by (rewrite E'; apply last_last).
  assert (Ne : trim s <> []) by congruence.
  set (u := replaceFirstUnit 44 46 (trim s)).
  assert (Hu : exists c' t'', u = c' :: t'' /\ is_space c' = false).
  { unfold u. rewrite E. cbn [replaceFirstUnit].
    destruct (c =? 44); eexists; eexists; (split; [reflexivity|]);
      [reflexivity | exact Hc]. }
  destruct Hu as [c' [t'' [Eu Hc']]].
  destruct (replaceFirstUnit_last 44 46 (trim s) z Ne) as [L|L]; fold u in L.
  - rewrite Hl in L. exact (trim_keep u t'' c' z Eu Hc' L Hz).
  - assert (L' : last u 46 = 46).
    { rewrite Eu in *. clear - L. revert c' L.
      induction t'' as [|e r IH]; intros c' L; [exact L|].
      apply (IH e). exact L. }
    exact (trim_keep u t'' c' 46 Eu Hc' L' eq_refl).
Qed.

Lemma number_text_nil (s : jsstring) : number_text s = [] <-> trim s = [].
Proof.
  unfold number_text. destruct (trim s) as [|c t]; [tauto|].
  cbn [replaceFirstUnit]. destruct (c =? 44); split; discriminate.
Qed.

Lemma toNumber_text (val : jsval) :
  val <> JNull -> val <> JUndefined ->
  toNumber val =
  match number_text (toString val) with
  | [] => None
  | t => if isNaN (parseNumericLiteral t) then None
         else Some (parseNumericLiteral t)
  end.
Proof.
  intros N1 N2.
  assert (E : toNumber val =
              match trim (toString val) with
              | [] => None
              | _ :: _ =>
                  let n := stringToNumber (number_text (toString val)) in
                  if isNaN n then None else Some n
              end).
  { destruct val; try reflexivity; contradiction. }
  rewrite E. cbv zeta. unfold stringToNumber.
  rewrite number_text_trimmed.
  pose proof (number_text_nil (toString val)) as Z.
  destruct (trim (toString val)) as [|c t];
    destruct (number_text (toString val)) as [|c' t']; try reflexivity.
  - destruct Z as [_ Z]. discriminate (Z eq_refl).
  - destruct Z as [Z _]. discriminate (Z eq_refl).
Qed.

Lemma not_numeric_nil : ~ numeric_literal [].
Proof.
  intros H. apply parseNumericLiteral_grammar in H. now apply H.
Qed.

Lemma toNumber_grammar (val : jsval) :
  toNumber val <> None <->
  val <> JNull /\ val <> JUndefined /\
  numeric_literal (number_text (toString val)).
Proof.
  destruct val as [| |b|x|s];
    try (split; [intros H; now elim H | intros [H1 [H2 _]]; congruence]).
  all: rewrite toNumber_text by discriminate.
  all: rewrite <- parseNumericLiteral_grammar.
  all: match goal with
       | |- context [number_text ?v] => destruct (number_text v) as [|c r]
       end.
  all: try (split; [congruence | intros [_ [_ H]]; now elim H]).
  all: cbv zeta.
  all: destruct (parseNumericLiteral (c :: r)); cbn [isNaN]; split;
    try congruence; try (intros _; repeat split; discriminate);
    intros [_ [_ H]]; congruence.
Qed.

(** C9: [toNumber] is total and never gives [NaN]: a number or
    [undefined] comes back for every value.  It gives [undefined] exactly
    for [null], for [undefined] and for a value whose text, once the white
    space around it is dropped and its first comma is read as a period, is
    not a numeric literal: a blank string, a string with a character foreign
    to numeric literals, or any other text outside the grammar.  A single
    comma is read as the decimal period, and since only the first comma is
    replaced, two commas or more give [undefined]. *)
Theorem toNumber_total (val : jsval) :
  toNumber val <> Some NaN /\
  (toNumber val = None <->
   val = JNull \/ val = JUndefined \/
   ~ numeric_literal (number_text (toString val))) /\
  (forall s, trim s = [] -> toNumber (JStr s) = None) /\
  (forall s c, In c s -> is_space c = false -> literal_unit c = false ->
               c <> 44 -> toNumber (JStr s) = None) /\
  (forall a b, ~ In 44 a -> ~ In 44 b ->
               toNumber (JStr (a ++ 44 :: b)) = toNumber (JStr (a ++ 46 :: b))) /\
  toNumber (JStr (js "12,5")) = Some (Dec false 125 (-1)) /\
  (forall s, (2 <= count_occ N.eq_dec s 44%N)%nat -> toNumber (JStr s) = None) /\
  map (fun s => toNumber (JStr (js s))) ["abc"; "1 2"; "1.2.3"; "--5"; "0x"] =
    [None; None; None; None; None].
Proof.
  split; [|split; [|repeat split]].
  - unfold toNumber. destruct val; try discriminate;
      destruct (trim _); try discriminate; cbv zeta;
      destruct (stringToNumber _); discriminate.
  - pose proof (toNumber_grammar val) as G. split.
    + intros E.
      destruct val as [| |b|x|s]; [now right; left | now left | ..];
        right; right; intros L; apply (proj2 G); try exact E;
        repeat split; try discriminate; exact L.
    + intros [->|[->|L]]; [reflexivity..|].
      destruct (toNumber val) eqn:E; [|reflexivity].
      exfalso. apply L. apply G. discriminate.
  - intros s E. rewrite toNumber_string. now rewrite E.
  - intros s c. apply toNumber_foreign.
  - apply toNumber_decimal_comma.
  - apply toNumber_commas.
Qed.

Lemma toNumber_total_witness :
  ~ numeric_literal (number_text (toString (JStr (js "1 2")))) /\
  toNumber (JStr (js "1 2")) = None /\
  (2 <= count_occ N.eq_dec (js "1,234,5") 44%N)%nat /\
  toNumber (JStr (js "1,234,5")) = None.
Proof.
  assert (L : ~ numeric_literal (number_text (toString (JStr (js "1 2"))))).
  { intros L. apply parseNumericLiteral_grammar in L. apply L. reflexivity. }
  assert (H : (2 <= count_occ N.eq_dec (js "1,234,5") 44%N)%nat)
    by (vm_compute; lia).
  split; [exact L|]. split; [|split; [exact H|]].
  - exact (proj2 (proj1 (proj2 (toNumber_total (JStr (js "1 2")))))
             (or_intror (or_intror L))).
  - exact (proj1 (proj2 (proj2 (proj2 (proj2 (proj2 (proj2
             (toNumber_total JNull))))))) (js "1,234,5") H).
Defined.

(** ** The extensions of the result *)

Lemma toNumber_some (v : jsval) (n : jsnum) :
  toNumber v = Some n -> n <> NaN.
Proof.
  unfold toNumber. destruct v; try discriminate;
    destruct (trim _); try discriminate; cbv zeta;
    destruct (stringToNumber _); intros H; inversion H; discriminate.
Qed.

Lemma spreadIf_number (v : jsval) (k key : jsstring) (value : jsval) :
  In (key, value) (spreadIf (someNumber (toNumber v)) k (numberValue (toNumber v))) ->
  key = k /\ exists n, value = JNum n /\ n <> NaN.
Proof.
  destruct (toNumber v) as [n|] eqn:E; simpl; [|contradiction].
  intros [H|[]]. inversion H; subst. split; [reflexivity|].
  exists n. split; [reflexivity | now apply toNumber_some in E].
Qed.

(** X15: the extensions of the result never hold [undefined] or [NaN]: an
    entry is either one of the four numeric extensions with a number that
    is not [NaN], or the fault code with a normalised string; no key occurs
    twice. *)
Theorem resultExtensions_defined (data : Row) :
  NoDup (map fst (resultExtensions data)) /\
  forall key value, In (key, value) (resultExtensions data) ->
    (exists n, value = JNum n /\ n <> NaN) \/
    (key = BASE_URI ++ js "/extensions/faultCode" /\
     exists s, value = JStr s /\ normal_form s).
Proof.
  split.
  - unfold resultExtensions, spreadIf.
    destruct (someNumber (toNumber (data "km"))),
             (someNumber (toNumber (data "miktar"))),
             (someNumber (toNumber (data "tutar"))),
             (someNumber (toNumber (data "indirimlitutar"))),
             (truthy (data "arizakodu"));
      cbn [app map fst]; repeat constructor;
      cbn [In]; intuition discriminate.
  - intros key value H. unfold resultExtensions in H.
    repeat (apply in_app_or in H as [H|H]);
      try (left; now apply spreadIf_number in H).
    right. unfold spreadIf in H.
    destruct (truthy (data "arizakodu")); [|contradiction].
    destruct H as [H|[]]. inversion H; subst. split; [reflexivity|].
    eexists. split; [reflexivity|].
    destruct (normalizeFull_words (data "arizakodu")) as [ws [Hw ->]].
    now apply unwords_normal_form.
Qed.

(** ** The ids of the context and the name of the object *)

Lemma or_default_normal (v : jsval) (d : jsstring) (ws : list jsstring) :
  ws <> [] -> Forall word ws -> d = unwords ws ->
  exists s, or_else (JStr (normalizeFull v)) (JStr d) = JStr s /\
            s <> [] /\ normal_form s /\
            (normalizeFull v = [] -> s = d) /\
            (normalizeFull v <> [] -> s = normalizeFull v).
Proof.
  intros Hn Hw ->. unfold or_else.
  destruct (normalizeFull_words v) as [xs [Hx E]].
  destruct (normalizeFull v) as [|c t] eqn:N; simpl.
  - exists (unwords ws). split; [reflexivity|]. split; [|split; [|split]].
    + intros Q. apply unwords_nil_inv in Q; [contradiction|].
      eapply Forall_impl; [|exact Hw]. now intros ? [].
    + now apply unwords_normal_form.
    + reflexivity.
    + intros Q. now contradiction Q.
  - exists (c :: t). split; [reflexivity|]. split; [|split; [|split]].
    + discriminate.
    + rewrite E. now apply unwords_normal_form.
    + discriminate.
    + reflexivity.
Qed.

(** X16: the name of the material and the last segment of the work-order
    and service-location ids are never empty and always normalised: each is
    the normalised cell when that is not empty, and the fixed default
    ("bilinmeyen malzeme" for the name, "unknown" for the ids) when the
    cell normalises to nothing. *)
Theorem statement_names_normalised (data : Row) :
  (exists s, materialName data = JStr s /\ s <> [] /\ normal_form s /\
             (normalizeFull (data "malzeme_adi") = [] ->
              s = js "bilinmeyen malzeme") /\
             (normalizeFull (data "malzeme_adi") <> [] ->
              s = normalizeFull (data "malzeme_adi"))) /\
  (exists s, workorderId data = BASE_URI ++ js "/activities/workorder/" ++ s /\
             s <> [] /\ normal_form s /\
             (normalizeFull (data "isemirno") = [] -> s = js "unknown") /\
             (normalizeFull (data "isemirno") <> [] ->
              s = normalizeFull (data "isemirno"))) /\
  (exists s, serviceLocationId data =
               BASE_URI ++ js "/activities/service-location/" ++ s /\
             s <> [] /\ normal_form s /\
             (normalizeFull (data "servis") = [] -> s = js "unknown") /\
             (normalizeFull (data "servis") <> [] ->
              s = normalizeFull (data "servis"))).
Proof.
  assert (W1 : Forall word [js "bilinmeyen"; js "malzeme"]).
  { repeat constructor; try discriminate. }
  assert (W2 : Forall word [js "unknown"]).
  { repeat constructor; try discriminate. }
  split; [|split].
  - destruct (or_default_normal (data "malzeme_adi") (js "bilinmeyen malzeme")
                [js "bilinmeyen"; js "malzeme"])
      as (s & E & Hn & Hf & Hd & Hc); [discriminate | exact W1 | reflexivity|].
    exists s. split; [exact E|]. split; [exact Hn|]. split; [exact Hf|].
    split; [exact Hd | exact Hc].
  - destruct (or_default_normal (data "isemirno") (js "unknown") [js "unknown"])
      as (s & E & Hn & Hf & Hd & Hc); [discriminate | exact W2 | reflexivity|].
    exists s. unfold workorderId. rewrite E.
    split; [reflexivity|]. split; [exact Hn|]. split; [exact Hf|].
    split; [exact Hd | exact Hc].
  - destruct (or_default_normal (data "servis") (js "unknown") [js "unknown"])
      as (s & E & Hn & Hf & Hd & Hc); [discriminate | exact W2 | reflexivity|].
    exists s. unfold serviceLocationId. rewrite E.
    split; [reflexivity|]. split; [exact Hn|]. split; [exact Hf|].
    split; [exact Hd | exact Hc].
Qed.

(** A row whose material name is made of punctuation only gets the default
    name; its work-order number is kept, in normalised form. *)
Example statement_names_sample :
  let data : Row := fun key =>
    if String.eqb key "malzeme_adi" then JStr (js "---")
    else if String.eqb key "isemirno" then JStr (js "WO-2023/17")
    else JUndefined in
  materialName data = JStr (js "bilinmeyen malzeme") /\
  workorderId data = js "https://promptever.com/activities/workorder/wo 2023 17" /\
  serviceLocationId data =
    js "https://promptever.com/activities/service-location/unknown".
Proof. vm_compute. repeat split. Qed.

(** ** The capital dotted I *)

(** X17: a capital dotted I is read as the letter i followed by a word
    break: the result for [a], the dotted I and [b] in a row is the result
    for [a] followed by i, and the result for [b], with a space between them
    when both are non-empty. *)
Theorem normalizeFull_dotted_I (a b : jsstring) :
  normalizeFull (JStr (a ++ 304 :: b)) =
  join_space (normalizeFull (JStr (a ++ [105]))) (normalizeFull (JStr b)).
Proof.
  rewrite !normalizeFull_word_list.
  assert (E : word_list (a ++ 304 :: b) = word_list (a ++ [105]) ++ word_list b).
  { unfold word_list.
    change (a ++ 304 :: b) with (a ++ [304] ++ b). rewrite !folded_app.
    change (map replaced_unit (toLowerCase [304])) with ([105] ++ [775]).
    change (map replaced_unit (toLowerCase [105])) with [105].
    rewrite <- app_assoc, (app_assoc _ [105]). cbn [app].
    now apply split_runs_sep_app. }
  rewrite E. apply unwords_app; apply word_list_words.
Qed.

(** ** The earlier script and the present one *)

Lemma splitOn_first (sep : N) (t cur : jsstring) :
  exists w rest,
    splitOn sep cur t = (rev cur ++ w) :: rest /\
    (t = w \/ exists r, t = w ++ sep :: r).
Proof.
  revert cur. induction t as [|c t IH]; intros cur.
  - exists [], []. simpl. rewrite app_nil_r. now split; [|left].
  - simpl. destruct (N.eqb_spec c sep) as [->|Hc].
    + exists [], (splitOn sep [] t). rewrite app_nil_r.
      split; [reflexivity|]. right. now exists t.
    + destruct (IH (c :: cur)) as (w & rest & E & H).
      exists (c :: w), rest. split.
      * rewrite E. simpl. now rewrite <- app_assoc.
      * destruct H as [->|[r ->]]; [now left | right; now exists r].
Qed.

(** X18: the earlier script fails with a TypeError exactly on a truthy cell
    that is not a string (a number, say), where the present one answers; and
    when the earlier script found an id made of Basic Latin letters and
    digits in a non-blank string cell, the present one finds the same id,
    in lower case. *)
Theorem legacy_vehicleId (arac : jsval) :
  (Legacy.vehicleId arac = None <->
   truthy arac = true /\ forall s, arac <> JStr s) /\
  (forall s w,
     arac = JStr s -> trim s <> [] ->
     Legacy.vehicleId arac = Some w ->
     Forall (fun c => ascii_alnum c = true) w ->
     extractVehicleId arac = toLowerCase w).
Proof.
  split.
  - unfold Legacy.vehicleId, or_else.
    destruct (truthy arac) eqn:T.
    + destruct arac as [| |b|x|s]; try discriminate T.
      * split; [intros _; split; [reflexivity | discriminate] | reflexivity].
      * split; [intros _; split; [reflexivity | discriminate] | reflexivity].
      * split; [discriminate|]. intros [_ H]. now contradiction (H s).
    + split; [discriminate|]. intros [Q _]. discriminate Q.
  - intros s w -> Ht Hl Hw. unfold Legacy.vehicleId in Hl.
    destruct s as [|c s]; [now contradiction Ht|].
    change (or_else (JStr (c :: s)) (JStr [])) with (JStr (c :: s)) in Hl.
    cbv beta iota zeta in Hl.
    destruct (trim (c :: s)) as [|d t] eqn:E; [now contradiction Ht|].
    change (truthy (JStr (d :: t))) with true in Hl. cbv iota in Hl.
    unfold split in Hl.
    destruct (splitOn_first 32 (d :: t) []) as (w0 & rest & Es & Hs).
    rewrite Es in Hl. cbn [hd rev app] in Hl.
    assert (w0 = w) by congruence. subst w0. clear Hl.
    assert (Hne : w <> []).
    { intros ->. destruct (trim_head (c :: s)) as [Q|(x & y & Q & Hx)];
        rewrite E in Q; [discriminate|]. inversion Q; subst.
      destruct Hs as [Hs|[r Hs]]; [discriminate|].
      inversion Hs; subst. discriminate Hx. }
    rewrite extractVehicleId_string, <- (word_list_trim (c :: s)), E.
    destruct Hs as [->|[r ->]].
    + now rewrite (word_list_ascii w Hne Hw).
    + now rewrite word_list_space, (word_list_ascii w Hne Hw).
Qed.

Lemma legacy_vehicleId_witness :
  JStr (js " 34ABC123 MAN ") = JStr (js " 34ABC123 MAN ") /\
  trim (js " 34ABC123 MAN ") <> [] /\
  Legacy.vehicleId (JStr (js " 34ABC123 MAN ")) = Some (js "34ABC123") /\
  Forall (fun c => ascii_alnum c = true) (js "34ABC123") /\
  extractVehicleId (JStr (js " 34ABC123 MAN ")) = toLowerCase (js "34ABC123").
Proof.
  assert (H1 : trim (js " 34ABC123 MAN ") <> []) by (vm_compute; discriminate).
  assert (H2 : Legacy.vehicleId (JStr (js " 34ABC123 MAN ")) = Some (js "34ABC123"))
    by reflexivity.
  assert (H3 : Forall (fun c => ascii_alnum c = true) (js "34ABC123"))
    by (repeat constructor).
  split; [reflexivity|]. split; [exact H1|]. split; [exact H2|].
  split; [exact H3|].
  exact (proj2 (legacy_vehicleId (JStr (js " 34ABC123 MAN ")))
           (js " 34ABC123 MAN ") (js "34ABC123") eq_refl H1 H2 H3).
Defined.
